(** * webpath: a shallow embedding of the request pipeline, the response
    navigator, the pagination walker, the download manager and the URL
    builder, with the properties of their specification.

    Conventions of the embedding.
    - A Python [str] is a [string]: a sequence of 8-bit characters.  Text
      outside ASCII is the sequence of its UTF-8 bytes, which is what
      [urllib.parse.quote] works on; [lower] and [strip] act on the ASCII
      range.
    - [exn] ranges over instances of Python's [Exception]: the class that the
      handlers of [downloads.py] and [_http.py] name.
    - Wall-clock time ([time.time()]) is a rational number of seconds.
    - Functions of the Python standard library that the code calls
      ([urlsplit], [urlunsplit], [quote], [str.strip], ...) are written out
      after CPython 3.11; third-party black boxes (the JMESPath evaluator, the
      HTTP transport, the hash library) are section variables. *)

From Stdlib Require Import ZArith QArith Ascii String List Bool Lia.
From Stdlib Require Import DecimalString SpecFloat.
From stdpp Require Import gmap strings list fin_maps.

Local Open Scope Z_scope.
Local Open Scope stdpp_scope.

(* Let [simpl] compute [String.append] on constructors. *)
#[global] Arguments String.append !s1 s2 : simpl nomatch.

(** ** Python strings *)

Module Str.

Definition ch (n : nat) : ascii := ascii_of_nat n.

Definition slash : ascii := ch 47.

Definition code (c : ascii) : nat := nat_of_ascii c.

Definition between (lo hi : nat) (c : ascii) : bool :=
  (lo <=? code c)%nat && (code c <=? hi)%nat.

Definition is_upper : ascii -> bool := between 65 90.
Definition is_lower : ascii -> bool := between 97 122.
Definition is_digit : ascii -> bool := between 48 57.
Definition is_alpha (c : ascii) : bool := is_upper c || is_lower c.

(** [str.lower()] and [str.upper()] on the ASCII range. *)
Definition lower_ascii (c : ascii) : ascii :=
  if is_upper c then ch (code c + 32) else c.

Fixpoint lower (s : string) : string :=
  match s with
  | EmptyString => EmptyString
  | String c s' => String (lower_ascii c) (lower s')
  end.

Definition upper_ascii (c : ascii) : ascii :=
  if is_lower c then ch (code c - 32) else c.

Fixpoint upper (s : string) : string :=
  match s with
  | EmptyString => EmptyString
  | String c s' => String (upper_ascii c) (upper s')
  end.

(** [c in s] for a one-character [c]. *)
Fixpoint mem (c : ascii) (s : string) : bool :=
  match s with
  | EmptyString => false
  | String a s' => Ascii.eqb a c || mem c s'
  end.

Definition is_empty (s : string) : bool :=
  match s with EmptyString => true | _ => false end.

(** [s.startswith(p)]. *)
Definition startswith (p s : string) : bool := String.prefix p s.

Fixpoint last (s : string) : option ascii :=
  match s with
  | EmptyString => None
  | String c EmptyString => Some c
  | String _ s' => last s'
  end.

(** [s.endswith(c)] for a one-character [c]. *)
Definition endswith (c : ascii) (s : string) : bool :=
  match last s with
  | Some a => Ascii.eqb a c
  | None => false
  end.

(** [p in s] for strings: [s] has [p] as a contiguous substring. *)
Fixpoint infixb (p s : string) : bool :=
  String.prefix p s ||
  match s with
  | EmptyString => false
  | String _ s' => infixb p s'
  end.

(** [s.lstrip(chars)]: drop the leading characters that satisfy [f]. *)
Fixpoint lstrip (f : ascii -> bool) (s : string) : string :=
  match s with
  | EmptyString => EmptyString
  | String c s' => if f c then lstrip f s' else s
  end.

(** [s.rstrip(chars)]: drop the trailing characters that satisfy [f]. *)
Fixpoint rstrip (f : ascii -> bool) (s : string) : string :=
  match s with
  | EmptyString => EmptyString
  | String c s' =>
      let r := rstrip f s' in
      if f c && is_empty r then EmptyString else String c r
  end.

(** The ASCII characters [str.isspace] accepts. *)
Definition is_space (c : ascii) : bool :=
  between 9 13 c || between 28 32 c.

Definition strip (s : string) : string := rstrip is_space (lstrip is_space s).

Definition is_slash (c : ascii) : bool := Ascii.eqb c slash.

(** [s.replace(c, "")] for every [c] that satisfies [f]. *)
Fixpoint remove (f : ascii -> bool) (s : string) : string :=
  match s with
  | EmptyString => EmptyString
  | String c s' => if f c then remove f s' else String c (remove f s')
  end.

(** The longest prefix free of [f], and what follows it. *)
Fixpoint break (f : ascii -> bool) (s : string) : string * string :=
  match s with
  | EmptyString => (EmptyString, EmptyString)
  | String c s' =>
      if f c then (EmptyString, s)
      else let '(a, b) := break f s' in (String c a, b)
  end.

(** [s.partition(c)]: the text before the first [c], whether [c] was found,
    and the text after it. *)
Definition partition (c : ascii) (s : string) : string * bool * string :=
  match break (Ascii.eqb c) s with
  | (a, String _ b) => (a, true, b)
  | (a, EmptyString) => (a, false, EmptyString)
  end.

(** [s.rpartition(c)[2]]: the text after the last [c], all of [s] when there
    is none. *)
Fixpoint after_last (c : ascii) (s : string) : string :=
  match s with
  | EmptyString => EmptyString
  | String a s' =>
      if mem c s' then after_last c s'
      else if Ascii.eqb a c then s' else s
  end.

Fixpoint forallb (f : ascii -> bool) (s : string) : bool :=
  match s with
  | EmptyString => true
  | String c s' => f c && forallb f s'
  end.

(** [str(n)] for an integer. *)
Definition of_Z (z : Z) : string := NilZero.string_of_int (Z.to_int z).

End Str.

(** Facts about the string functions. *)
Module StrFacts.
Import Str.

Lemma append_nil_r (s : string) : s +:+ "" = s.
Proof. induction s; simpl; congruence. Qed.

Lemma append_assoc (a b c : string) : (a +:+ b) +:+ c = a +:+ b +:+ c.
Proof. induction a; simpl; congruence. Qed.

Lemma prefix_app (p s : string) : String.prefix p (p +:+ s) = true.
Proof.
  induction p as [|c p IH]; simpl.
  - now destruct s.
  - destruct (ascii_dec c c); [exact IH|congruence].
Qed.

Lemma infixb_here (p s : string) : String.prefix p s = true -> infixb p s = true.
Proof. intros H. destruct s; simpl in *; rewrite H; reflexivity. Qed.

Lemma infixb_app_l (p a s : string) : infixb p s = true -> infixb p (a +:+ s) = true.
Proof.
  intros H. induction a as [|c a IH]; simpl; [exact H|].
  rewrite IH. apply orb_true_r.
Qed.

(** A string holds every piece it is assembled from. *)
Lemma infixb_mid (p a b : string) : infixb p (a +:+ p +:+ b) = true.
Proof. apply infixb_app_l, infixb_here, prefix_app. Qed.

Lemma infixb_end (p a : string) : infixb p (a +:+ p) = true.
Proof. rewrite <- (append_nil_r p) at 2. apply infixb_mid. Qed.

Lemma infixb_refl (p : string) : infixb p p = true.
Proof. rewrite <- (append_nil_r p) at 2. apply infixb_here, prefix_app. Qed.

(** Finds a piece in a right-nested chain of appends. *)
Ltac find_piece :=
  repeat first
    [ apply infixb_refl
    | apply infixb_here; apply prefix_app
    | apply infixb_app_l ].


Lemma forallb_app (f : ascii -> bool) (a b : string) :
  forallb f (a +:+ b) = forallb f a && forallb f b.
Proof. induction a as [|c a IH]; simpl; [reflexivity|]. now rewrite IH, andb_assoc. Qed.

Lemma last_cons (c : ascii) (s : string) :
  last (String c s) = match s with EmptyString => Some c | _ => last s end.
Proof. now destruct s. Qed.

Lemma last_app (a b : string) :
  last (a +:+ b) = match b with EmptyString => last a | _ => last b end.
Proof.
  induction a as [|c a IH]; simpl append.
  - now destruct b.
  - rewrite !last_cons, IH. destruct a, b; reflexivity.
Qed.

Lemma last_nonempty (s : string) : is_empty s = false -> exists c, last s = Some c.
Proof.
  induction s as [|c s IH]; [discriminate|]. intros _. rewrite last_cons.
  destruct s; [now exists c|]. now apply IH.
Qed.

Lemma last_forallb (f : ascii -> bool) (s : string) (c : ascii) :
  forallb f s = true -> last s = Some c -> f c = true.
Proof.
  induction s as [|a s IH]; [discriminate|]. simpl forallb. rewrite last_cons.
  intros H%andb_true_iff. destruct H as [Ha Hs]. destruct s.
  - now intros [= <-].
  - now apply IH.
Qed.

Lemma endswith_app (c : ascii) (a b : string) :
  is_empty b = false -> endswith c (a +:+ b) = endswith c b.
Proof. intros H. unfold endswith. rewrite last_app. now destruct b. Qed.

Lemma lstrip_head (f : ascii -> bool) (c : ascii) (s : string) :
  f c = false -> lstrip f (String c s) = String c s.
Proof. intros H. simpl. now rewrite H. Qed.

Lemma lstrip_shape (f : ascii -> bool) (s : string) :
  lstrip f s = EmptyString
  \/ exists c s', lstrip f s = String c s' /\ f c = false.
Proof.
  induction s as [|c s IH]; [now left|]. simpl.
  destruct (f c) eqn:E; [exact IH|]. right. now exists c, s.
Qed.

Lemma lstrip_last (f : ascii -> bool) (s : string) (c : ascii) :
  last s = Some c -> f c = false -> last (lstrip f s) = Some c.
Proof.
  induction s as [|a s IH]; [discriminate|]. rewrite last_cons. simpl lstrip.
  destruct s.
  - intros [= ->] ->. reflexivity.
  - intros Hl Hc. destruct (f a); [now apply IH|]. now rewrite last_cons.
Qed.

Lemma rstrip_last (f : ascii -> bool) (s : string) (c : ascii) :
  last (rstrip f s) = Some c -> f c = false.
Proof.
  induction s as [|a s IH]; [discriminate|]. simpl.
  destruct (f a && is_empty (rstrip f s)) eqn:E; [discriminate|].
  rewrite last_cons. destruct (rstrip f s) eqn:R.
  - intros [= <-]. simpl in E. now rewrite andb_true_r in E.
  - exact IH.
Qed.

Lemma rstrip_fixed (f : ascii -> bool) (s : string) (c : ascii) :
  last s = Some c -> f c = false -> rstrip f s = s.
Proof.
  induction s as [|a s IH]; [discriminate|]. rewrite last_cons. simpl. destruct s.
  - intros [= ->] ->. reflexivity.
  - intros Hl Hc. rewrite (IH Hl Hc). simpl. now rewrite andb_false_r.
Qed.

Lemma rstrip_app_keep (f : ascii -> bool) (a b : string) (c : ascii) :
  last a = Some c -> f c = false -> rstrip f (a +:+ b) = a +:+ rstrip f b.
Proof.
  induction a as [|x a IH]; [discriminate|]. rewrite last_cons. simpl. destruct a.
  - intros [= ->] ->. reflexivity.
  - intros Hl Hc. rewrite (IH Hl Hc). simpl. now rewrite andb_false_r.
Qed.

Lemma rstrip_app_dropped (f : ascii -> bool) (s : string) (c : ascii) :
  f c = true -> rstrip f (s +:+ String c EmptyString) = rstrip f s.
Proof.
  intros Hc. induction s as [|a s IH]; simpl; [now rewrite Hc|]. now rewrite IH.
Qed.

Lemma rstrip_idem (f : ascii -> bool) (s : string) : rstrip f (rstrip f s) = rstrip f s.
Proof.
  destruct (is_empty (rstrip f s)) eqn:E.
  - destruct (rstrip f s); [reflexivity|discriminate].
  - destruct (last_nonempty _ E) as [c Hc].
    apply (rstrip_fixed f _ c Hc). exact (rstrip_last f s c Hc).
Qed.

Lemma rstrip_forallb (f g : ascii -> bool) (s : string) :
  forallb g s = true -> forallb g (rstrip f s) = true.
Proof.
  induction s as [|a s IH]; [reflexivity|]. simpl.
  intros H%andb_true_iff. destruct H as [Ha Hs].
  destruct (f a && is_empty (rstrip f s)); [reflexivity|].
  simpl. now rewrite Ha, IH.
Qed.

Lemma rstrip_head (f : ascii -> bool) (c : ascii) (s : string) :
  f c = false -> rstrip f (String c s) = String c (rstrip f s).
Proof. intros H. simpl. now rewrite H. Qed.

Lemma strip_idem (s : string) : strip (strip s) = strip s.
Proof.
  unfold strip.
  destruct (lstrip_shape is_space s) as [-> | (c & s' & -> & Hc)]; [reflexivity|].
  rewrite (rstrip_head _ _ _ Hc), (lstrip_head _ _ _ Hc), <- (rstrip_head _ _ _ Hc).
  apply rstrip_idem.
Qed.

Lemma remove_app (f : ascii -> bool) (a b : string) :
  remove f (a +:+ b) = remove f a +:+ remove f b.
Proof.
  induction a as [|c a IH]; simpl; [reflexivity|].
  destruct (f c); simpl; now rewrite IH.
Qed.

Lemma remove_fixed (f : ascii -> bool) (s : string) :
  forallb (fun c => negb (f c)) s = true -> remove f s = s.
Proof.
  induction s as [|c s IH]; [reflexivity|]. simpl.
  intros H%andb_true_iff. destruct H as [Hc Hs].
  apply negb_true_iff in Hc. now rewrite Hc, IH.
Qed.

Lemma remove_clean (f : ascii -> bool) (s : string) :
  forallb (fun c => negb (f c)) (remove f s) = true.
Proof.
  induction s as [|c s IH]; [reflexivity|]. simpl.
  destruct (f c) eqn:E; [exact IH|]. simpl. now rewrite E, IH.
Qed.

Lemma remove_last (f : ascii -> bool) (s : string) (c : ascii) :
  last s = Some c -> f c = false -> last (remove f s) = Some c.
Proof.
  induction s as [|a s IH]; [discriminate|]. rewrite last_cons. simpl remove.
  destruct s.
  - intros [= ->] ->. reflexivity.
  - intros Hl Hc. specialize (IH Hl Hc).
    destruct (f a); [exact IH|]. rewrite last_cons.
    destruct (remove f (String a0 s)); [discriminate|exact IH].
Qed.

(** [break f s] splits [s] before its first character that satisfies [f]. *)
Lemma break_spec (f : ascii -> bool) (s : string) :
  s = (break f s).1 +:+ (break f s).2
  /\ forallb (fun c => negb (f c)) (break f s).1 = true
  /\ ((break f s).2 = EmptyString
      \/ exists c t, (break f s).2 = String c t /\ f c = true).
Proof.
  induction s as [|a s IH]; simpl.
  - repeat split. now left.
  - destruct (f a) eqn:E; simpl.
    + repeat split. right. now exists a, s.
    + destruct (break f s) as [x y]. simpl in *.
      destruct IH as (H1 & H2 & H3). rewrite E. simpl.
      repeat split; [now rewrite <- H1|exact H2|exact H3].
Qed.

Lemma break_app (f : ascii -> bool) (a b : string) :
  forallb (fun c => negb (f c)) a = true ->
  (b = EmptyString \/ exists c t, b = String c t /\ f c = true) ->
  break f (a +:+ b) = (a, b).
Proof.
  intros Ha Hb. induction a as [|x a IH]; simpl.
  - destruct Hb as [-> | (c & t & -> & Hc)]; [reflexivity|]. simpl. now rewrite Hc.
  - simpl in Ha. apply andb_true_iff in Ha as [Hx Ha].
    apply negb_true_iff in Hx. rewrite Hx, (IH Ha). reflexivity.
Qed.

Definition lacks (c : ascii) (s : string) : bool :=
  forallb (fun a => negb (Ascii.eqb c a)) s.

Lemma partition_found (c : ascii) (a b : string) :
  lacks c a = true -> partition c (a +:+ String c b) = (a, true, b).
Proof.
  intros Ha. unfold partition. rewrite (break_app _ a (String c b) Ha); [reflexivity|].
  right. exists c, b. split; [reflexivity|apply Ascii.eqb_refl].
Qed.

Lemma partition_none (c : ascii) (a : string) :
  lacks c a = true -> partition c a = (a, false, EmptyString).
Proof.
  intros Ha. unfold partition.
  rewrite <- (append_nil_r a) at 1. rewrite (break_app _ a EmptyString Ha); [reflexivity|].
  now left.
Qed.

(** [partition c s] in general. *)
Lemma partition_spec (c : ascii) (s : string) :
  let '(a, found, b) := partition c s in
  lacks c a = true
  /\ s = a +:+ (if found then String c b else EmptyString)
  /\ (found = false -> b = EmptyString).
Proof.
  unfold partition. destruct (break_spec (Ascii.eqb c) s) as (H1 & H2 & H3).
  destruct (break (Ascii.eqb c) s) as [a b]. simpl in *.
  destruct b as [|x b].
  - repeat split; assumption.
  - destruct H3 as [H3 | (x' & t & [= -> ->] & Hx)]; [discriminate|].
    apply Ascii.eqb_eq in Hx. subst x'. repeat split; try assumption. discriminate.
Qed.

End StrFacts.

#[global] Arguments Str.infixb : simpl never.

(** ** Exceptions and results *)

(** The exception classes the code raises, catches or lets through, all of
    them subclasses of [Exception]; an exception that is none
    ([KeyboardInterrupt], [SystemExit]) is outside the model.  Classes of the
    [requests] library are prefixed; the others are built in. *)
Inductive exn_class : Type :=
| ValueError | KeyError | IndexError | TypeError | AttributeError
| OSError | ConnectionError | TimeoutError
| RequestsHTTPError | RequestsConnectionError | RequestsTimeout
| RequestsConnectTimeout | RequestsInvalidURL | RequestsOther.

Record exn : Type := Exn { exn_cls : exn_class; exn_msg : string }.

Definition exn_class_eqb (a b : exn_class) : bool :=
  match a, b with
  | ValueError, ValueError | KeyError, KeyError | IndexError, IndexError
  | TypeError, TypeError | AttributeError, AttributeError
  | OSError, OSError | ConnectionError, ConnectionError
  | TimeoutError, TimeoutError | RequestsHTTPError, RequestsHTTPError
  | RequestsConnectionError, RequestsConnectionError
  | RequestsTimeout, RequestsTimeout
  | RequestsConnectTimeout, RequestsConnectTimeout
  | RequestsInvalidURL, RequestsInvalidURL | RequestsOther, RequestsOther => true
  | _, _ => false
  end.

(** [issubclass(c, base)] on the classes above. *)
Definition subclass (c base : exn_class) : bool :=
  exn_class_eqb c base ||
  match base, c with
  | ValueError, RequestsInvalidURL => true
  | OSError, (ConnectionError | TimeoutError | RequestsHTTPError
             | RequestsConnectionError | RequestsTimeout
             | RequestsConnectTimeout | RequestsInvalidURL | RequestsOther) => true
  | RequestsConnectionError, RequestsConnectTimeout => true
  | RequestsTimeout, RequestsConnectTimeout => true
  | RequestsOther, (RequestsHTTPError | RequestsConnectionError | RequestsTimeout
                   | RequestsConnectTimeout | RequestsInvalidURL) => true
  | _, _ => false
  end.

Definition caught_by (e : exn) (bases : list exn_class) : bool :=
  existsb (subclass (exn_cls e)) bases.

Inductive result (A : Type) : Type :=
| Ok (a : A)
| Raise (e : exn).
Arguments Ok {A} a.
Arguments Raise {A} e.

Definition is_ok {A} (r : result A) : bool :=
  match r with Ok _ => true | Raise _ => false end.

(** ** [urllib.parse] *)

Module Urllib.
Import Str.

Definition hex_digit (n : nat) : ascii :=
  if (n <? 10)%nat then ch (48 + n) else ch (55 + n).

(** Characters [quote] never escapes, with its default [safe='/']. *)
Definition quote_safe (c : ascii) : bool :=
  is_alpha c || is_digit c
  || Ascii.eqb c (ch 95) || Ascii.eqb c (ch 46) || Ascii.eqb c (ch 45)
  || Ascii.eqb c (ch 126) || is_slash c.

Definition quote_char (c : ascii) : string :=
  if quote_safe c then String c EmptyString
  else String (ch 37)
         (String (hex_digit (code c / 16)) (String (hex_digit (code c mod 16)) EmptyString)).

(** [quote(s)]. *)
Fixpoint quote (s : string) : string :=
  match s with
  | EmptyString => EmptyString
  | String c s' => quote_char c +:+ quote s'
  end.

Record SplitResult : Type := mkSplit {
  scheme : string;
  netloc : string;
  path : string;
  query : string;
  fragment : string
}.

Definition is_c0_or_space (c : ascii) : bool := (code c <=? 32)%nat.

Definition is_unsafe (c : ascii) : bool :=
  Ascii.eqb c (ch 9) || Ascii.eqb c (ch 13) || Ascii.eqb c (ch 10).

Definition is_scheme_char (c : ascii) : bool :=
  is_alpha c || is_digit c
  || Ascii.eqb c (ch 43) || Ascii.eqb c (ch 45) || Ascii.eqb c (ch 46).

Definition colon : ascii := ch 58.
Definition hash : ascii := ch 35.
Definition qmark : ascii := ch 63.

Definition is_netloc_delim (c : ascii) : bool :=
  is_slash c || Ascii.eqb c qmark || Ascii.eqb c hash.

(** The scheme of [url] and what follows its colon; no scheme when the text
    before the first colon is empty, does not start with a letter or holds a
    character outside [scheme_chars]. *)
Definition split_scheme (url : string) : string * string :=
  match partition colon url with
  | (String c0 pre, true, rest) =>
      if is_alpha c0 && forallb is_scheme_char pre
      then (lower (String c0 pre), rest)
      else (EmptyString, url)
  | _ => (EmptyString, url)
  end.

(** [_splitnetloc(url, 2)] when [url] starts with two slashes. *)
Definition split_netloc (url : string) : string * string :=
  match url with
  | String a (String b rest) =>
      if is_slash a && is_slash b then break is_netloc_delim rest
      else (EmptyString, url)
  | _ => (EmptyString, url)
  end.

Definition lbracket : ascii := ch 91.
Definition rbracket : ascii := ch 93.
Definition at_sign : ascii := ch 64.
Definition percent : ascii := ch 37.

(** The bracket checks of [urlsplit] and [_check_bracketed_netloc] that raise
    [ValueError("Invalid IPv6 URL")]. *)
Definition netloc_invalid (nl : string) : bool :=
  xorb (mem lbracket nl) (mem rbracket nl)
  || (mem lbracket nl && mem rbracket nl &&
      match partition lbracket (after_last at_sign nl) with
      | (before, true, bracketed) =>
          negb (is_empty before) ||
          (let '(_, _, port) := partition rbracket bracketed in
           negb (is_empty port) && negb (startswith (String colon EmptyString) port))
      | _ => false
      end).

Definition urlsplit (url0 : string) : result SplitResult :=
  let url := remove is_unsafe (lstrip is_c0_or_space url0) in
  let '(sch, url) := split_scheme url in
  let '(nl, url) := split_netloc url in
  if netloc_invalid nl then Raise (Exn ValueError "Invalid IPv6 URL")
  else
    let '(url, _, frag) := partition hash url in
    let '(url, _, qry) := partition qmark url in
    Ok (mkSplit sch nl url qry frag).

(** [urlunsplit(parts)].  The schemes the code builds URLs for (http and
    https) are in [uses_netloc]. *)
Definition uses_netloc (sch : string) : bool :=
  String.eqb sch "http" || String.eqb sch "https".

Definition urlunsplit (p : SplitResult) : string :=
  let url := path p in
  let url :=
    if negb (is_empty (netloc p))
       || (negb (is_empty (scheme p)) && uses_netloc (scheme p)
           && negb (startswith "//" url))
    then "//" +:+ netloc p +:+
         (if negb (is_empty url) && negb (startswith "/" url) then "/" +:+ url else url)
    else url in
  let url := if is_empty (scheme p) then url else scheme p +:+ ":" +:+ url in
  let url := if is_empty (query p) then url else url +:+ "?" +:+ query p in
  if is_empty (fragment p) then url else url +:+ "#" +:+ fragment p.

(** [SplitResult.hostname]: [None] when the host part of the netloc is
    empty. *)
Definition hostname (p : SplitResult) : option string :=
  let hostinfo := after_last at_sign (netloc p) in
  let host :=
    match partition lbracket hostinfo with
    | (_, true, bracketed) => (partition rbracket bracketed).1.1
    | _ => (partition colon hostinfo).1.1
    end in
  if is_empty host then None
  else
    let '(h, found, zone) := partition percent host in
    Some (lower h +:+ (if found then "%" else "") +:+ zone).

End Urllib.

(** ** The cache store ([webpath/cache.py]) *)

Module Cache.

(** Modelled from the spec: [webpath/cache.py] ([CacheConfig] with its [get]
    and [set]) is not among the sources.  The spec's data model gives the
    entry (status code, headers, body, captured URL, stored-at timestamp), its
    key (method, canonical URL string) and its lifecycle: read before every
    request, evicted at read time when [now - stored_at > TTL], written when a
    TTL is configured. *)
Record CacheEntry : Type := mkEntry {
  status_code : Z;
  headers : list (string * string);
  content : string;
  url : string;
  stored_at : Q
}.

(** Modelled from the spec: the cache part of the request configuration, a
    TTL (optional) and a cache directory (optional). *)
Record CacheConfig : Type := mkCacheConfig {
  ttl : option Q;
  cache_dir : option string
}.

(** Modelled from the spec: the cache store maps (method, URL) to the
    captured response. *)
Abbreviation store := (gmap (string * string) CacheEntry).

(** Modelled from the spec: an entry is evicted when
    [now - stored_at > TTL], so it is live while [now - stored_at <= TTL]. *)
Definition unexpired (t now : Q) (e : CacheEntry) : bool :=
  Qle_bool (now - stored_at e) t.

(** Modelled from the spec: [CacheConfig.get(method, url)] at time [now]
    returns the entry when a TTL is configured and the entry exists and is
    unexpired; an expired entry is evicted by the read. *)
Definition get (cfg : CacheConfig) (st : store) (now : Q) (verb u : string)
  : option CacheEntry * store :=
  match ttl cfg with
  | None => (None, st)
  | Some t =>
      match st !! (verb, u) with
      | None => (None, st)
      | Some e =>
          if unexpired t now e then (Some e, st)
          else (None, delete (verb, u) st)
      end
  end.

(** Modelled from the spec: [CacheConfig.set(method, url, response)] at time
    [now] stores the captured response under (method, url) when a TTL is
    configured. *)
Definition set (cfg : CacheConfig) (st : store) (now : Q) (verb u : string)
    (status : Z) (hdrs : list (string * string)) (body captured : string) : store :=
  match ttl cfg with
  | None => st
  | Some _ => <[(verb, u) := mkEntry status hdrs body captured now]> st
  end.

End Cache.

(** ** The URL builder ([webpath/core.py]) *)

Module Core.
Import Str.

(** The slots of [WebPath].  [_cache] (the memo of the parsed query) does not
    take part in any request and is left out. *)
Record WebPath : Type := mkWebPath {
  _url : string;
  _parts : Urllib.SplitResult;
  _trailing_slash : bool;
  _cache_config : option Cache.CacheConfig;
  _allow_auto_follow : bool;
  _enable_logging : bool;
  _rate_limit : option Q;
  _last_request_time : Q;
  _default_headers : list (string * string);
  _retries : option Z;
  _backoff : Q;
  _jitter : Q;
  _timeout : option Q;
  _session : option nat
}.

Definition is_http_scheme (s : string) : bool :=
  String.eqb s "http" || String.eqb s "https".

(** [WebPath.__init__]. *)
Definition init (url : string) : result WebPath :=
  let u := strip url in
  if is_empty u then Raise (Exn ValueError "URL cannot be empty")
  else
    match Urllib.urlsplit u with
    | Raise e => Raise e
    | Ok parts =>
        if is_empty (Urllib.scheme parts)
        then Raise (Exn ValueError ("URL must include scheme (http/https): " +:+ u))
        else if negb (is_http_scheme (Urllib.scheme parts))
        then Raise (Exn ValueError
                      ("Only http/https schemes supported: " +:+ Urllib.scheme parts))
        else if is_empty (Urllib.netloc parts)
        then Raise (Exn ValueError ("URL must include hostname: " +:+ u))
        else
          Ok {| _url := u;
                _parts := parts;
                _trailing_slash :=
                  endswith slash u && negb (endswith slash (Urllib.path parts));
                _cache_config := None;
                _allow_auto_follow := false;
                _enable_logging := false;
                _rate_limit := None;
                _last_request_time := 0%Q;
                _default_headers := [];
                _retries := None;
                _backoff := (3 # 10)%Q;
                _jitter := 0%Q;
                _timeout := None;
                _session := None |}
    end.

(** The first loop of [_clone]: every slot but [_url], [_parts],
    [_trailing_slash] and [_cache] is taken from [self]. *)
Definition copy_config (self fresh : WebPath) : WebPath :=
  {| _url := _url fresh;
     _parts := _parts fresh;
     _trailing_slash := _trailing_slash fresh;
     _cache_config := _cache_config self;
     _allow_auto_follow := _allow_auto_follow self;
     _enable_logging := _enable_logging self;
     _rate_limit := _rate_limit self;
     _last_request_time := _last_request_time self;
     _default_headers := _default_headers self;
     _retries := _retries self;
     _backoff := _backoff self;
     _jitter := _jitter self;
     _timeout := _timeout self;
     _session := _session self |}.

(** [_clone] with its keyword updates: a fresh [WebPath(self._url)], the configuration of
    [self], then the updates. *)
Definition _clone (self : WebPath) (updates : WebPath -> WebPath) : result WebPath :=
  match init (_url self) with
  | Raise e => Raise e
  | Ok fresh => Ok (updates (copy_config self fresh))
  end.

Definition set_url_parts (u : string) (p : Urllib.SplitResult) (w : WebPath) : WebPath :=
  {| _url := u;
     _parts := p;
     _trailing_slash := _trailing_slash w;
     _cache_config := _cache_config w;
     _allow_auto_follow := _allow_auto_follow w;
     _enable_logging := _enable_logging w;
     _rate_limit := _rate_limit w;
     _last_request_time := _last_request_time w;
     _default_headers := _default_headers w;
     _retries := _retries w;
     _backoff := _backoff w;
     _jitter := _jitter w;
     _timeout := _timeout w;
     _session := _session w |}.

Definition with_path (p : Urllib.SplitResult) (new_path : string) : Urllib.SplitResult :=
  Urllib.mkSplit (Urllib.scheme p) (Urllib.netloc p) new_path
                 (Urllib.query p) (Urllib.fragment p).

(** [_replace(path=new_path)]. *)
Definition _replace_path (self : WebPath) (new_path : string) : result WebPath :=
  let parts := with_path (_parts self) new_path in
  let u := Urllib.urlunsplit parts in
  let u := if _trailing_slash self && negb (endswith slash u) then u +:+ "/" else u in
  match Urllib.urlsplit u with
  | Raise e => Raise e
  | Ok parts' => _clone self (set_url_parts u parts')
  end.

(** [WebPath.__truediv__]: [self / other]. *)
Definition truediv (self : WebPath) (other : string) : result WebPath :=
  let seg := Urllib.quote (lstrip is_slash other) in
  let new_path :=
    if negb (is_empty (Urllib.path (_parts self)))
    then rstrip is_slash (Urllib.path (_parts self)) +:+ "/" +:+ seg
    else "/" +:+ seg in
  _replace_path self new_path.

(** A sequence of joins, left to right; the first failure ends it. *)
Fixpoint joins (self : WebPath) (segments : list string) : result WebPath :=
  match segments with
  | [] => Ok self
  | seg :: rest =>
      match truediv self seg with
      | Raise e => Raise e
      | Ok next => joins next rest
      end
  end.

(** [with_rate_limit(requests_per_second)]. *)
Definition with_rate_limit (self : WebPath) (requests_per_second : Q) : result WebPath :=
  _clone self (fun w =>
    {| _url := _url w; _parts := _parts w; _trailing_slash := _trailing_slash w;
       _cache_config := _cache_config w; _allow_auto_follow := _allow_auto_follow w;
       _enable_logging := _enable_logging w;
       _rate_limit := Some requests_per_second;
       _last_request_time := 0%Q;
       _default_headers := _default_headers w; _retries := _retries w;
       _backoff := _backoff w; _jitter := _jitter w; _timeout := _timeout w;
       _session := _session w |}).

(** [with_cache(ttl, cache_dir)]. *)
Definition with_cache (self : WebPath) (ttl : Q) (cache_dir : option string)
  : result WebPath :=
  _clone self (fun w =>
    {| _url := _url w; _parts := _parts w; _trailing_slash := _trailing_slash w;
       _cache_config := Some (Cache.mkCacheConfig (Some ttl) cache_dir);
       _allow_auto_follow := _allow_auto_follow w;
       _enable_logging := _enable_logging w;
       _rate_limit := _rate_limit w;
       _last_request_time := _last_request_time w;
       _default_headers := _default_headers w; _retries := _retries w;
       _backoff := _backoff w; _jitter := _jitter w; _timeout := _timeout w;
       _session := _session w |}).

(** What a freshly constructed [WebPath] looks like. *)
Lemma init_fresh (s : string) (p : WebPath) :
  init s = Ok p ->
  _url p = strip s
  /\ Urllib.urlsplit (strip s) = Ok (_parts p)
  /\ is_http_scheme (Urllib.scheme (_parts p)) = true
  /\ is_empty (Urllib.netloc (_parts p)) = false
  /\ _trailing_slash p
     = endswith slash (strip s) && negb (endswith slash (Urllib.path (_parts p)))
  /\ _cache_config p = None /\ _rate_limit p = None /\ _enable_logging p = false
  /\ _allow_auto_follow p = false
  /\ _retries p = None /\ _session p = None /\ _timeout p = None
  /\ _default_headers p = [] /\ _backoff p = (3 # 10)%Q /\ _jitter p = 0%Q.
Proof.
  unfold init. destruct (is_empty (strip s)); [discriminate|].
  destruct (Urllib.urlsplit (strip s)) as [parts|]; [|discriminate].
  destruct (is_empty (Urllib.scheme parts)); [discriminate|].
  destruct (is_http_scheme (Urllib.scheme parts)) eqn:Hs; [|discriminate].
  destruct (is_empty (Urllib.netloc parts)) eqn:Hn; [discriminate|].
  simpl. intros [= <-]. simpl. now rewrite Hs, Hn.
Qed.

End Core.

(** ** Facts about [urllib.parse] *)

Module UrlFacts.
Import Str StrFacts Urllib.

(** Decides a fact about one character by trying all 256. *)
Ltac by_cases_on c :=
  destruct c as [[] [] [] [] [] [] [] []]; try reflexivity; try discriminate.

Lemma forallb_impl (f g : ascii -> bool) (s : string) :
  (forall c, f c = true -> g c = true) -> forallb f s = true -> forallb g s = true.
Proof.
  intros Hfg. induction s as [|c s IH]; [reflexivity|]. simpl.
  intros H%andb_true_iff. destruct H as [Hc Hs]. now rewrite (Hfg c Hc), IH.
Qed.

(** What [quote] puts out: an unreserved character, a slash, or a percent
    sign followed by two hexadecimal digits. *)
Definition quoted_char (c : ascii) : bool := quote_safe c || Ascii.eqb c percent.

Definition clean (c : ascii) : bool := negb (is_unsafe c).

(** What a path may hold once [urlsplit] has cut it out. *)
Definition path_char (c : ascii) : bool :=
  clean c && negb (Ascii.eqb qmark c) && negb (Ascii.eqb hash c).

Definition query_char (c : ascii) : bool := clean c && negb (Ascii.eqb hash c).

Lemma quote_char_quoted (c : ascii) : forallb quoted_char (quote_char c) = true.
Proof. by_cases_on c. Qed.

Lemma quote_quoted (s : string) : forallb quoted_char (quote s) = true.
Proof.
  induction s as [|c s IH]; [reflexivity|]. simpl.
  now rewrite forallb_app, quote_char_quoted, IH.
Qed.

Lemma quoted_is_path_char (c : ascii) : quoted_char c = true -> path_char c = true.
Proof. by_cases_on c. Qed.

Lemma quoted_not_space (c : ascii) : quoted_char c = true -> is_space c = false.
Proof. by_cases_on c. Qed.

Definition delim_free (c : ascii) : bool := negb (is_netloc_delim c).

(** A netloc that [urlsplit] reads back as it is. *)
Record wf_netloc (nl : string) : Prop := mkWfNetloc {
  nl_nonempty : is_empty nl = false;
  nl_delim_free : forallb delim_free nl = true;
  nl_clean : forallb clean nl = true;
  nl_valid : netloc_invalid nl = false
}.

Definition starts_with_delim (s : string) : Prop :=
  s = EmptyString \/ exists c t, s = String c t /\ is_netloc_delim c = true.

(** The path, query and fragment that [urlsplit] cuts out of what follows
    the netloc. *)
Definition split_rest (rest : string) : string * string * string :=
  let '(a, _, frag) := partition hash rest in
  let '(pth, _, qry) := partition qmark a in
  (pth, qry, frag).

Lemma http_scheme_cases (sch : string) :
  Core.is_http_scheme sch = true -> sch = "http" \/ sch = "https".
Proof.
  unfold Core.is_http_scheme. intros H%orb_true_iff.
  destruct H as [H|H]; apply String.eqb_eq in H; auto.
Qed.

Lemma starts_with_delim_remove (rest : string) :
  starts_with_delim rest -> starts_with_delim (remove is_unsafe rest).
Proof.
  intros [-> | (c & t & -> & Hc)]; [now left|]. right. simpl.
  exists c, (remove is_unsafe t). split; [|exact Hc].
  replace (is_unsafe c) with false; [reflexivity|].
  revert Hc. by_cases_on c.
Qed.

(** [urlsplit] on a URL of the shape scheme://netloc followed by a path,
    query or fragment. *)
Lemma urlsplit_shape (sch nl rest : string) :
  Core.is_http_scheme sch = true ->
  wf_netloc nl ->
  starts_with_delim rest ->
  urlsplit (sch +:+ "://" +:+ nl +:+ rest)
  = let '(pth, qry, frag) := split_rest (remove is_unsafe rest) in
    Ok (mkSplit sch nl pth qry frag).
Proof.
  intros Hs [Hne Hdf Hcl Hv] Hrest.
  pose proof (starts_with_delim_remove rest Hrest) as Hrest'.
  assert (Hnl : remove is_unsafe (nl +:+ rest) = nl +:+ remove is_unsafe rest).
  { rewrite remove_app. f_equal. now apply remove_fixed. }
  assert (Hbr : break is_netloc_delim (nl +:+ remove is_unsafe rest)
                = (nl, remove is_unsafe rest)).
  { apply break_app; assumption. }
  unfold urlsplit, split_rest.
  destruct (http_scheme_cases sch Hs) as [-> | ->]; simpl;
    rewrite Hnl; simpl; rewrite Hbr, Hv;
    destruct (partition hash (remove is_unsafe rest)) as [[a fnd] frag];
    destruct (partition qmark a) as [[pth fnd2] qry]; reflexivity.
Qed.


(** The query and fragment as [urlunsplit] renders them. *)
Definition tail_of (qry frag : string) : string :=
  (if is_empty qry then "" else "?" +:+ qry)
  +:+ (if is_empty frag then "" else "#" +:+ frag).

Definition path_rooted (pth : string) : Prop :=
  pth = EmptyString \/ startswith "/" pth = true.

(** Parts that [urlunsplit] and [urlsplit] carry back and forth unchanged. *)
Record wf_parts (p : SplitResult) : Prop := mkWfParts {
  wf_scheme : Core.is_http_scheme (scheme p) = true;
  wf_nl : wf_netloc (netloc p);
  wf_path : forallb path_char (path p) = true;
  wf_rooted : path_rooted (path p);
  wf_query : forallb query_char (query p) = true;
  wf_fragment : forallb clean (fragment p) = true
}.

Lemma urlunsplit_shape (p : SplitResult) :
  Core.is_http_scheme (scheme p) = true ->
  is_empty (netloc p) = false ->
  path_rooted (path p) ->
  urlunsplit p
  = scheme p +:+ "://" +:+ netloc p +:+ path p +:+ tail_of (query p) (fragment p).
Proof.
  intros Hs Hn Hp.
  assert (He : is_empty (scheme p) = false).
  { destruct (http_scheme_cases _ Hs) as [-> | ->]; reflexivity. }
  assert (Hhead : (if negb (is_empty (path p)) && negb (startswith "/" (path p))
                   then "/" +:+ path p else path p) = path p).
  { destruct Hp as [-> | ->]; [reflexivity|]. now rewrite andb_false_r. }
  unfold urlunsplit, tail_of. cbv zeta. rewrite Hn, He, Hhead. cbn [negb orb].
  destruct (is_empty (query p)), (is_empty (fragment p));
    rewrite ?append_assoc, ?append_nil_r; reflexivity.
Qed.

Lemma path_char_lacks_qmark (s : string) : forallb path_char s = true -> lacks qmark s = true.
Proof. apply forallb_impl. intros c. by_cases_on c. Qed.

Lemma path_char_lacks_hash (s : string) : forallb path_char s = true -> lacks hash s = true.
Proof. apply forallb_impl. intros c. by_cases_on c. Qed.

Lemma path_char_clean (s : string) : forallb path_char s = true -> forallb clean s = true.
Proof. apply forallb_impl. intros c. by_cases_on c. Qed.

Lemma query_char_lacks_hash (s : string) : forallb query_char s = true -> lacks hash s = true.
Proof. apply forallb_impl. intros c. by_cases_on c. Qed.

Lemma query_char_clean (s : string) : forallb query_char s = true -> forallb clean s = true.
Proof. apply forallb_impl. intros c. by_cases_on c. Qed.

Lemma split_rest_tail (pth qry frag : string) :
  forallb path_char pth = true ->
  forallb query_char qry = true ->
  split_rest (pth +:+ tail_of qry frag) = (pth, qry, frag).
Proof.
  intros Hp Hq. unfold tail_of.
  pose proof (path_char_lacks_qmark _ Hp) as Hpq.
  pose proof (path_char_lacks_hash _ Hp) as Hph.
  pose proof (query_char_lacks_hash _ Hq) as Hqh.
  assert (Hq1 : partition qmark (pth +:+ (if is_empty qry then "" else "?" +:+ qry))
                = (pth, negb (is_empty qry), qry)).
  { destruct qry as [|c qry]; simpl.
    - rewrite append_nil_r. now apply partition_none.
    - now apply partition_found. }
  assert (Hh : lacks hash (pth +:+ (if is_empty qry then "" else "?" +:+ qry)) = true).
  { unfold lacks in *. rewrite forallb_app, Hph. destruct qry; [reflexivity|].
    simpl is_empty. cbv iota. simpl in Hqh |- *. exact Hqh. }
  destruct frag as [|c frag]; cbn [is_empty].
  - rewrite append_nil_r. unfold split_rest.
    rewrite (partition_none _ _ Hh), Hq1. reflexivity.
  - rewrite <- append_assoc. unfold split_rest.
    change ("#" +:+ String c frag) with (String hash (String c frag)).
    rewrite (partition_found _ _ _ Hh), Hq1. reflexivity.
Qed.

Lemma tail_of_clean (qry frag : string) :
  forallb clean qry = true -> forallb clean frag = true ->
  forallb clean (tail_of qry frag) = true.
Proof.
  intros Hq Hf. unfold tail_of. rewrite forallb_app.
  destruct qry, frag; simpl in *; rewrite ?Hq, ?Hf; reflexivity.
Qed.

Lemma startswith_slash_head (c : ascii) (s : string) :
  startswith "/" (String c s) = true -> is_slash c = true.
Proof.
  unfold startswith.
  destruct c as [[] [] [] [] [] [] [] []]; simpl; intros H;
    try reflexivity; discriminate H.
Qed.

Lemma rooted_tail_starts_with_delim (pth qry frag : string) :
  path_rooted pth -> starts_with_delim (pth +:+ tail_of qry frag).
Proof.
  intros [-> | H].
  - unfold tail_of. destruct qry as [|c q]; simpl.
    + destruct frag as [|c f]; [now left|]. right. now eexists _, _.
    + right. now eexists _, _.
  - destruct pth as [|c pth]; [discriminate|]. right. simpl.
    exists c, (pth +:+ tail_of qry frag). split; [reflexivity|].
    apply startswith_slash_head in H. unfold is_netloc_delim. now rewrite H.
Qed.

(** [urlsplit] undoes [urlunsplit]. *)
Lemma urlsplit_urlunsplit (p : SplitResult) : wf_parts p -> urlsplit (urlunsplit p) = Ok p.
Proof.
  intros [Hs Hn Hp Hr Hq Hf].
  rewrite (urlunsplit_shape p Hs (nl_nonempty _ Hn) Hr).
  rewrite (urlsplit_shape _ _ _ Hs Hn (rooted_tail_starts_with_delim _ _ _ Hr)).
  rewrite remove_fixed.
  - rewrite (split_rest_tail _ _ _ Hp Hq). now destruct p.
  - fold clean. change (forallb clean (path p +:+ tail_of (query p) (fragment p)) = true).
    rewrite forallb_app, (path_char_clean _ Hp). simpl.
    apply tail_of_clean; [now apply query_char_clean|exact Hf].
Qed.


Lemma forallb_and (f g : ascii -> bool) (s : string) :
  forallb (fun c => f c && g c) s = forallb f s && forallb g s.
Proof.
  induction s as [|c s IH]; [reflexivity|]. simpl. rewrite IH.
  destruct (f c), (g c), (forallb f s), (forallb g s); reflexivity.
Qed.

Lemma path_char_intro (s : string) :
  forallb clean s = true -> lacks qmark s = true -> lacks hash s = true ->
  forallb path_char s = true.
Proof.
  intros H1 H2 H3. unfold path_char. rewrite !forallb_and.
  unfold lacks in *. now rewrite H1, H2, H3.
Qed.

Lemma query_char_intro (s : string) :
  forallb clean s = true -> lacks hash s = true -> forallb query_char s = true.
Proof.
  intros H1 H2. unfold query_char. rewrite !forallb_and.
  unfold lacks in *. now rewrite H1, H2.
Qed.

Definition opt (found : bool) (sep rest : string) : string :=
  if found then sep +:+ rest else "".

(** How [urlsplit] cuts a string that has a netloc. *)
Lemma urlsplit_inv (s : string) (p : SplitResult) :
  urlsplit s = Ok p ->
  is_empty (netloc p) = false ->
  let s1 := remove is_unsafe (lstrip is_c0_or_space s) in
  exists s2 s3 found_q found_f,
    (s2 = s1 \/ exists pre, s1 = pre +:+ ":" +:+ s2)
    /\ s2 = "//" +:+ netloc p +:+ s3
    /\ forallb delim_free (netloc p) = true
    /\ starts_with_delim s3
    /\ netloc_invalid (netloc p) = false
    /\ s3 = (path p +:+ opt found_q "?" (query p)) +:+ opt found_f "#" (fragment p)
    /\ lacks hash (path p +:+ opt found_q "?" (query p)) = true
    /\ lacks qmark (path p) = true
    /\ (found_f = false -> fragment p = "")
    /\ (found_q = false -> query p = "").
Proof.
  intros Hu Hn s1. unfold urlsplit in Hu. fold s1 in Hu.
  destruct (split_scheme s1) as [sch s2] eqn:Hsch.
  destruct (split_netloc s2) as [nl s3] eqn:Hnl.
  destruct (netloc_invalid nl) eqn:Hinv; [discriminate|].
  pose proof (partition_spec hash s3) as Hh.
  destruct (partition hash s3) as [[a found_f] frag].
  pose proof (partition_spec qmark a) as Hq.
  destruct (partition qmark a) as [[pth found_q] qry].
  injection Hu as <-. simpl in *.
  destruct Hh as (Hh1 & Hh2 & Hh3). destruct Hq as (Hq1 & Hq2 & Hq3).
  exists s2, s3, found_q, found_f.
  assert (Hsuffix : s2 = s1 \/ exists pre, s1 = pre +:+ ":" +:+ s2).
  { unfold split_scheme in Hsch.
    pose proof (partition_spec colon s1) as Hc.
    destruct (partition colon s1) as [[pre found] rest].
    destruct Hc as (_ & Hc & _).
    destruct pre as [|c0 pre]; [injection Hsch as _ <-; now left|].
    destruct found; [|injection Hsch as _ <-; now left].
    destruct (is_alpha c0 && forallb is_scheme_char pre);
      injection Hsch as _ <-; [|now left].
    right. exists (String c0 pre). exact Hc. }
  assert (Hcut : s2 = "//" +:+ nl +:+ s3
                 /\ forallb delim_free nl = true /\ starts_with_delim s3).
  { unfold split_netloc in Hnl.
    destruct s2 as [|x [|y rest]];
      try (injection Hnl as <- _; discriminate).
    destruct (is_slash x && is_slash y) eqn:Hxy;
      [|injection Hnl as <- _; discriminate].
    apply andb_true_iff in Hxy as [Hx Hy].
    apply Ascii.eqb_eq in Hx, Hy. subst x y.
    destruct (break_spec is_netloc_delim rest) as (B1 & B2 & B3).
    rewrite Hnl in B1, B2, B3. simpl in B1, B2, B3.
    split; [now rewrite B1 at 1|]. split; [exact B2|exact B3]. }
  destruct Hcut as (Hcut1 & Hcut2 & Hcut3).
  split; [exact Hsuffix|]. split; [exact Hcut1|]. split; [exact Hcut2|].
  split; [exact Hcut3|]. split; [exact Hinv|].
  unfold opt.
  change ("?" +:+ qry) with (String qmark qry).
  change ("#" +:+ frag) with (String hash frag).
  split; [now rewrite <- Hq2|]. split; [now rewrite <- Hq2|].
  split; [exact Hq1|]. split; [exact Hh3|exact Hq3].
Qed.


Lemma opt_clean (found : bool) (sep rest : string) :
  forallb clean (opt found sep rest) = true ->
  (found = false -> rest = "") ->
  forallb clean rest = true.
Proof.
  unfold opt. destruct found.
  - rewrite forallb_app. now intros H%andb_true_iff.
  - intros _ ->; reflexivity.
Qed.

(** The parts [urlsplit] gives for an http(s) URL with a netloc are
    well formed. *)
Lemma urlsplit_wf (s : string) (p : SplitResult) :
  urlsplit s = Ok p ->
  Core.is_http_scheme (scheme p) = true ->
  is_empty (netloc p) = false ->
  wf_parts p.
Proof.
  intros Hu Hs Hn.
  destruct (urlsplit_inv s p Hu Hn)
    as (s2 & s3 & fq & ff & Hsuf & Hs2 & Hdf & Hs3 & Hinv & Hcut & Hlh & Hlq & Hff & Hfq).
  assert (C1 : forallb clean (remove is_unsafe (lstrip is_c0_or_space s)) = true)
    by apply remove_clean.
  assert (C2 : forallb clean s2 = true).
  { destruct Hsuf as [-> | (pre & Hpre)]; [exact C1|].
    rewrite Hpre, !forallb_app in C1.
    apply andb_true_iff in C1 as [_ C1]. now apply andb_true_iff in C1 as [_ C1]. }
  rewrite Hs2 in C2. simpl in C2. rewrite forallb_app in C2.
  apply andb_true_iff in C2 as [Cn C3].
  rewrite Hcut, !forallb_app in C3.
  apply andb_true_iff in C3 as [C3 Cf]. apply andb_true_iff in C3 as [Cp Cq].
  pose proof Hlh as Hlh'. unfold lacks in Hlh'. rewrite forallb_app in Hlh'.
  apply andb_true_iff in Hlh' as [Hph Hqh].
  constructor.
  - exact Hs.
  - constructor; assumption.
  - now apply path_char_intro.
  - destruct Hs3 as [E | (c & t & E & Hc)].
    + rewrite E in Hcut. left.
      destruct (path p); [reflexivity|discriminate].
    + destruct (path p) as [|x pth] eqn:Hp; [now left|]. right.
      rewrite E in Hcut. simpl in Hcut. injection Hcut as -> _.
      simpl in Hph, Hlq. apply andb_true_iff in Hph as [Hph _].
      apply andb_true_iff in Hlq as [Hlq _].
      revert Hc Hph Hlq. unfold startswith.
      destruct x as [[] [] [] [] [] [] [] []]; simpl; intros; try discriminate.
      now destruct pth.
  - apply query_char_intro.
    + exact (opt_clean fq "?" (query p) Cq Hfq).
    + unfold opt in Hqh. destruct fq; [|now rewrite Hfq].
      simpl in Hqh. exact Hqh.
  - exact (opt_clean ff "#" (fragment p) Cf Hff).
Qed.

Definition has_tail (p : SplitResult) : Prop :=
  is_empty (query p) = false \/ is_empty (fragment p) = false.

Lemma is_empty_app (a b : string) : is_empty (a +:+ b) = is_empty a && is_empty b.
Proof. now destruct a. Qed.

Lemma last_app_r (a b : string) : is_empty b = false -> last (a +:+ b) = last b.
Proof. intros H. rewrite last_app. now destruct b. Qed.

Lemma endswith_last (c : ascii) (s : string) :
  endswith c s = true <-> last s = Some c.
Proof.
  unfold endswith. destruct (last s) as [a|]; split; try discriminate.
  - now intros ->%Ascii.eqb_eq.
  - intros [= ->]. apply Ascii.eqb_refl.
Qed.

(** A URL string that ends with a slash while its path does not has a query
    or a fragment: the slash is theirs. *)
Lemma trailing_slash_has_tail (s : string) (p : SplitResult) :
  urlsplit s = Ok p ->
  is_empty (netloc p) = false ->
  endswith slash s = true ->
  endswith slash (path p) = false ->
  has_tail p.
Proof.
  intros Hu Hn Hend Hpath.
  destruct (urlsplit_inv s p Hu Hn)
    as (s2 & s3 & fq & ff & Hsuf & Hs2 & Hdf & Hs3 & Hinv & Hcut & Hlh & Hlq & Hff & Hfq).
  apply endswith_last in Hend.
  assert (L1 : last (remove is_unsafe (lstrip is_c0_or_space s)) = Some slash).
  { apply remove_last; [|reflexivity]. now apply lstrip_last. }
  assert (L2 : last s2 = Some slash).
  { destruct Hsuf as [-> | (pre & Hpre)]; [exact L1|].
    rewrite Hpre, last_app_r in L1 by reflexivity.
    rewrite last_app_r in L1; [exact L1|]. now rewrite Hs2. }
  assert (L3 : last s3 = Some slash /\ is_empty s3 = false).
  { rewrite Hs2 in L2. rewrite last_app_r in L2 by now rewrite is_empty_app, Hn.
    destruct (is_empty s3) eqn:E3.
    - exfalso. destruct s3; [|discriminate]. rewrite append_nil_r in L2.
      pose proof (last_forallb _ _ _ Hdf L2) as Hbad. discriminate Hbad.
    - split; [|reflexivity]. now rewrite last_app_r in L2. }
  destruct L3 as [L3 Hne3].
  rewrite Hcut in L3. unfold opt in *.
  destruct ff.
  - right. rewrite last_app_r in L3 by reflexivity.
    destruct (fragment p); [discriminate|reflexivity].
  - rewrite append_nil_r in L3. destruct fq.
    + left. rewrite last_app_r in L3 by reflexivity.
      destruct (query p); [discriminate|reflexivity].
    + exfalso. rewrite append_nil_r in L3. apply endswith_last in L3. congruence.
Qed.

End UrlFacts.

(** ** Joins keep the URL well formed *)

Module JoinFacts.
Import Str StrFacts Urllib UrlFacts Core.

(** The path after a join, as the specification words it: the path without
    its trailing slashes, one slash, the segment without its leading slashes
    and percent-encoded. *)
Definition join_path (pth segment : string) : string :=
  rstrip is_slash pth +:+ "/" +:+ quote (lstrip is_slash segment).

Lemma new_path_is_join_path (pth segment : string) :
  (if negb (is_empty pth)
   then rstrip is_slash pth +:+ "/" +:+ quote (lstrip is_slash segment)
   else "/" +:+ quote (lstrip is_slash segment))
  = join_path pth segment.
Proof. now destruct pth. Qed.

Lemma join_path_chars (pth segment : string) :
  forallb path_char pth = true -> forallb path_char (join_path pth segment) = true.
Proof.
  intros H. unfold join_path. rewrite !forallb_app.
  rewrite (rstrip_forallb _ _ _ H). simpl.
  exact (forallb_impl _ _ _ quoted_is_path_char (quote_quoted _)).
Qed.

Lemma rstrip_keeps_head (f : ascii -> bool) (c : ascii) (s : string) :
  rstrip f (String c s) = EmptyString \/ exists r, rstrip f (String c s) = String c r.
Proof. simpl. destruct (f c && _); [now left|]. right. now eexists. Qed.

Lemma startswith_slash_cons (s : string) : startswith "/" (String slash s) = true.
Proof. now destruct s. Qed.

Lemma join_path_rooted (pth segment : string) :
  path_rooted pth -> startswith "/" (join_path pth segment) = true.
Proof.
  unfold join_path. intros [-> | H]; [apply startswith_slash_cons|].
  destruct pth as [|c pth]; [discriminate|].
  apply startswith_slash_head in H. apply Ascii.eqb_eq in H. subst c.
  destruct (rstrip_keeps_head is_slash slash pth) as [-> | (r & ->)];
    apply startswith_slash_cons.
Qed.

Lemma join_path_last (pth segment : string) :
  exists c, last (join_path pth segment) = Some c /\ is_space c = false.
Proof.
  unfold join_path. rewrite last_app_r by reflexivity.
  destruct (is_empty (quote (lstrip is_slash segment))) eqn:E.
  - destruct (quote _); [|discriminate]. now exists slash.
  - rewrite last_app_r by exact E.
    destruct (last_nonempty _ E) as [c Hc]. exists c. split; [exact Hc|].
    apply quoted_not_space. exact (last_forallb _ _ _ (quote_quoted _) Hc).
Qed.

Lemma with_path_wf (p : SplitResult) (pth : string) :
  wf_parts p -> forallb path_char pth = true -> path_rooted pth ->
  wf_parts (with_path p pth).
Proof. intros [] H1 H2. now constructor. Qed.

(** The parts of a URL after a slash is appended to its text, when it has a
    query or a fragment. *)
Definition add_slash (p : SplitResult) : SplitResult :=
  if is_empty (fragment p)
  then mkSplit (scheme p) (netloc p) (path p) (query p +:+ "/") ""
  else mkSplit (scheme p) (netloc p) (path p) (query p) (fragment p +:+ "/").

Lemma add_slash_wf (p : SplitResult) : wf_parts p -> wf_parts (add_slash p).
Proof.
  intros [H1 H2 H3 H4 H5 H6]. unfold add_slash.
  destruct (is_empty (fragment p)); constructor; simpl; try assumption.
  - now rewrite forallb_app, H5.
  - reflexivity.
  - now rewrite forallb_app, H6.
Qed.

Lemma add_slash_tail (p : SplitResult) :
  has_tail p ->
  tail_of (query p) (fragment p) +:+ "/"
  = tail_of (query (add_slash p)) (fragment (add_slash p)).
Proof.
  unfold has_tail, add_slash, tail_of. intros H.
  destruct (fragment p) as [|c f]; simpl.
  - destruct (query p) as [|d q]; [now destruct H|]. simpl.
    now rewrite !append_nil_r.
  - destruct (query p) as [|d q]; simpl; now rewrite ?append_assoc.
Qed.

Lemma add_slash_unsplit (p : SplitResult) :
  wf_parts p -> has_tail p -> urlunsplit p +:+ "/" = urlunsplit (add_slash p).
Proof.
  intros Hwf Ht. pose proof (add_slash_wf p Hwf) as Hwf'.
  destruct Hwf as [H1 H2 H3 H4 H5 H6]. destruct Hwf' as [G1 G2 G3 G4 G5 G6].
  rewrite (urlunsplit_shape p H1 (nl_nonempty _ H2) H4).
  rewrite (urlunsplit_shape _ G1 (nl_nonempty _ G2) G4).
  rewrite <- (add_slash_tail p Ht), !append_assoc.
  unfold add_slash. destruct (is_empty (fragment p)); reflexivity.
Qed.

Lemma add_slash_has_tail (p : SplitResult) : has_tail (add_slash p).
Proof.
  unfold has_tail, add_slash. destruct (fragment p) as [|c f] eqn:E; simpl.
  - left. now destruct (query p).
  - now right.
Qed.


Lemma http_url_head (sch rest : string) :
  Core.is_http_scheme sch = true ->
  lstrip is_space (sch +:+ rest) = sch +:+ rest
  /\ is_empty (sch +:+ rest) = false.
Proof. intros H. destruct (http_scheme_cases sch H) as [-> | ->]; now split. Qed.

(** [WebPath.__init__] accepts the URL that [urlunsplit] renders from
    well-formed parts whose path ends with a character that is no space, and
    it sets the trailing-slash flag only when there is a query or a
    fragment. *)
Lemma init_of_unsplit (p : SplitResult) (c : ascii) :
  wf_parts p ->
  last (path p) = Some c -> is_space c = false ->
  exists fresh,
    init (urlunsplit p) = Ok fresh
    /\ (_trailing_slash fresh = true -> has_tail p).
Proof.
  intros [H1 H2 H3 H4 H5 H6] Hlast Hc.
  pose proof (nl_nonempty _ H2) as Hn.
  assert (Hpne : is_empty (path p) = false) by (destruct (path p); [discriminate|reflexivity]).
  set (tl := tail_of (query p) (fragment p)).
  assert (Hstrip : strip (urlunsplit p)
                   = scheme p +:+ "://" +:+ netloc p +:+ path p +:+ rstrip is_space tl).
  { rewrite (urlunsplit_shape p H1 Hn H4). fold tl. unfold strip.
    rewrite (proj1 (http_url_head _ _ H1)).
    rewrite <- !append_assoc.
    rewrite (rstrip_app_keep is_space _ tl c); [reflexivity| |exact Hc].
    rewrite !append_assoc, !last_app_r; try exact Hlast; try exact Hpne.
    - now rewrite is_empty_app, Hn.
    - reflexivity. }
  assert (Hdelim : starts_with_delim (path p +:+ rstrip is_space tl)).
  { destruct H4 as [E | E]; [rewrite E in Hpne; discriminate|].
    destruct (path p) as [|x pth]; [discriminate|]. right.
    exists x, (pth +:+ rstrip is_space tl). split; [reflexivity|].
    apply startswith_slash_head in E. unfold is_netloc_delim. now rewrite E. }
  pose proof (urlsplit_shape _ _ _ H1 H2 Hdelim) as Hsplit.
  destruct (split_rest (remove is_unsafe (path p +:+ rstrip is_space tl)))
    as [[pth3 q3] f3] eqn:Hrest.
  unfold init. rewrite Hstrip, (proj2 (http_url_head _ _ H1)), Hsplit. simpl.
  assert (He : is_empty (scheme p) = false).
  { destruct (http_scheme_cases _ H1) as [-> | ->]; reflexivity. }
  rewrite He, H1, Hn. simpl. eexists. split; [reflexivity|]. simpl.
  intros Hflag. unfold has_tail.
  destruct (is_empty (query p)) eqn:Eq; [|now left].
  destruct (is_empty (fragment p)) eqn:Ef; [|now right].
  exfalso.
  assert (Htl : tl = "").
  { subst tl. unfold tail_of. now rewrite Eq, Ef. }
  rewrite Htl in Hrest, Hflag. simpl rstrip in Hrest, Hflag.
  rewrite append_nil_r in Hrest, Hflag.
  rewrite remove_fixed in Hrest by (exact (path_char_clean _ H3)).
  rewrite <- (append_nil_r (path p)) in Hrest at 1.
  change "" with (tail_of "" "") in Hrest at 1.
  rewrite split_rest_tail in Hrest by (exact H3 || reflexivity).
  injection Hrest as <- _ _.
  assert (Hend : endswith slash (scheme p +:+ "://" +:+ netloc p +:+ path p)
                 = endswith slash (path p)).
  { rewrite <- !append_assoc. apply endswith_app, Hpne. }
  simpl in Hend. rewrite Hend in Hflag.
  now destruct (endswith slash (path p)).
Qed.

(** What every URL object built by the constructor and by joins satisfies. *)
Record good (u : WebPath) : Prop := mkGood {
  good_parts : wf_parts (_parts u);
  good_flag : _trailing_slash u = true -> has_tail (_parts u);
  good_init : exists fresh, init (_url u) = Ok fresh
                            /\ (_trailing_slash fresh = true -> has_tail (_parts u))
}.

Lemma init_strip (base : string) : init (strip base) = init base.
Proof. unfold init. now rewrite strip_idem. Qed.

Lemma init_good (base : string) (u : WebPath) : init base = Ok u -> good u.
Proof.
  intros Hi.
  destruct (init_fresh base u Hi) as (Hu & Hp & Hs & Hn & Hf & _).
  assert (Hflag : _trailing_slash u = true -> has_tail (_parts u)).
  { rewrite Hf. intros H%andb_true_iff. destruct H as [Hend Hpath].
    apply negb_true_iff in Hpath.
    exact (trailing_slash_has_tail _ _ Hp Hn Hend Hpath). }
  constructor.
  - exact (urlsplit_wf _ _ Hp Hs Hn).
  - exact Hflag.
  - exists u. split; [|exact Hflag]. now rewrite Hu, init_strip.
Qed.

(** [_replace(path=...)] on a good object, for a rooted path of path
    characters that ends with a character that is no space. *)
Lemma replace_path_good (u : WebPath) (pth : string) (c : ascii) :
  good u ->
  forallb path_char pth = true -> path_rooted pth ->
  last pth = Some c -> is_space c = false ->
  exists u', _replace_path u pth = Ok u' /\ good u' /\ path (_parts u') = pth.
Proof.
  intros [Hwf Hflag (fresh & Hinit & Hfresh)] Hchars Hroot Hlast Hc.
  pose proof (with_path_wf _ _ Hwf Hchars Hroot) as Hwf1.
  set (parts1 := with_path (_parts u) pth) in *.
  assert (Htail1 : has_tail (_parts u) -> has_tail parts1) by (intros H; exact H).
  set (parts2 := if _trailing_slash u && negb (endswith slash (urlunsplit parts1))
                 then add_slash parts1 else parts1).
  assert (Hurl : (if _trailing_slash u && negb (endswith slash (urlunsplit parts1))
                  then urlunsplit parts1 +:+ "/" else urlunsplit parts1)
                 = urlunsplit parts2).
  { subst parts2. destruct (_trailing_slash u) eqn:Ef; [|reflexivity]. simpl.
    destruct (endswith slash (urlunsplit parts1)); [reflexivity|]. simpl.
    apply add_slash_unsplit; [exact Hwf1|]. now apply Htail1, Hflag. }
  assert (Hwf2 : wf_parts parts2).
  { subst parts2. destruct (_ && _); [now apply add_slash_wf|exact Hwf1]. }
  assert (Hpath2 : path parts2 = pth).
  { subst parts2. destruct (_ && _); [|reflexivity].
    unfold add_slash. now destruct (is_empty (fragment parts1)). }
  assert (Htail2 : has_tail (_parts u) -> has_tail parts2).
  { subst parts2. destruct (_ && _); [intros _; apply add_slash_has_tail|exact Htail1]. }
  unfold _replace_path. fold parts1. cbv zeta. rewrite Hurl.
  rewrite (urlsplit_urlunsplit _ Hwf2). unfold _clone. rewrite Hinit.
  eexists. split; [reflexivity|]. split; [|exact Hpath2].
  constructor; simpl.
  - exact Hwf2.
  - intros H. now apply Htail2, Hfresh.
  - apply (init_of_unsplit parts2 c Hwf2); [now rewrite Hpath2|exact Hc].
Qed.

(** One join on a good object. *)
Lemma truediv_good (u : WebPath) (segment : string) :
  good u ->
  exists u', truediv u segment = Ok u'
             /\ good u'
             /\ path (_parts u') = join_path (path (_parts u)) segment.
Proof.
  intros Hg. unfold truediv. rewrite new_path_is_join_path.
  destruct (join_path_last (path (_parts u)) segment) as (c & Hlast & Hc).
  apply (replace_path_good u _ c Hg).
  - apply join_path_chars, (wf_path _ (good_parts _ Hg)).
  - right. apply join_path_rooted, (wf_rooted _ (good_parts _ Hg)).
  - exact Hlast.
  - exact Hc.
Qed.

Lemma joins_good (segments : list string) (u : WebPath) :
  good u ->
  exists u', joins u segments = Ok u'
             /\ good u'
             /\ path (_parts u') = fold_left join_path segments (path (_parts u)).
Proof.
  revert u. induction segments as [|segment rest IH]; intros u Hg.
  - now exists u.
  - destruct (truediv_good u segment Hg) as (next & Hdiv & Hnext & Hpath).
    destruct (IH next Hnext) as (u' & Hjoins & Hgood & Hfinal).
    exists u'. simpl. rewrite Hdiv. split; [exact Hjoins|]. split; [exact Hgood|].
    now rewrite Hfinal, Hpath.
Qed.

Lemma join_path_ignores_trailing_slash (pth segment : string) :
  join_path (pth +:+ "/") segment = join_path pth segment.
Proof.
  unfold join_path.
  change (pth +:+ "/") with (pth +:+ String slash EmptyString).
  now rewrite (rstrip_app_dropped is_slash pth slash).
Qed.

Lemma rstrip_no_trailing (f : ascii -> bool) (s : string) (c : ascii) :
  f c = true -> endswith c (rstrip f s) = false.
Proof.
  intros Hc. destruct (endswith c (rstrip f s)) eqn:E; [|reflexivity].
  apply endswith_last, rstrip_last in E. congruence.
Qed.

Lemma quote_lstrip_head (segment : string) :
  startswith "/" (quote (lstrip is_slash segment)) = false.
Proof.
  destruct (lstrip_shape is_slash segment) as [-> | (c & s' & -> & Hc)]; [reflexivity|].
  revert Hc. unfold startswith.
  destruct c as [[] [] [] [] [] [] [] []]; simpl; intros Hc;
    try reflexivity; discriminate Hc.
Qed.

(** *** Double slashes *)

(** Whether the first character is a slash. *)
Definition starts_slash (s : string) : bool :=
  match s with
  | String c _ => is_slash c
  | EmptyString => false
  end.

(** No two slashes in a row. *)
Fixpoint single_slashes (s : string) : bool :=
  match s with
  | EmptyString => true
  | String c s' => negb (is_slash c && starts_slash s') && single_slashes s'
  end.

Lemma prefix_cons (a b : ascii) (p s : string) :
  String.prefix (String a p) (String b s) = Ascii.eqb a b && String.prefix p s.
Proof.
  change (String.prefix (String a p) (String b s))
    with (if ascii_dec a b then String.prefix p s else false).
  destruct (ascii_dec a b) as [->|Hne].
  - now rewrite Ascii.eqb_refl.
  - now rewrite (proj2 (Ascii.eqb_neq a b) Hne).
Qed.

(** [single_slashes] decides ["//" not in s]. *)
Lemma infixb_double_slash (s : string) : infixb "//" s = negb (single_slashes s).
Proof.
  induction s as [|c s IH]; [reflexivity|].
  change (infixb "//" (String c s)) with (String.prefix "//" (String c s) || infixb "//" s).
  rewrite IH. simpl single_slashes.
  replace (String.prefix "//" (String c s)) with (is_slash c && starts_slash s).
  - now destruct (is_slash c), (starts_slash s), (single_slashes s).
  - rewrite prefix_cons.
    replace (Ascii.eqb "/" c) with (is_slash c) by apply Ascii.eqb_sym.
    destruct s as [|b s]; [now destruct (is_slash c)|].
    rewrite prefix_cons.
    replace (Ascii.eqb "/" b) with (is_slash b) by apply Ascii.eqb_sym.
    simpl starts_slash. now destruct s; rewrite andb_true_r.
Qed.

Lemma single_slashes_app (a b : string) :
  single_slashes (a +:+ b)
  = single_slashes a && single_slashes b && negb (endswith slash a && starts_slash b).
Proof.
  induction a as [|x a IH]; [simpl; now rewrite andb_true_r|].
  change (single_slashes (String x a +:+ b))
    with (negb (is_slash x && starts_slash (a +:+ b)) && single_slashes (a +:+ b)).
  rewrite IH. destruct a as [|y a].
  - unfold endswith. simpl. fold (is_slash x).
    destruct (is_slash x), (starts_slash b), (single_slashes b); reflexivity.
  - change (endswith slash (String x (String y a))) with (endswith slash (String y a)).
    simpl. destruct (is_slash x), (is_slash y), (single_slashes (String y a)),
      (single_slashes b), (endswith slash (String y a)), (starts_slash b); reflexivity.
Qed.

Lemma starts_slash_quote (s : string) : starts_slash (quote s) = starts_slash s.
Proof. destruct s as [|c s]; [reflexivity|]. by_cases_on c. Qed.

Lemma quote_char_slashes (c : ascii) :
  single_slashes (quote_char c) = true /\ endswith slash (quote_char c) = is_slash c.
Proof. by_cases_on c; split; reflexivity. Qed.

(** [quote] neither adds nor removes a double slash. *)
Lemma single_slashes_quote (s : string) : single_slashes (quote s) = single_slashes s.
Proof.
  induction s as [|c s IH]; [reflexivity|].
  change (quote (String c s)) with (quote_char c +:+ quote s).
  rewrite single_slashes_app, IH, starts_slash_quote.
  destruct (quote_char_slashes c) as [-> ->]. simpl single_slashes.
  now destruct (is_slash c), (starts_slash s), (single_slashes s).
Qed.

Lemma starts_slash_lstrip (s : string) : starts_slash (lstrip is_slash s) = false.
Proof.
  destruct (lstrip_shape is_slash s) as [-> | (c & s' & -> & Hc)]; [reflexivity|exact Hc].
Qed.

(** The path after a join holds a double slash exactly when the path joined
    to, without its trailing slashes, or the segment, without its leading
    ones, holds one. *)
Lemma join_path_double_slash (pth segment : string) :
  infixb "//" (join_path pth segment)
  = infixb "//" (rstrip is_slash pth) || infixb "//" (lstrip is_slash segment).
Proof.
  rewrite !infixb_double_slash. unfold join_path.
  rewrite single_slashes_app.
  change ("/" +:+ quote (lstrip is_slash segment))
    with (String slash (quote (lstrip is_slash segment))).
  simpl single_slashes. simpl starts_slash.
  rewrite starts_slash_quote, starts_slash_lstrip, single_slashes_quote.
  rewrite (rstrip_no_trailing is_slash pth slash eq_refl).
  change (is_slash slash) with true.
  now destruct (single_slashes (rstrip is_slash pth)),
    (single_slashes (lstrip is_slash segment)).
Qed.

Lemma starts_slash_rstrip (s : string) :
  starts_slash (rstrip is_slash s) = true -> starts_slash s = true.
Proof.
  destruct s as [|c s]; [discriminate|]. simpl.
  now destruct (is_slash c && is_empty (rstrip is_slash s)).
Qed.

Lemma single_slashes_rstrip (s : string) :
  single_slashes s = true -> single_slashes (rstrip is_slash s) = true.
Proof.
  induction s as [|c s IH]; [reflexivity|]. simpl.
  intros H%andb_true_iff. destruct H as [Hc Hs].
  destruct (is_slash c && is_empty (rstrip is_slash s)); [reflexivity|].
  simpl. rewrite (IH Hs), andb_true_r.
  destruct (is_slash c); [|reflexivity]. simpl in *.
  destruct (starts_slash (rstrip is_slash s)) eqn:E; [|reflexivity].
  now rewrite (starts_slash_rstrip s E) in Hc.
Qed.

(** Joins of segments free of double slashes to a path free of them give a
    path free of them. *)
Lemma fold_join_path_single (segments : list string) (pth : string) :
  infixb "//" pth = false ->
  Forall (fun segment => infixb "//" (lstrip is_slash segment) = false) segments ->
  infixb "//" (fold_left join_path segments pth) = false.
Proof.
  intros Hp Hs. revert pth Hp.
  induction Hs as [|segment segments Hseg _ IH]; intros pth Hp; [exact Hp|].
  simpl. apply IH. rewrite join_path_double_slash, Hseg, orb_false_r.
  rewrite infixb_double_slash in *. apply negb_false_iff.
  apply single_slashes_rstrip. now apply negb_false_iff.
Qed.

(** C9.  For every base URL the constructor accepts and every sequence of
    segments, the joins succeed and the path of the result is the path of
    the base extended, segment by segment, by one slash and the
    percent-encoded segment: trailing slashes of the path and leading slashes
    of the segment do not count, so exactly one slash separates the two, and
    a path that ends with a slash gives the same result as one that does
    not; the encoded segment holds only unreserved characters, slashes and
    percent escapes.  Slashes inside the path and inside a segment stay as
    they are: the path after a join holds a double slash exactly when the
    path joined to, without its trailing slashes, or the segment, without
    its leading ones, holds one; so the result is free of double slashes when
    the path of the base and the segments are. *)
Theorem joins_append_encoded_segments
    (base : string) (u : WebPath) (segments : list string) :
  init base = Ok u ->
  (exists u', joins u segments = Ok u'
              /\ path (_parts u') = fold_left join_path segments (path (_parts u))
              /\ (infixb "//" (path (_parts u)) = false ->
                  Forall (fun segment => infixb "//" (lstrip is_slash segment) = false)
                         segments ->
                  infixb "//" (path (_parts u')) = false))
  /\ (forall pth segment,
        join_path (pth +:+ "/") segment = join_path pth segment
        /\ endswith slash (rstrip is_slash pth) = false
        /\ startswith "/" (quote (lstrip is_slash segment)) = false
        /\ forallb quoted_char (quote (lstrip is_slash segment)) = true
        /\ infixb "//" (join_path pth segment)
           = infixb "//" (rstrip is_slash pth) || infixb "//" (lstrip is_slash segment)).
Proof.
  intros Hi. split.
  - destruct (joins_good segments u (init_good base u Hi)) as (u' & Hj & _ & Hp).
    exists u'. split; [exact Hj|]. split; [exact Hp|].
    intros Hb Hs. rewrite Hp. now apply fold_join_path_single.
  - intros pth segment. split; [apply join_path_ignores_trailing_slash|].
    split; [now apply rstrip_no_trailing|].
    split; [apply quote_lstrip_head|]. split; [apply quote_quoted|].
    apply join_path_double_slash.
Qed.

End JoinFacts.

(** ** Python values *)

(** What [json.loads] returns. *)
#[local] Unset Elimination Schemes.
Inductive json : Type :=
| JNull
| JBool (b : bool)
| JInt (z : Z)
| JFloat (f : spec_float)
| JStr (s : string)
| JList (l : list json)
| JDict (d : list (string * json)).
#[local] Set Elimination Schemes.

(** The values the navigator handles: parsed JSON, and the instances of
    [object] that [has_path] allocates ([Obj n] is the [n]-th one). *)
Inductive value : Type :=
| J (j : json)
| Obj (id : nat).

Module Py.
Import Str.

(** [bool(v)]. *)
Definition truthy (j : json) : bool :=
  match j with
  | JNull => false
  | JBool b => b
  | JInt z => negb (z =? 0)
  | JFloat (S754_zero _) => false
  | JFloat _ => true
  | JStr s => negb (is_empty s)
  | JList l => match l with [] => false | _ => true end
  | JDict d => match d with [] => false | _ => true end
  end.

Definition truthy_value (v : value) : bool :=
  match v with
  | J j => truthy j
  | Obj _ => true
  end.

Definition is_list (j : json) : bool :=
  match j with JList _ => true | _ => false end.

(** [key in d] and [d[key]] for a dict given by its items. *)
Fixpoint dict_get (d : list (string * json)) (key : string) : option json :=
  match d with
  | [] => None
  | (k, v) :: d' => if String.eqb k key then Some v else dict_get d' key
  end.

(** [s.split(c)]. *)
Fixpoint split_on (c : ascii) (s : string) : list string :=
  match s with
  | EmptyString => [EmptyString]
  | String a s' =>
      match split_on c s' with
      | first :: more =>
          if Ascii.eqb a c then EmptyString :: first :: more
          else String a first :: more
      | [] => []
      end
  end.

(** [l[idx]]: a negative index counts from the end; [None] is [IndexError]. *)
Definition list_get (l : list json) (idx : Z) : option json :=
  let n := Z.of_nat (length l) in
  let i := if idx <? 0 then idx + n else idx in
  if (0 <=? i) && (i <? n) then nth_error l (Z.to_nat i) else None.

(** [v is o] for an instance [o] of [object]: a parsed value is never one. *)
Definition is_ (v : value) (o : nat) : bool :=
  match v with
  | Obj id => Nat.eqb id o
  | J _ => false
  end.

(** [object()]: the heap is the number of objects allocated so far. *)
Definition new_object (heap : nat) : nat * nat := (heap, S heap).

(** Decimal digits with single underscores between them, most significant
    first. *)
Fixpoint digits (s : string) (acc : Z) (after_digit : bool) : option Z :=
  match s with
  | EmptyString => if after_digit then Some acc else None
  | String c s' =>
      if is_digit c then digits s' (10 * acc + Z.of_nat (code c - 48)) true
      else if Ascii.eqb c (ch 95) && after_digit
      then match s' with
           | String d _ => if is_digit d then digits s' acc false else None
           | EmptyString => None
           end
      else None
  end.

(** [int(s)] for a string in base 10; [None] is [ValueError]. *)
Definition int_of_string (s : string) : option Z :=
  match strip s with
  | String c s' =>
      if Ascii.eqb c (ch 45) then option_map Z.opp (digits s' 0 false)
      else if Ascii.eqb c (ch 43) then digits s' 0 false
      else digits (String c s') 0 false
  | EmptyString => None
  end.

End Py.

(** ** The request executor and the response navigator ([webpath/_http.py]) *)

Module Http.
Import Str Py.

(** One element of a streamed body: a block of bytes, or the exception the
    iterator (or the write that follows it) raises at that point. *)
Inductive chunk : Type :=
| Block (bytes : string)
| Fault (e : exn).

(** A [requests.Response]. *)
Record Response : Type := mkResponse {
  resp_status : Z;
  resp_headers : list (string * string);
  resp_text : string;
  resp_url : string;
  resp_stream : list chunk
}.

(** What a [WebResponse] wraps: a transport response or a [CachedResponse]. *)
Inductive raw_response : Type :=
| Live (r : Response)
| Cached (c : Cache.CacheEntry).

Definition status_code (r : raw_response) : Z :=
  match r with Live r => resp_status r | Cached c => Cache.status_code c end.

Definition headers (r : raw_response) : list (string * string) :=
  match r with Live r => resp_headers r | Cached c => Cache.headers c end.

Definition text (r : raw_response) : string :=
  match r with Live r => resp_text r | Cached c => Cache.content c end.

Definition url (r : raw_response) : string :=
  match r with Live r => resp_url r | Cached c => Cache.url c end.

(** The [url] argument of [http_request]: a [WebPath] or a plain string. *)
Inductive target : Type :=
| TPath (p : Core.WebPath)
| TStr (s : string).

Definition url_str (t : target) : string :=
  match t with TPath p => Core._url p | TStr s => s end.

(** How the transport is reached: the caller's session, a one-off session
    with the retry adapter mounted, or the module-level function. *)
Inductive via : Type :=
| ViaSession (s : nat)
| ViaRetryAdapter (retries : Z) (backoff jitter : Q)
| ViaRequests.

(** The keyword arguments that [http_request] hands on to the transport. *)
Record kwargs : Type := mkKwargs {
  kw_timeout : option Q;
  kw_headers : list (string * string);
  kw_stream : bool
}.

Record net_call : Type := mkCall {
  nc_verb : string;
  nc_url : string;
  nc_via : via;
  nc_kw : kwargs
}.

(** What a run does to the outside, oldest event last. *)
Inductive event : Type :=
| ENet (c : net_call)
| ESleep (seconds : Q)
| ELog (verb url : string) (status : Z).

Record world : Type := mkWorld {
  clock : Q;
  trace : list event;
  cache : Cache.store
}.

(** A [WebResponse]: the wrapped response and the URL it came from. *)
Record WebResponse : Type := mkWebResponse {
  _response : raw_response;
  _parent : target
}.

Inductive search_outcome : Type :=
| SearchOk (v : json)
| SearchError.

Definition net_calls (w : world) : list net_call :=
  omap (fun e => match e with ENet c => Some c | _ => None end) (trace w).

Section Executor.

(** [json.loads]: [None] when the text is not JSON. *)
Variable json_loads : string -> option json.

(** [jmespath.search(expression, data)]; [SearchError] is a [JMESPathError]. *)
Variable jmespath_search : string -> json -> search_outcome.

(** [str(v)], as an f-string renders a value. *)
Variable py_str : json -> string.

(** The transport: what a call answers in a given world, and how long it
    takes. *)
Variable transport : world -> net_call -> result Response * Q.

Definition header_get (hs : list (string * string)) (name : string) : option string :=
  match List.find (fun kv => String.eqb (lower kv.1) (lower name)) hs with
  | Some kv => Some kv.2
  | None => None
  end.

(** The [try] block of [_get_helpful_error_message]: the first of the four
    keys that the JSON body has.  A body that is not a JSON object either has
    none of them or raises on [data[key]]; both leave the details empty. *)
Definition error_details (body : option json) : string :=
  match body with
  | Some (JDict d) =>
      match omap (dict_get d) ["error"; "message"; "error_description"; "detail"] with
      | v :: _ => " - " +:+ py_str v
      | [] => ""
      end
  | _ => ""
  end.

Definition show_hostname (h : option string) : string :=
  match h with Some s => s | None => "None" end.

(** [_get_helpful_error_message(response, url)]. *)
Definition _get_helpful_error_message (response : Response) (u : string) : result string :=
  match Urllib.urlsplit u with
  | Raise e => Raise e
  | Ok parts =>
      let hostname := show_hostname (Urllib.hostname parts) in
      let status := resp_status response in
      let details := error_details (json_loads (resp_text response)) in
      Ok (if status =? 401
          then "Authentication failed for " +:+ hostname +:+ details
               +:+ ". Check your API credentials."
          else if status =? 403
          then "Access forbidden to " +:+ hostname +:+ details
               +:+ ". Check permissions or account status."
          else if status =? 404
          then "Endpoint not found: " +:+ u +:+ details
          else if status =? 429
          then "Rate limited by " +:+ hostname +:+ ". Retry after "
               +:+ default "unknown" (header_get (resp_headers response) "Retry-After")
               +:+ " seconds" +:+ details
          else if 500 <=? status
          then "Server error on " +:+ hostname +:+ details +:+ ". Try again later."
          else "HTTP " +:+ of_Z status +:+ " from " +:+ hostname +:+ details)
  end.

Definition tick (dt : Q) (e : event) (w : world) : world :=
  mkWorld (clock w + dt)%Q (e :: trace w) (cache w).

Definition set_last_request_time (p : Core.WebPath) (t : Q) : Core.WebPath :=
  {| Core._url := Core._url p; Core._parts := Core._parts p;
     Core._trailing_slash := Core._trailing_slash p;
     Core._cache_config := Core._cache_config p;
     Core._allow_auto_follow := Core._allow_auto_follow p;
     Core._enable_logging := Core._enable_logging p;
     Core._rate_limit := Core._rate_limit p;
     Core._last_request_time := t;
     Core._default_headers := Core._default_headers p;
     Core._retries := Core._retries p;
     Core._backoff := Core._backoff p;
     Core._jitter := Core._jitter p;
     Core._timeout := Core._timeout p;
     Core._session := Core._session p |}.

Definition nonzero (q : Q) : bool := negb (Qeq_bool q 0).

(** The rate-limit block of [http_request]: sleep for what is left of the
    minimum interval since [_last_request_time], then stamp the URL object. *)
Definition rate_limit_block (t : target) (w : world) : target * world :=
  match t with
  | TPath p =>
      match Core._rate_limit p with
      | Some limit =>
          if nonzero limit then
            let min_interval := (1 / limit)%Q in
            let elapsed := (clock w - Core._last_request_time p)%Q in
            let w' :=
              if Qlt_le_dec elapsed min_interval
              then tick (min_interval - elapsed) (ESleep (min_interval - elapsed)) w
              else w in
            (TPath (set_last_request_time p (clock w')), w')
          else (t, w)
      | None => (t, w)
      end
  | TStr _ => (t, w)
  end.

Definition logging_block (verb : string) (t : target) (resp : Response) (w : world) : world :=
  match t with
  | TPath p =>
      if Core._enable_logging p
      then mkWorld (clock w)
             (ELog (upper verb) (url_str t) (resp_status resp) :: trace w) (cache w)
      else w
  | TStr _ => w
  end.

Definition cache_config_of (t : target) : option Cache.CacheConfig :=
  match t with TPath p => Core._cache_config p | TStr _ => None end.

Definition scheme_of (t : target) : result string :=
  match t with
  | TPath p => Ok (Urllib.scheme (Core._parts p))
  | TStr s =>
      match Urllib.urlsplit s with
      | Ok parts => Ok (Urllib.scheme parts)
      | Raise e => Raise e
      end
  end.

Definition choose_via (session : option nat) (retries : option Z) (backoff jitter : Q) : via :=
  match session with
  | Some s => ViaSession s
  | None =>
      match retries with
      | Some r => if r =? 0 then ViaRequests else ViaRetryAdapter r backoff jitter
      | None => ViaRequests
      end
  end.

(** The call that [http_request] hands to the transport. *)
Definition call_of (verb : string) (t : target) (retries : option Z) (backoff jitter : Q)
    (session : option nat) (kw : kwargs) : net_call :=
  mkCall verb (url_str t) (choose_via session retries backoff jitter) kw.

(** The cache check of [http_request]: [cache_config.get(verb, url_str)]
    when the URL object has a cache configuration. *)
Definition lookup_cache (t : target) (verb : string) (w : world)
  : option Cache.CacheEntry * Cache.store :=
  match cache_config_of t with
  | Some cfg => Cache.get cfg (cache w) (clock w) verb (url_str t)
  | None => (None, cache w)
  end.

(** The world after the cache check: the read evicts an expired entry. *)
Definition after_lookup (t : target) (verb : string) (w : world) : world :=
  mkWorld (clock w) (trace w) (lookup_cache t verb w).2.

(** The cache write of [http_request]: a 2xx response is stored when the URL
    object has a cache configuration. *)
Definition cache_write_block (verb : string) (t : target) (resp : Response) (w : world)
  : world :=
  match cache_config_of t with
  | Some cfg =>
      if (200 <=? resp_status resp) && (resp_status resp <? 300)
      then mkWorld (clock w) (trace w)
             (Cache.set cfg (cache w) (clock w) verb (url_str t)
                (resp_status resp) (resp_headers resp) (resp_text resp) (resp_url resp))
      else w
  | None => w
  end.

(** [http_request(verb, url, retries=, backoff=, jitter=, session=, ...)]:
    the scheme check, the cache check, the transport call with its
    translation of failures, the status check, the cache write, the
    rate-limit block and the logging block, in the order of the source. *)
Definition http_request (verb : string) (t : target)
    (retries : option Z) (backoff jitter : Q) (session : option nat) (kw : kwargs)
    (w : world) : result WebResponse * world :=
  match scheme_of t with
  | Raise e => (Raise e, w)
  | Ok sch =>
      if negb (Core.is_http_scheme sch)
      then (Raise (Exn ValueError (upper verb +:+ " only valid for http/https URLs")), w)
      else
        let cached := (lookup_cache t verb w).1 in
        let w := after_lookup t verb w in
        match cached with
        | Some entry => (Ok (mkWebResponse (Cached entry) t), w)
        | None =>
            let call := call_of verb t retries backoff jitter session kw in
            let '(answer, latency) := transport w call in
            let w := tick latency (ENet call) w in
            match answer with
            | Raise e =>
                if subclass (exn_cls e) RequestsConnectionError
                then (Raise (Exn ConnectionError ("Failed to connect to " +:+ url_str t)), w)
                else if subclass (exn_cls e) RequestsTimeout
                then (Raise (Exn TimeoutError
                               ("Request to " +:+ url_str t +:+ " timed out")), w)
                else (Raise e, w)
            | Ok resp =>
                if (400 <=? resp_status resp) && (resp_status resp <? 600)
                then
                  match _get_helpful_error_message resp (url_str t) with
                  | Ok msg => (Raise (Exn RequestsHTTPError msg), w)
                  | Raise e => (Raise e, w)
                  end
                else
                  let w := cache_write_block verb t resp w in
                  let '(t, w) := rate_limit_block t w in
                  let w := logging_block verb t resp w in
                  (Ok (mkWebResponse (Live resp) t), w)
            end
        end
  end.

(** [WebPath.get()] with no arguments: the verb method that [__getattr__]
    builds, with the defaults taken from the URL object. *)
Definition get (p : Core.WebPath) (w : world) : result WebResponse * world :=
  http_request "get" (TPath p)
    (Core._retries p) (Core._backoff p) (Core._jitter p) (Core._session p)
    (mkKwargs (Core._timeout p) (Core._default_headers p) false) w.

(** [WebPath(value).get()]. *)
Definition fetch (value : string) (w : world) : result WebResponse * world :=
  match Core.init value with
  | Raise e => (Raise e, w)
  | Ok p => get p w
  end.

(** *** The navigator: [WebResponse] *)

(** The [json_data] property: the parsed body, an empty dict when parsing
    fails. *)
Definition json_data (self : WebResponse) : json :=
  match json_loads (text (_response self)) with
  | Some v => v
  | None => JDict []
  end.

(** [find(expression, default)]. *)
Definition find (self : WebResponse) (expression : string) (default : value) : value :=
  if is_empty expression then default
  else
    let data := json_data self in
    if negb (truthy data) then default
    else
      match jmespath_search expression data with
      | SearchOk JNull => default
      | SearchOk result => J result
      | SearchError => default
      end.

(** [find_all(expression)]. *)
Definition find_all (self : WebResponse) (expression : string) : list value :=
  let result := find self expression (J (JList [])) in
  match result with
  | J (JList l) => map J l
  | _ => if truthy_value result then [result] else []
  end.

(** [has_path(expression)]: both calls of [object()] allocate. *)
Definition has_path (self : WebResponse) (expression : string) (heap : nat) : bool * nat :=
  let '(sentinel, heap) := new_object heap in
  let result := find self expression (Obj sentinel) in
  let '(other, heap) := new_object heap in
  (negb (is_ result other), heap).

Definition is_http_url (s : string) : bool :=
  startswith "http://" s || startswith "https://" s.

Definition blocked_hosts : list string := ["localhost"; "127.0.0.1"; "0.0.0.0"; "::1"].

Definition host_blocked (h : option string) : bool :=
  match h with
  | Some s => existsb (String.eqb s) blocked_hosts
  | None => false
  end.

Definition allow_auto_follow (t : target) : bool :=
  match t with TPath p => Core._allow_auto_follow p | TStr _ => false end.

(** The right operand of [response / key]. *)
Inductive key : Type :=
| KStr (s : string)
| KInt (z : Z).

Definition key_str (k : key) : string :=
  match k with KStr s => s | KInt z => of_Z z end.

(** [int(key)]; [None] is [ValueError]. *)
Definition key_int (k : key) : option Z :=
  match k with KStr s => int_of_string s | KInt z => Some z end.

(** What [response / key] returns: the addressed value, or the navigator of
    the response it fetched. *)
Inductive nav : Type :=
| NavValue (v : json)
| NavResponse (r : WebResponse).

Definition as_nav (r : result WebResponse * world) : result nav * world :=
  match r.1 with
  | Ok resp => (Ok (NavResponse resp), r.2)
  | Raise e => (Raise e, r.2)
  end.

Definition key_error (k : key) : exn :=
  Exn KeyError ("Key '" +:+ key_str k +:+ "' not found in response").

(** [WebResponse.__truediv__]: [self / key]. *)
Definition truediv (self : WebResponse) (k : key) (w : world) : result nav * world :=
  match json_data self, k with
  | JDict d, KStr name =>
      match dict_get d name with
      | Some (JStr s) =>
          if is_http_url s then
            if negb (allow_auto_follow (_parent self)) then (Ok (NavValue (JStr s)), w)
            else
              match Urllib.urlsplit s with
              | Raise e => (Raise e, w)
              | Ok parsed =>
                  if host_blocked (Urllib.hostname parsed)
                  then (Raise (Exn ValueError
                                 "Cannot auto-follow localhost URLs for security"), w)
                  else as_nav (fetch s w)
              end
          else (Ok (NavValue (JStr s)), w)
      | Some v => (Ok (NavValue v), w)
      | None => (Raise (key_error k), w)
      end
  | JList l, _ =>
      match key_int k with
      | None => (Raise (key_error k), w)
      | Some idx =>
          match list_get l idx with
          | None => (Raise (key_error k), w)
          | Some (JStr s) =>
              if is_http_url s then
                match fetch s w with
                | (Raise e, w') =>
                    if caught_by e [ValueError; IndexError]
                    then (Raise (key_error k), w')
                    else (Raise e, w')
                | (Ok resp, w') => (Ok (NavResponse resp), w')
                end
              else (Ok (NavValue (JStr s)), w)
          | Some v => (Ok (NavValue v), w)
          end
      end
  | _, _ => (Raise (key_error k), w)
  end.

(** *** The pagination walker *)

(** [_extract_nested_value(data, path)]: [JNull] when a step raises
    [KeyError] or [TypeError]. *)
Definition _extract_nested_value (data : json) (path : string) : json :=
  default JNull
    (foldl (fun cur part =>
              match cur with
              | Some (JDict d) => dict_get d part
              | _ => None
              end)
           (Some data) (split_on (ch 46) path)).

Definition next_patterns : list string :=
  ["next"; "next_url"; "nextUrl"; "next_page"; "links.next"; "pagination.next";
   "_links.next.href"].

(** [_find_next_url(page)]. *)
Definition _find_next_url (page : WebResponse) : json :=
  match json_data page with
  | JDict d =>
      default JNull
        (List.find
           (fun v => truthy v && match v with JStr s => is_http_url s | _ => false end)
           (map (_extract_nested_value (JDict d)) next_patterns))
  | _ => JNull
  end.

(** The local variables of [paginate], the pages yielded so far (newest
    first) and whether the loop is still running. *)
Record walk : Type := mkWalk {
  current_page : WebResponse;
  page_count : Z;
  visited_urls : gset string;
  yielded : list WebResponse;
  running : bool;
  wld : world
}.

Definition stop (s : walk) : walk :=
  mkWalk (current_page s) (page_count s) (visited_urls s) (yielded s) false (wld s).

(** The next-page URL of a page: from the explicit key path when one is
    given, from the conventional keys otherwise. *)
Definition next_url_of (next_key : option string) (page : WebResponse) : json :=
  match next_key with
  | Some k =>
      if negb (is_empty k) then _extract_nested_value (json_data page) k
      else _find_next_url page
  | None => _find_next_url page
  end.

Definition page_url (page : WebResponse) : string := url (_response page).

(** One turn of the [while] loop of [paginate]. *)
Definition paginate_step (max_pages : Z) (next_key : option string) (s : walk) : walk :=
  if negb (running s) then s
  else if negb (page_count s <? max_pages) then stop s
  else
    let current_url := page_url (current_page s) in
    if bool_decide (current_url ∈ visited_urls s) then stop s
    else
      let s := mkWalk (current_page s) (page_count s + 1)
                 ({[current_url]} ∪ visited_urls s)
                 (current_page s :: yielded s) true (wld s) in
      match next_url_of next_key (current_page s) with
      | JStr u =>
          if is_empty u then stop s
          else
            match fetch u (wld s) with
            | (Ok page, w') =>
                mkWalk page (page_count s) (visited_urls s) (yielded s) true w'
            | (Raise _, w') =>
                mkWalk (current_page s) (page_count s) (visited_urls s) (yielded s) false w'
            end
      | _ => stop s
      end.

Fixpoint paginate_run (max_pages : Z) (next_key : option string)
    (turns : nat) (s : walk) : walk :=
  match turns with
  | O => s
  | S n => paginate_run max_pages next_key n (paginate_step max_pages next_key s)
  end.

Definition paginate_start (self : WebResponse) (w : world) : walk :=
  mkWalk self 0 ∅ [] true w.

(** [list(self.paginate(max_pages, next_key))]: the pages in the order they
    are yielded, and the world after the walk.  The loop is given one turn
    more than [max_pages]: the turn that finds the bound reached. *)
Definition paginate (self : WebResponse) (max_pages : Z) (next_key : option string)
    (w : world) : list WebResponse * world :=
  let s := paginate_run max_pages next_key (S (Z.to_nat max_pages))
             (paginate_start self w) in
  (reverse (yielded s), wld s).

(** *** Properties of the navigator *)

Lemma find_cases (self : WebResponse) (expression : string) (default : value) :
  find self expression default = default
  \/ exists j, find self expression default = J j /\ j <> JNull.
Proof.
  unfold find.
  destruct (is_empty expression); [now left|].
  destruct (negb (truthy (json_data self))); [now left|].
  destruct (jmespath_search expression (json_data self)) as [v|]; [|now left].
  destruct v; try (right; eexists; split; [reflexivity|discriminate]).
  now left.
Qed.

(** The object compared with is allocated after the sentinel, so the result
    of [find] is never identical to it. *)
Lemma has_path_always_true (self : WebResponse) (expression : string) (heap : nat) :
  has_path self expression heap = (true, S (S heap)).
Proof.
  unfold has_path, new_object.
  destruct (find_cases self expression (Obj heap)) as [-> | (j & -> & _)]; simpl.
  - replace (Nat.eqb heap (S heap)) with false; [reflexivity|].
    symmetry. apply Nat.eqb_neq. lia.
  - reflexivity.
Qed.

(** C7 (the code at the failing input).  For the empty path [find] returns
    the very sentinel it was given, and [has_path] still answers [True]. *)
Theorem has_path_empty_path_is_true (self : WebResponse) (heap : nat) :
  find self "" (Obj heap) = Obj heap /\ (has_path self "" heap).1 = true.
Proof.
  split; [reflexivity|].
  now rewrite has_path_always_true.
Qed.

Lemma find_all_of_default (self : WebResponse) (expression : string) :
  find self expression (J (JList [])) = J (JList []) -> find_all self expression = [].
Proof. unfold find_all. now intros ->. Qed.

(** C8 (amended).  [find_all] always returns a list: the list the path
    produces; a one-element list for a value that is not a list and is
    truthy; the empty list for a value that is not a list and is falsy, for no
    match ([null]), for a failing evaluation, for the empty path and for a
    body that is empty or not JSON. *)
Theorem find_all_cases (self : WebResponse) (expression : string) :
  (is_empty expression = true -> find_all self expression = [])
  /\ (truthy (json_data self) = false -> find_all self expression = [])
  /\ (is_empty expression = false -> truthy (json_data self) = true ->
      match jmespath_search expression (json_data self) with
      | SearchError => find_all self expression = []
      | SearchOk JNull => find_all self expression = []
      | SearchOk (JList l) => find_all self expression = map J l
      | SearchOk v =>
          find_all self expression = if truthy v then [J v] else []
      end).
Proof.
  split; [|split].
  - intros H. apply find_all_of_default. unfold find. now rewrite H.
  - intros H. apply find_all_of_default. unfold find. rewrite H.
    now destruct (is_empty expression).
  - intros He Hd. unfold find_all, find. rewrite He, Hd. simpl.
    destruct (jmespath_search expression (json_data self)) as [v|]; [|reflexivity].
    destruct v; reflexivity.
Qed.

(** *** Properties of the executor *)

Definition is_status_error (r : result WebResponse) : bool :=
  match r with
  | Raise e => exn_class_eqb (exn_cls e) RequestsHTTPError
  | Ok _ => false
  end.

Definition http_scheme_ok (t : target) : Prop :=
  exists sch, scheme_of t = Ok sch /\ Core.is_http_scheme sch = true.

(** The state in which [http_request] reaches the rate-limit block. *)
Definition after_call (verb : string) (t : target) (call : net_call) (resp : Response)
    (latency : Q) (w : world) : world :=
  cache_write_block verb t resp (tick latency (ENet call) (after_lookup t verb w)).

Lemma net_calls_rate_limit (t : target) (w : world) :
  net_calls (rate_limit_block t w).2 = net_calls w.
Proof.
  unfold rate_limit_block. destruct t as [p|]; [|reflexivity].
  destruct (Core._rate_limit p) as [limit|]; [|reflexivity].
  destruct (nonzero limit); [|reflexivity].
  destruct (Qlt_le_dec _ _); reflexivity.
Qed.

Lemma net_calls_logging (verb : string) (t : target) (r : Response) (w : world) :
  net_calls (logging_block verb t r w) = net_calls w.
Proof.
  unfold logging_block. destruct t as [p|]; [|reflexivity].
  destruct (Core._enable_logging p); reflexivity.
Qed.

Lemma trace_cache_write (verb : string) (t : target) (r : Response) (w : world) :
  trace (cache_write_block verb t r w) = trace w
  /\ clock (cache_write_block verb t r w) = clock w.
Proof.
  unfold cache_write_block. destruct (cache_config_of t); [|now split].
  destruct (_ && _); now split.
Qed.

(** The request on a cache hit. *)
Lemma http_request_hit verb t retries backoff jitter session kw w entry :
  http_scheme_ok t ->
  (lookup_cache t verb w).1 = Some entry ->
  http_request verb t retries backoff jitter session kw w
  = (Ok (mkWebResponse (Cached entry) t), after_lookup t verb w).
Proof.
  intros (sch & Hs & Hh) Hc. unfold http_request.
  rewrite Hs, Hh. simpl. now rewrite Hc.
Qed.

(** The request on a cache miss, by what the transport answers. *)
Lemma http_request_miss verb t retries backoff jitter session kw w :
  http_scheme_ok t ->
  (lookup_cache t verb w).1 = None ->
  let call := call_of verb t retries backoff jitter session kw in
  let w0 := after_lookup t verb w in
  http_request verb t retries backoff jitter session kw w
  = match transport w0 call with
    | (Raise e, latency) =>
        (Raise (if subclass (exn_cls e) RequestsConnectionError
                then Exn ConnectionError ("Failed to connect to " +:+ url_str t)
                else if subclass (exn_cls e) RequestsTimeout
                then Exn TimeoutError ("Request to " +:+ url_str t +:+ " timed out")
                else e),
         tick latency (ENet call) w0)
    | (Ok resp, latency) =>
        if (400 <=? resp_status resp) && (resp_status resp <? 600)
        then (match _get_helpful_error_message resp (url_str t) with
              | Ok msg => Raise (Exn RequestsHTTPError msg)
              | Raise e => Raise e
              end, tick latency (ENet call) w0)
        else
          let tw := rate_limit_block t (after_call verb t call resp latency w) in
          (Ok (mkWebResponse (Live resp) tw.1), logging_block verb tw.1 resp tw.2)
    end.
Proof.
  intros (sch & Hs & Hh) Hc call w0. unfold http_request.
  rewrite Hs, Hh. simpl. rewrite Hc. fold call w0.
  destruct (transport w0 call) as [[resp|e] latency].
  - destruct (_ && _).
    + destruct (_get_helpful_error_message _ _); reflexivity.
    + unfold after_call. fold call w0.
      destruct (rate_limit_block _ _); reflexivity.
  - destruct (subclass _ RequestsConnectionError); [reflexivity|].
    destruct (subclass _ RequestsTimeout); reflexivity.
Qed.

(** A cache miss issues exactly one transport call, whatever comes back. *)
Lemma http_request_miss_calls verb t retries backoff jitter session kw w :
  http_scheme_ok t ->
  (lookup_cache t verb w).1 = None ->
  net_calls (http_request verb t retries backoff jitter session kw w).2
  = call_of verb t retries backoff jitter session kw :: net_calls w.
Proof.
  intros Hok Hc. rewrite http_request_miss by assumption. cbv zeta.
  destruct (transport _ _) as [[resp|e] latency].
  - destruct (_ && _); [reflexivity|]. simpl.
    rewrite net_calls_logging, net_calls_rate_limit.
    unfold after_call, net_calls.
    now rewrite (proj1 (trace_cache_write _ _ _ _)).
  - reflexivity.
Qed.

Lemma cache_rate_limit (t : target) (w : world) :
  cache (rate_limit_block t w).2 = cache w.
Proof.
  unfold rate_limit_block. destruct t as [p|]; [|reflexivity].
  destruct (Core._rate_limit p) as [limit|]; [|reflexivity].
  destruct (nonzero limit); [|reflexivity].
  destruct (Qlt_le_dec _ _); reflexivity.
Qed.

Lemma cache_logging (verb : string) (t : target) (r : Response) (w : world) :
  cache (logging_block verb t r w) = cache w.
Proof.
  unfold logging_block. destruct t as [p|]; [|reflexivity].
  destruct (Core._enable_logging p); reflexivity.
Qed.

Lemma lookup_cache_hit t verb w cfg T e :
  cache_config_of t = Some cfg -> Cache.ttl cfg = Some T ->
  cache w !! (verb, url_str t) = Some e ->
  (clock w - Cache.stored_at e <= T)%Q ->
  lookup_cache t verb w = (Some e, cache w).
Proof.
  intros Hc HT He Hle. unfold lookup_cache, Cache.get. rewrite Hc, HT, He.
  unfold Cache.unexpired. now apply Qle_bool_iff in Hle as ->.
Qed.

Lemma lookup_cache_miss t verb w cfg T :
  cache_config_of t = Some cfg -> Cache.ttl cfg = Some T ->
  cache w !! (verb, url_str t) = None
  \/ (exists e, cache w !! (verb, url_str t) = Some e
               /\ ~ (clock w - Cache.stored_at e <= T)%Q) ->
  (lookup_cache t verb w).1 = None.
Proof.
  intros Hc HT H. unfold lookup_cache, Cache.get. rewrite Hc, HT.
  destruct H as [-> | (e & -> & Hexp)]; [reflexivity|].
  unfold Cache.unexpired.
  destruct (Qle_bool _ _) eqn:Hb; [|reflexivity].
  apply Qle_bool_iff in Hb. contradiction.
Qed.

(** C3.  With a TTL configured: an unexpired entry for (method, URL) is
    returned as it is and the world does not change (no transport call, no
    wait, no timestamp); with the entry absent or expired one transport call
    is issued, and a final 2xx response is in the store afterwards under
    (method, URL string), stamped with the time it arrived. *)
Theorem cache_hit_skips_transport_miss_stores
    verb t retries backoff jitter session kw w cfg T :
  http_scheme_ok t ->
  cache_config_of t = Some cfg ->
  Cache.ttl cfg = Some T ->
  (forall e,
      cache w !! (verb, url_str t) = Some e ->
      (clock w - Cache.stored_at e <= T)%Q ->
      http_request verb t retries backoff jitter session kw w
      = (Ok (mkWebResponse (Cached e) t), w)
      /\ status_code (Cached e) = Cache.status_code e
      /\ headers (Cached e) = Cache.headers e
      /\ text (Cached e) = Cache.content e)
  /\ (cache w !! (verb, url_str t) = None
      \/ (exists e, cache w !! (verb, url_str t) = Some e
                   /\ ~ (clock w - Cache.stored_at e <= T)%Q) ->
      net_calls (http_request verb t retries backoff jitter session kw w).2
      = call_of verb t retries backoff jitter session kw :: net_calls w
      /\ forall resp latency,
          transport (after_lookup t verb w)
                    (call_of verb t retries backoff jitter session kw)
          = (Ok resp, latency) ->
          200 <= resp_status resp < 300 ->
          cache (http_request verb t retries backoff jitter session kw w).2
            !! (verb, url_str t)
          = Some (Cache.mkEntry (resp_status resp) (resp_headers resp)
                    (resp_text resp) (resp_url resp) (clock w + latency)%Q)).
Proof.
  intros Hok Hc HT. split.
  - intros e He Hle. split; [|now repeat split].
    pose proof (lookup_cache_hit t verb w cfg T e Hc HT He Hle) as Hl.
    rewrite (http_request_hit _ _ _ _ _ _ _ _ e Hok) by now rewrite Hl.
    unfold after_lookup. rewrite Hl. now destruct w.
  - intros Hmiss.
    pose proof (lookup_cache_miss t verb w cfg T Hc HT Hmiss) as Hl.
    split; [now apply http_request_miss_calls|].
    intros resp latency Htr [Hlo Hhi].
    rewrite http_request_miss by assumption. cbv zeta. rewrite Htr.
    replace ((400 <=? resp_status resp) && (resp_status resp <? 600)) with false
      by (symmetry; apply andb_false_iff; left; apply Z.leb_gt; lia).
    simpl. rewrite cache_logging, cache_rate_limit.
    unfold after_call, cache_write_block. rewrite Hc.
    replace ((200 <=? resp_status resp) && (resp_status resp <? 300)) with true
      by (symmetry; apply andb_true_iff; split; [apply Z.leb_le|apply Z.ltb_lt]; lia).
    simpl. unfold Cache.set. rewrite HT. apply lookup_insert_eq.
Qed.

(** The statuses whose message is a fixed sentence without the number. *)
Definition worded_status (status : Z) : bool :=
  (status =? 401) || (status =? 403) || (status =? 404) || (status =? 429)
  || (500 <=? status).

(** The first of the four keys that a JSON object has, with its value. *)
Definition first_error_field (d : list (string * json)) : option json :=
  match dict_get d "error", dict_get d "message",
        dict_get d "error_description", dict_get d "detail" with
  | Some v, _, _, _ => Some v
  | None, Some v, _, _ => Some v
  | None, None, Some v, _ => Some v
  | None, None, None, Some v => Some v
  | None, None, None, None => None
  end.

Lemma error_details_field (text : string) (d : list (string * json)) :
  json_loads text = Some (JDict d) ->
  error_details (json_loads text)
  = match first_error_field d with
    | Some v => " - " +:+ py_str v
    | None => ""
    end.
Proof.
  intros ->. unfold error_details, first_error_field. simpl.
  destruct (dict_get d "error"); [reflexivity|].
  destruct (dict_get d "message"); [reflexivity|].
  destruct (dict_get d "error_description"); [reflexivity|].
  destruct (dict_get d "detail"); reflexivity.
Qed.

(** What the message of a status error holds. *)
Definition message_holds (resp : Response) (u : string) (parts : Urllib.SplitResult)
    (msg : string) : Prop :=
  (resp_status resp <> 404 ->
   infixb (show_hostname (Urllib.hostname parts)) msg = true)
  /\ (resp_status resp = 404 -> infixb u msg = true)
  /\ (worded_status (resp_status resp) = false ->
      infixb (of_Z (resp_status resp)) msg = true)
  /\ (forall d v,
        json_loads (resp_text resp) = Some (JDict d) ->
        first_error_field d = Some v ->
        infixb (" - " +:+ py_str v) msg = true).

Lemma helpful_message_holds (resp : Response) (u : string) (parts : Urllib.SplitResult) :
  Urllib.urlsplit u = Ok parts ->
  exists msg,
    _get_helpful_error_message resp u = Ok msg /\ message_holds resp u parts msg.
Proof.
  intros Hu. unfold _get_helpful_error_message. rewrite Hu.
  eexists. split; [reflexivity|].
  assert (Hd : forall d v,
             json_loads (resp_text resp) = Some (JDict d) ->
             first_error_field d = Some v ->
             error_details (json_loads (resp_text resp)) = " - " +:+ py_str v).
  { intros d v H1 H2. rewrite (error_details_field _ d H1). now rewrite H2. }
  unfold message_holds, worded_status.
  destruct (Z.eqb_spec (resp_status resp) 401) as [E|N1].
  { repeat split; try (intros; lia); try discriminate.
    - intros _. StrFacts.find_piece.
    - intros d v H1 H2. rewrite <- (Hd d v H1 H2). StrFacts.find_piece. }
  destruct (Z.eqb_spec (resp_status resp) 403) as [E|N2].
  { repeat split; try (intros; lia); try discriminate.
    - intros _. StrFacts.find_piece.
    - intros d v H1 H2. rewrite <- (Hd d v H1 H2). StrFacts.find_piece. }
  destruct (Z.eqb_spec (resp_status resp) 404) as [E|N3].
  { repeat split; try (intros; lia); try discriminate.
    - intros _. StrFacts.find_piece.
    - intros d v H1 H2. rewrite <- (Hd d v H1 H2). StrFacts.find_piece. }
  destruct (Z.eqb_spec (resp_status resp) 429) as [E|N4].
  { repeat split; try (intros; lia); try discriminate.
    - intros _. StrFacts.find_piece.
    - intros d v H1 H2. rewrite <- (Hd d v H1 H2). StrFacts.find_piece. }
  destruct (500 <=? resp_status resp) eqn:E5.
  { repeat split; try (intros; lia); try discriminate.
    - intros _. StrFacts.find_piece.
    - intros d v H1 H2. rewrite <- (Hd d v H1 H2). StrFacts.find_piece. }
  repeat split; try (intros; lia).
  - intros _. StrFacts.find_piece.
  - intros _. StrFacts.find_piece.
  - intros d v H1 H2. rewrite <- (Hd d v H1 H2). StrFacts.find_piece.
Qed.


Definition sleeps (w : world) : list Q :=
  omap (fun e => match e with ESleep d => Some d | _ => None end) (trace w).

Lemma rate_limit_block_limited (p : Core.WebPath) (limit : Q) (w : world) :
  Core._rate_limit p = Some limit ->
  nonzero limit = true ->
  let elapsed := (clock w - Core._last_request_time p)%Q in
  let w' := if Qlt_le_dec elapsed (1 / limit)
            then tick (1 / limit - elapsed) (ESleep (1 / limit - elapsed)) w
            else w in
  rate_limit_block (TPath p) w = (TPath (set_last_request_time p (clock w')), w').
Proof. intros Hl Hn. unfold rate_limit_block. now rewrite Hl, Hn. Qed.

(** C4 (amended).  With a non-zero rate limit on the URL object, a request
    that misses the cache and gets a response below 400 performs the
    transport call first; after it, when less than [1/limit] seconds have
    passed since the object's last-request timestamp, it sleeps for the rest
    of the interval; then it stamps the object with the time after the wait.
    So the call is older on the trace than the sleep, the sleep is the only
    one, and at least [1/limit] seconds lie between the old timestamp and the
    new one. *)
Theorem rate_limit_waits_after_the_call
    verb p retries backoff jitter session kw w limit resp latency :
  let t := TPath p in
  let call := call_of verb t retries backoff jitter session kw in
  http_scheme_ok t ->
  (lookup_cache t verb w).1 = None ->
  Core._rate_limit p = Some limit ->
  nonzero limit = true ->
  transport (after_lookup t verb w) call = (Ok resp, latency) ->
  resp_status resp < 400 ->
  let w1 := after_call verb t call resp latency w in
  let elapsed := (clock w1 - Core._last_request_time p)%Q in
  let wait := if Qlt_le_dec elapsed (1 / limit) then [(1 / limit - elapsed)%Q] else [] in
  exists p' w',
    http_request verb t retries backoff jitter session kw w
    = (Ok (mkWebResponse (Live resp) (TPath p')), w')
    /\ net_calls w' = call :: net_calls w
    /\ sleeps w' = wait ++ sleeps w
    /\ (exists log, trace w' = log ++ map ESleep wait ++ ENet call :: trace w
                    /\ Forall (fun e => exists v u s, e = ELog v u s) log)
    /\ Core._last_request_time p' = clock w'
    /\ (clock w' == clock w1 + fold_right Qplus 0 wait)%Q
    /\ (1 / limit <= clock w' - Core._last_request_time p)%Q.
Proof.
  intros t call Hok Hlk Hlim Hnz Htr Hst.
  cbv zeta.
  set (w1 := after_call verb t call resp latency w).
  set (elapsed := (clock w1 - Core._last_request_time p)%Q).
  assert (Htrace1 : trace w1 = ENet call :: trace w).
  { subst w1. unfold after_call.
    now rewrite (proj1 (trace_cache_write _ _ _ _)). }
  rewrite http_request_miss by assumption. cbv zeta. fold call. rewrite Htr.
  replace ((400 <=? resp_status resp) && (resp_status resp <? 600)) with false
    by (symmetry; apply andb_false_iff; left; apply Z.leb_gt; lia).
  fold w1. subst t. rewrite (rate_limit_block_limited p limit w1 Hlim Hnz).
  cbv zeta. fold elapsed.
  destruct (Qlt_le_dec elapsed (1 / limit)) as [Hlt|Hge].
  - eexists _, _. split; [reflexivity|].
    unfold logging_block, net_calls, sleeps, tick. simpl.
    destruct (Core._enable_logging p); simpl; rewrite Htrace1; simpl.
    + repeat split; try reflexivity.
      * exists [ELog (upper verb) (Core._url p) (resp_status resp)].
        split; [reflexivity|]. repeat constructor. eauto.
      * ring.
      * subst elapsed. ring_simplify. apply Qle_refl.
    + repeat split; try reflexivity.
      * exists []. split; [reflexivity|constructor].
      * ring.
      * subst elapsed. ring_simplify. apply Qle_refl.
  - eexists _, _. split; [reflexivity|].
    unfold logging_block, net_calls, sleeps, tick. simpl.
    destruct (Core._enable_logging p); simpl; rewrite ?Htrace1; simpl.
    + repeat split; try reflexivity.
      * exists [ELog (upper verb) (Core._url p) (resp_status resp)].
        split; [reflexivity|]. repeat constructor. eauto.
      * ring.
      * subst elapsed. ring_simplify. ring_simplify in Hge. exact Hge.
    + repeat split; try reflexivity.
      * exists []. split; [reflexivity|constructor].
      * ring.
      * exact Hge.
Qed.

(** A request that raises after its transport call has not waited: the
    status check and the translation of transport failures come before the
    rate-limit block. *)
Lemma failed_request_does_not_wait verb t retries backoff jitter session kw w :
  http_scheme_ok t ->
  (lookup_cache t verb w).1 = None ->
  is_ok (http_request verb t retries backoff jitter session kw w).1 = false ->
  sleeps (http_request verb t retries backoff jitter session kw w).2 = sleeps w.
Proof.
  intros Hok Hc. rewrite http_request_miss by assumption. cbv zeta.
  destruct (transport _ _) as [[resp|e] latency]; [|reflexivity].
  destruct (_ && _); [reflexivity|discriminate].
Qed.

(** *** Properties of the navigation operator *)

(** The GET of a followed link: [WebPath(value).get()] on a fresh URL
    object always reaches the transport. *)
Definition follow_call (value : string) : net_call :=
  mkCall "get" (strip value) ViaRequests (mkKwargs None [] false).

Lemma fetch_calls (value : string) (p : Core.WebPath) (w : world) :
  Core.init value = Ok p ->
  net_calls (fetch value w).2 = follow_call value :: net_calls w.
Proof.
  intros Hi. unfold fetch, get. rewrite Hi.
  destruct (Core.init_fresh _ _ Hi)
    as (Hu & _ & Hs & _ & _ & Hc & _ & _ & _ & Hr & Hse & Ht & Hh & _).
  rewrite http_request_miss_calls.
  - unfold call_of, follow_call. simpl. now rewrite Hu, Hr, Hse, Ht, Hh.
  - eexists. split; [reflexivity|exact Hs].
  - unfold lookup_cache. simpl. now rewrite Hc.
Qed.

(** Dictionary-key addressing: a link is followed only with auto-follow on,
    and never to a blocked host. *)
Lemma truediv_dict_guarded self name w d s :
  json_data self = JDict d ->
  dict_get d name = Some (JStr s) ->
  is_http_url s = true ->
  (allow_auto_follow (_parent self) = false ->
   truediv self (KStr name) w = (Ok (NavValue (JStr s)), w))
  /\ (forall parsed,
        allow_auto_follow (_parent self) = true ->
        Urllib.urlsplit s = Ok parsed ->
        host_blocked (Urllib.hostname parsed) = true ->
        truediv self (KStr name) w
        = (Raise (Exn ValueError "Cannot auto-follow localhost URLs for security"), w)).
Proof.
  intros Hd Hg Hu. unfold truediv. rewrite Hd, Hg, Hu. split.
  - now intros ->.
  - intros parsed -> -> ->. reflexivity.
Qed.

(** List-index addressing: a link is followed whatever the auto-follow flag
    and whatever its host. *)
Lemma truediv_list_follows self k w l idx s p :
  json_data self = JList l ->
  key_int k = Some idx ->
  list_get l idx = Some (JStr s) ->
  is_http_url s = true ->
  Core.init s = Ok p ->
  net_calls (truediv self k w).2 = follow_call s :: net_calls w.
Proof.
  intros Hd Hk Hg Hu Hi. unfold truediv. rewrite Hd, Hk, Hg, Hu.
  rewrite <- (fetch_calls s p w Hi).
  destruct (fetch s w) as [[resp|e] w']; [reflexivity|].
  destruct (caught_by e [ValueError; IndexError]); reflexivity.
Qed.

(** *** Properties of the pagination walker *)

Section Walk.

Variable max_pages : Z.
Variable next_key : option string.

Local Abbreviation step := (paginate_step max_pages next_key).
Local Abbreviation run := (paginate_run max_pages next_key).

(** What every turn of the loop keeps true. *)
Record walk_inv (s : walk) : Prop := mkWalkInv {
  inv_count_lo : 0 <= page_count s;
  inv_count_hi : page_count s <= Z.max 0 max_pages;
  inv_length : Z.of_nat (length (yielded s)) = page_count s;
  inv_visited : forall pg, pg ∈ yielded s -> page_url pg ∈ visited_urls s;
  inv_nodup : NoDup (page_url <$> yielded s)
}.

Lemma step_stopped (s : walk) : running s = false -> step s = s.
Proof. intros H. unfold paginate_step. now rewrite H. Qed.

Lemma run_stopped (n : nat) (s : walk) : running s = false -> run n s = s.
Proof.
  induction n as [|n IH]; [reflexivity|]. intros H. simpl.
  rewrite step_stopped by exact H. now apply IH.
Qed.

Lemma run_add (n k : nat) (s : walk) : run (n + k) s = run k (run n s).
Proof. revert s. induction n as [|n IH]; intros s; [reflexivity|]. simpl. apply IH. Qed.

Lemma stop_inv (s : walk) : walk_inv s -> walk_inv (stop s).
Proof. intros []. now constructor. Qed.

(** The state after the [yield] of a turn. *)
Definition yield_current (s : walk) : walk :=
  mkWalk (current_page s) (page_count s + 1)
    ({[page_url (current_page s)]} ∪ visited_urls s)
    (current_page s :: yielded s) true (wld s).

Lemma yield_inv (s : walk) :
  walk_inv s -> page_count s < max_pages ->
  page_url (current_page s) ∉ visited_urls s ->
  walk_inv (yield_current s).
Proof.
  intros [Hlo Hhi Hlen Hvis Hnd] Hlt Hnew. constructor; simpl.
  - lia.
  - lia.
  - lia.
  - intros pg Hin. apply elem_of_cons in Hin as [-> | Hin]; [set_solver|].
    apply Hvis in Hin. set_solver.
  - apply NoDup_cons. split; [|exact Hnd].
    intros Hin. apply list_elem_of_fmap in Hin as (pg & Heq & Hpg).
    apply Hvis in Hpg. now rewrite <- Heq in Hpg.
Qed.

(** A turn of a running loop, by cases. *)
Lemma step_cases (s : walk) :
  running s = true ->
  (max_pages <= page_count s /\ step s = stop s)
  \/ (page_count s < max_pages
      /\ page_url (current_page s) ∈ visited_urls s /\ step s = stop s)
  \/ (page_count s < max_pages
      /\ (page_url (current_page s) ∉ visited_urls s)
      /\ match next_url_of next_key (current_page s) with
         | JStr u =>
             if is_empty u then step s = stop (yield_current s)
             else
               match fetch u (wld s) with
               | (Ok page, w') =>
                   step s = mkWalk page (page_count s + 1)
                              ({[page_url (current_page s)]} ∪ visited_urls s)
                              (current_page s :: yielded s) true w'
               | (Raise _, w') =>
                   step s = mkWalk (current_page s) (page_count s + 1)
                              ({[page_url (current_page s)]} ∪ visited_urls s)
                              (current_page s :: yielded s) false w'
               end
         | _ => step s = stop (yield_current s)
         end).
Proof.
  intros Hrun. unfold paginate_step. rewrite Hrun. simpl.
  destruct (Z.ltb_spec (page_count s) max_pages) as [Hlt|Hge]; simpl.
  2:{ left. now split. }
  right. destruct (bool_decide_reflect (page_url (current_page s) ∈ visited_urls s))
    as [Hin|Hnew].
  { left. now repeat split. }
  right. split; [exact Hlt|]. split; [exact Hnew|].
  destruct (next_url_of next_key (current_page s)); try reflexivity.
  destruct (is_empty s0); [reflexivity|].
  destruct (fetch s0 (wld s)) as [[page|e] w']; reflexivity.
Qed.

Lemma step_inv (s : walk) : walk_inv s -> walk_inv (step s).
Proof.
  intros Hinv. destruct (running s) eqn:Hrun.
  2:{ now rewrite step_stopped. }
  destruct (step_cases s Hrun) as [(_ & ->) | [(_ & _ & ->) | (Hlt & Hnew & H)]];
    try now apply stop_inv.
  pose proof (yield_inv s Hinv Hlt Hnew) as [Hlo Hhi Hlen Hvis Hnd].
  simpl in *.
  destruct (next_url_of next_key (current_page s));
    try (rewrite H; now constructor).
  destruct (is_empty s0); [rewrite H; now constructor|].
  destruct (fetch s0 (wld s)) as [[page|e] w']; rewrite H; now constructor.
Qed.

Lemma run_inv (n : nat) (s : walk) : walk_inv s -> walk_inv (run n s).
Proof.
  revert s. induction n as [|n IH]; intros s H; [exact H|].
  simpl. apply IH, step_inv, H.
Qed.

(** A turn that leaves the loop running has counted one more page. *)
Lemma step_progress (s : walk) :
  running (step s) = true ->
  page_count s < max_pages /\ page_count (step s) = page_count s + 1.
Proof.
  intros H. destruct (running s) eqn:Hrun.
  2:{ rewrite step_stopped in H by exact Hrun. congruence. }
  destruct (step_cases s Hrun) as [(_ & E) | [(_ & _ & E) | (Hlt & _ & E)]];
    try (rewrite E in H; discriminate).
  split; [exact Hlt|].
  destruct (next_url_of next_key (current_page s));
    try (rewrite E in H; discriminate).
  destruct (is_empty s0); [rewrite E in H; discriminate|].
  destruct (fetch s0 (wld s)) as [[page|e] w']; rewrite E in *;
    [reflexivity|discriminate].
Qed.

(** The loop ends within [max_pages - page_count] turns and one more. *)
Lemma run_finishes (n : nat) (s : walk) :
  (Z.to_nat (max_pages - page_count s) < n)%nat -> running (run n s) = false.
Proof.
  revert s. induction n as [|n IH]; intros s Hn; [lia|].
  simpl. destruct (running (step s)) eqn:Hrun.
  - apply step_progress in Hrun as [Hlt Hpc]. apply IH. rewrite Hpc. lia.
  - now rewrite run_stopped.
Qed.

End Walk.

Lemma start_inv (max_pages : Z) (self : WebResponse) (w : world) :
  walk_inv max_pages (paginate_start self w).
Proof. constructor; simpl; try lia; [set_solver|constructor]. Qed.

(** C6.  For every starting response, bound, key path and transport:
    [max_pages + 1] turns end the loop and further turns change nothing; at
    most [max_pages] pages are yielded, with pairwise different URLs; a
    running loop stops without a yield when the bound is reached or when the
    URL of the page at hand was already visited; otherwise it yields the page
    and stops when the page names no next URL or when fetching it raises, the
    pages yielded so far being kept. *)
Theorem paginate_terminates_within_bound
    (self : WebResponse) (max_pages : Z) (next_key : option string) (w : world) :
  let turns := S (Z.to_nat max_pages) in
  let final := paginate_run max_pages next_key turns (paginate_start self w) in
  let pages := (paginate self max_pages next_key w).1 in
  running final = false
  /\ (forall more,
        paginate_run max_pages next_key (turns + more) (paginate_start self w) = final)
  /\ Z.of_nat (length pages) <= Z.max 0 max_pages
  /\ NoDup (page_url <$> pages)
  /\ (forall s, running s = true ->
        let s' := paginate_step max_pages next_key s in
        (max_pages <= page_count s ->
         running s' = false /\ yielded s' = yielded s)
        /\ (page_url (current_page s) ∈ visited_urls s ->
            running s' = false /\ yielded s' = yielded s)
        /\ (page_count s < max_pages ->
            page_url (current_page s) ∉ visited_urls s ->
            yielded s' = current_page s :: yielded s
            /\ match next_url_of next_key (current_page s) with
               | JStr u =>
                   if is_empty u then running s' = false
                   else
                     match (fetch u (wld s)).1 with
                     | Ok page => running s' = true /\ current_page s' = page
                     | Raise _ => running s' = false
                     end
               | _ => running s' = false
               end)).
Proof.
  intros turns final pages.
  assert (Hfin : running final = false).
  { apply run_finishes. simpl. subst turns. lia. }
  pose proof (run_inv max_pages next_key turns _ (start_inv max_pages self w))
    as [Hlo Hhi Hlen Hvis Hnd].
  fold final in Hlo, Hhi, Hlen, Hvis, Hnd.
  split; [exact Hfin|]. split; [|split; [|split]].
  - intros more. rewrite run_add. now apply run_stopped.
  - subst pages. unfold paginate. fold turns final. simpl.
    rewrite length_reverse. lia.
  - subst pages. unfold paginate. fold turns final. simpl.
    now rewrite fmap_reverse, reverse_Permutation.
  - intros s Hrun s'. subst s'.
    destruct (step_cases max_pages next_key s Hrun)
      as [(Hge & E) | [(Hlt & Hin & E) | (Hlt & Hnew & E)]].
    + rewrite E. split; [now split|]. split; [now split|]. intros; lia.
    + rewrite E. split; [now split|]. split; [now split|]. intros; contradiction.
    + split; [intros; lia|]. split; [intros; contradiction|]. intros _ _.
      destruct (next_url_of next_key (current_page s));
        try (rewrite E; now split).
      destruct (is_empty s0); [rewrite E; now split|].
      destruct (fetch s0 (wld s)) as [[page|e] w']; rewrite E; now repeat split.
Qed.

End Executor.
End Http.

(** ** The download manager ([webpath/downloads.py]) *)

Module Downloads.
Import Str Py Http.

(** The files of the file system, by path. *)
Abbreviation files := (gmap string string).

(** What [hashlib.new(name)] constructs: an algorithm with a digest of fixed
    length, given by its digest function (bytes to bytes), or an
    extendable-output function ([shake_128], [shake_256]), whose digest takes
    the length wanted as an argument. *)
Inductive hash_kind : Type :=
| FixedLength (digest : string -> string)
| ExtendableOutput (digest : nat -> string -> string).

(** A [hashlib] object: its algorithm and the bytes fed to it so far. *)
Record hasher : Type := mkHasher {
  h_kind : hash_kind;
  h_data : string
}.

Definition update (h : hasher) (block : string) : hasher :=
  mkHasher (h_kind h) (h_data h +:+ block).

Definition hex_low (n : nat) : ascii :=
  nth n (list_ascii_of_string "0123456789abcdef") (ch 48).

(** Two lower-case hexadecimal digits for every byte. *)
Fixpoint hexlify (bytes : string) : string :=
  match bytes with
  | EmptyString => EmptyString
  | String c rest =>
      String (hex_low (code c / 16)) (String (hex_low (code c mod 16)) (hexlify rest))
  end.

(** [h.hexdigest()], called without an argument: [TypeError] for an
    extendable-output function, which needs the length. *)
Definition hexdigest (h : hasher) : result string :=
  match h_kind h with
  | FixedLength digest => Ok (hexlify (digest (h_data h)))
  | ExtendableOutput _ =>
      Raise (Exn TypeError "hexdigest() missing required argument 'length' (pos 1)")
  end.

(** [Path(dest).name]: the last component of the path. *)
Definition path_name (dest : string) : string :=
  after_last slash (rstrip is_slash dest).

(** [if checksum]: [None] and the empty string count as no checksum. *)
Definition supplied (checksum : option string) : bool :=
  match checksum with
  | Some c => negb (is_empty c)
  | None => false
  end.

(** [r.raise_for_status()]. *)
Definition raise_for_status (r : WebResponse) : result unit :=
  if (400 <=? status_code (_response r)) && (status_code (_response r) <? 600)
  then Raise (Exn RequestsHTTPError (of_Z (status_code (_response r)) +:+ " Error"))
  else Ok tt.

(** [int(r.headers.get("content-length", 0))]; [None] is [ValueError].  The
    headers of a transport response ignore case, those of a cached one do
    not. *)
Definition content_length (r : WebResponse) : option Z :=
  match _response r with
  | Live resp =>
      match header_get (resp_headers resp) "content-length" with
      | Some v => int_of_string v
      | None => Some 0
      end
  | Cached c =>
      match List.find (fun kv => String.eqb kv.1 "content-length") (Cache.headers c) with
      | Some kv => int_of_string kv.2
      | None => Some 0
      end
  end.

(** The [for] loop over [r.iter_content(chunk)]: the bytes in the file and
    the state of the hasher when the stream ends or raises. *)
Fixpoint write_blocks (stream : list chunk) (written : string) (h : option hasher)
  : string * option hasher * option exn :=
  match stream with
  | [] => (written, h, None)
  | Block block :: rest =>
      if negb (is_empty block)
      then write_blocks rest (written +:+ block) (option_map (fun h => update h block) h)
      else write_blocks rest written h
  | Fault e :: _ => (written, h, Some e)
  end.

Section Download.

Variable json_loads : string -> option json.
Variable py_str : json -> string.
Variable transport : world -> net_call -> result Response * Q.

(** [hashlib.new(name)]: the algorithm of that name, [None] for a name the
    library does not know. *)
Variable hashlib_new : string -> option hash_kind.

(** [dest.open("wb")]: the exception it raises for a path, if any. *)
Variable open_error : string -> option exn.

(** [hashlib.new(algorithm) if checksum else None]. *)
Definition new_hasher (checksum : option string) (algorithm : string)
  : result (option hasher) :=
  if supplied checksum
  then match hashlib_new algorithm with
       | Some kind => Ok (Some (mkHasher kind ""))
       | None => Raise (Exn ValueError ("unsupported hash type " +:+ algorithm))
       end
  else Ok None.

(** The call of [http_request] that [download_file] makes. *)
Definition request (t : target) (retries : option Z) (backoff : Q) (req_kw : kwargs)
    (w : world) : result WebResponse * world :=
  http_request json_loads py_str transport "get" t retries backoff 0 None
    (mkKwargs (kw_timeout req_kw) (kw_headers req_kw) true) w.

(** The [try] block of [download_file]: the hasher after the stream, or
    the exception that ended the block; the world and the files either way. *)
Definition try_block (t : target) (dest : string) (retries : option Z) (backoff : Q)
    (checksum : option string) (algorithm : string) (req_kw : kwargs)
    (w : world) (fs : files) : result (option hasher) * world * files :=
  match request t retries backoff req_kw w with
  | (Raise e, w) => (Raise e, w, fs)
  | (Ok r, w) =>
      match raise_for_status r with
      | Raise e => (Raise e, w, fs)
      | Ok _ =>
          match content_length r with
          | None => (Raise (Exn ValueError "invalid literal for int() with base 10"), w, fs)
          | Some total =>
              match new_hasher checksum algorithm with
              | Raise e => (Raise e, w, fs)
              | Ok h =>
                  match open_error dest with
                  | Some e => (Raise e, w, fs)
                  | None =>
                      let fs := <[dest := ""]> fs in
                      match _response r with
                      | Cached _ =>
                          (Raise (Exn AttributeError
                                    "'CachedResponse' object has no attribute 'iter_content'"),
                           w, fs)
                      | Live resp =>
                          let '(written, h, fault) := write_blocks (resp_stream resp) "" h in
                          let fs := <[dest := written]> fs in
                          match fault with
                          | Some e => (Raise e, w, fs)
                          | None => (Ok h, w, fs)
                          end
                      end
                  end
              end
          end
      end
  end.

Definition mismatch_message (dest checksum digest : string) : string :=
  "Checksum mismatch for " +:+ path_name dest +:+ ": expected " +:+ checksum
  +:+ ", got " +:+ digest.

(** [download_file(url, dest, retries=, backoff=, checksum=, algorithm=,
    ...)].  The handler of the [try] block names [Exception], the class of
    every exception of this model; the comparison of the digests, and with it
    the call of [hexdigest], comes after the block, out of reach of the
    handler.  The progress bar takes no part in what is written or raised. *)
Definition download_file (t : target) (dest : string) (retries : option Z) (backoff : Q)
    (checksum : option string) (algorithm : string) (req_kw : kwargs)
    (w : world) (fs : files) : result string * world * files :=
  match try_block t dest retries backoff checksum algorithm req_kw w fs with
  | (Raise e, w, fs) =>
      (Raise e, w, if bool_decide (is_Some (fs !! dest)) then delete dest fs else fs)
  | (Ok h, w, fs) =>
      match checksum, h with
      | Some c, Some h =>
          if supplied checksum then
            match hexdigest h with
            | Raise e => (Raise e, w, fs)
            | Ok computed =>
                if negb (String.eqb computed (lower c))
                then (Raise (Exn ValueError (mismatch_message dest c computed)),
                      w, delete dest fs)
                else (Ok dest, w, fs)
            end
          else (Ok dest, w, fs)
      | _, _ => (Ok dest, w, fs)
      end
  end.

(** *** Properties of the download manager *)

Lemma hex_low_lower (n : nat) : lower_ascii (hex_low n) = hex_low n.
Proof. do 17 (destruct n as [|n]; [reflexivity|]). reflexivity. Qed.

(** A hexadecimal digest is in lower case. *)
Lemma hexlify_lower (bytes : string) : lower (hexlify bytes) = hexlify bytes.
Proof.
  induction bytes as [|c rest IH]; [reflexivity|].
  simpl. now rewrite !hex_low_lower, IH.
Qed.

Lemma write_blocks_hasher (stream : list chunk) (kind : hash_kind)
    (written : string) :
  exists written' fault,
    write_blocks stream written (Some (mkHasher kind written))
    = (written', Some (mkHasher kind written'), fault).
Proof.
  revert written. induction stream as [|[block|e] rest IH]; intros written; simpl.
  - now eexists _, _.
  - destruct (is_empty block); simpl; [apply IH|].
    unfold update. simpl. apply IH.
  - now eexists _, _.
Qed.

Lemma write_blocks_no_hasher (stream : list chunk) (written : string) :
  (write_blocks stream written None).1.2 = None.
Proof.
  revert written. induction stream as [|[block|e] rest IH]; intros written; simpl;
    [reflexivity| |reflexivity].
  destruct (is_empty block); simpl; apply IH.
Qed.

(** The handler of [download_file] leaves no file at the destination. *)
Lemma unlink_if_exists (dest : string) (fs : files) :
  (if bool_decide (is_Some (fs !! dest)) then delete dest fs else fs) !! dest = None.
Proof.
  case_bool_decide as H.
  - apply lookup_delete_eq.
  - now apply eq_None_not_Some.
Qed.

Lemma unlink_existing (dest : string) (fs : files) (old : string) :
  fs !! dest = Some old ->
  (if bool_decide (is_Some (fs !! dest)) then delete dest fs else fs) = delete dest fs.
Proof. intros H. rewrite bool_decide_eq_true_2; [reflexivity|]. now rewrite H. Qed.

(** The [try] block once the stream is open. *)
Lemma try_block_streams t dest retries backoff checksum algorithm req_kw w fs
    r w1 resp total h0 :
  request t retries backoff req_kw w = (Ok r, w1) ->
  _response r = Live resp ->
  raise_for_status r = Ok tt ->
  content_length r = Some total ->
  new_hasher checksum algorithm = Ok h0 ->
  open_error dest = None ->
  try_block t dest retries backoff checksum algorithm req_kw w fs
  = (match (write_blocks (resp_stream resp) "" h0).2 with
     | Some e => Raise e
     | None => Ok (write_blocks (resp_stream resp) "" h0).1.2
     end, w1, <[dest := (write_blocks (resp_stream resp) "" h0).1.1]> fs).
Proof.
  intros Hr Hl Hs Hc Hh Ho. unfold try_block.
  rewrite Hr, Hs, Hc, Hh, Ho, Hl.
  destruct (write_blocks _ _ _) as [[written h] [e|]]; simpl;
    now rewrite insert_insert_eq.
Qed.



End Download.
End Downloads.

(** ** Splitting and joining strings *)

Module SplitFacts.
Import Str StrFacts Py.

(** [sep.join(parts)]. *)
Fixpoint join (sep : string) (parts : list string) : string :=
  match parts with
  | [] => EmptyString
  | [part] => part
  | part :: rest => part +:+ sep +:+ join sep rest
  end.

Lemma split_on_cons (c a : ascii) (s : string) :
  exists first more,
    split_on c s = first :: more
    /\ split_on c (String a s)
       = if Ascii.eqb a c then EmptyString :: first :: more else String a first :: more.
Proof.
  revert a. induction s as [|b s IH]; intros a.
  - exists EmptyString, []. split; reflexivity.
  - destruct (IH b) as (first & more & H1 & H2).
    change (split_on c (String a (String b s)))
      with (match split_on c (String b s) with
            | first :: more =>
                if Ascii.eqb a c then EmptyString :: first :: more
                else String a first :: more
            | [] => []
            end).
    rewrite H2. destruct (Ascii.eqb b c); eexists _, _; split; reflexivity.
Qed.

Lemma split_on_app (c : ascii) (a b : string) :
  split_on c (a +:+ String c b) = split_on c a ++ split_on c b.
Proof.
  induction a as [|x a IH].
  - destruct (split_on_cons c c b) as (first & more & H1 & H2).
    simpl append. rewrite H2, H1, Ascii.eqb_refl. reflexivity.
  - destruct (split_on_cons c x (a +:+ String c b)) as (first & more & H1 & H2).
    destruct (split_on_cons c x a) as (first' & more' & H1' & H2').
    simpl append. rewrite H2, H2'. rewrite H1, H1' in IH.
    injection IH as -> ->. now destruct (Ascii.eqb x c).
Qed.

Lemma split_on_whole (c : ascii) (s : string) : mem c s = false -> split_on c s = [s].
Proof.
  induction s as [|a s IH]; [reflexivity|]. simpl mem.
  intros H%orb_false_iff. destruct H as [Ha Hs].
  destruct (split_on_cons c a s) as (first & more & H1 & H2).
  rewrite H2, Ha. rewrite (IH Hs) in H1. now injection H1 as <- <-.
Qed.

Lemma split_on_nonempty (c : ascii) (s : string) : split_on c s <> [].
Proof.
  destruct s as [|a s]; [discriminate|].
  destruct (split_on_cons c a s) as (first & more & _ & ->).
  now destruct (Ascii.eqb a c).
Qed.

(** Joining what a split gives restores the string. *)
Lemma join_split_on (c : ascii) (s : string) :
  join (String c EmptyString) (split_on c s) = s.
Proof.
  induction s as [|a s IH]; [reflexivity|].
  destruct (split_on_cons c a s) as (first & more & H1 & H2).
  rewrite H2. rewrite H1 in IH.
  destruct (Ascii.eqb_spec a c) as [->|Hne].
  - change (join (String c "") ("" :: first :: more))
      with (String c (join (String c "") (first :: more))).
    now rewrite IH.
  - destruct more as [|next more]; [simpl in *; now rewrite IH|].
    change (join (String c "") (String a first :: next :: more))
      with (String a (join (String c "") (first :: next :: more))).
    now rewrite IH.
Qed.

(** No piece of a split holds the separator. *)
Lemma split_on_pieces (c : ascii) (s : string) :
  Forall (fun piece => mem c piece = false) (split_on c s).
Proof.
  induction s as [|a s IH]; [repeat constructor|].
  destruct (split_on_cons c a s) as (first & more & H1 & H2).
  rewrite H2. rewrite H1 in IH. inversion IH as [|? ? Hfirst Hmore]; subst.
  destruct (Ascii.eqb a c) eqn:E; constructor; try assumption.
  - reflexivity.
  - simpl. now rewrite E.
Qed.

Lemma mem_app (c : ascii) (a b : string) : mem c (a +:+ b) = mem c a || mem c b.
Proof. induction a as [|x a IH]; [reflexivity|]. simpl. now rewrite IH, orb_assoc. Qed.

Lemma lstrip_app_keep (f : ascii -> bool) (a b : string) :
  is_empty (lstrip f a) = false -> lstrip f (a +:+ b) = lstrip f a +:+ b.
Proof.
  induction a as [|x a IH]; [discriminate|]. simpl.
  destruct (f x); [exact IH|reflexivity].
Qed.

Lemma lstrip_rstrip (f : ascii -> bool) (s : string) :
  lstrip f (rstrip f s) = rstrip f (lstrip f s).
Proof.
  induction s as [|c s IH]; [reflexivity|]. simpl.
  destruct (f c) eqn:E; simpl.
  - destruct (rstrip f s) as [|x r] eqn:R; simpl.
    + now rewrite <- IH.
    + rewrite E. exact IH.
  - rewrite E. destruct (is_empty (rstrip f s)); simpl; now rewrite ?E.
Qed.

End SplitFacts.

(** ** The rest of the URL builder ([webpath/core.py]) *)

Module Builder.
Import Str StrFacts Py Urllib UrlFacts Core JoinFacts SplitFacts.

Definition dot : ascii := ch 46.

(** [s.strip(chars)]. *)
Definition strip_chars (f : ascii -> bool) (s : string) : string :=
  rstrip f (lstrip f s).

(** [s.rfind(c)]: the index of the last [c]; [None] is [-1]. *)
Fixpoint rfind (c : ascii) (s : string) : option nat :=
  match s with
  | EmptyString => None
  | String a s' =>
      match rfind c s' with
      | Some i => Some (S i)
      | None => if Ascii.eqb a c then Some O else None
      end
  end.

(** [s[n:]]. *)
Fixpoint skip (n : nat) (s : string) : string :=
  match n, s with
  | O, _ => s
  | S n', String _ s' => skip n' s'
  | S _, EmptyString => EmptyString
  end.

(** The [name] property: the last piece of the path without its trailing
    slashes. *)
Definition name (self : WebPath) : string :=
  List.last (split_on slash (rstrip is_slash (path (_parts self)))) EmptyString.

(** The [suffix] property. *)
Definition suffix (self : WebPath) : string :=
  match rfind dot (name self) with
  | None => EmptyString
  | Some at_dot => skip at_dot (name self)
  end.

(** The [parent] property. *)
Definition parent (self : WebPath) : result WebPath :=
  let parts := split_on slash (rstrip is_slash (path (_parts self))) in
  let joined := join "/" (removelast parts) in
  let parent_path := if negb (is_empty joined) then joined else "/" in
  _replace_path self parent_path.

(** [list(self)]: what [__iter__] yields. *)
Definition segments (self : WebPath) : list string :=
  split_on slash (strip_chars is_slash (path (_parts self))).

(** [_replace] with its keyword patch, for any patch of the parts. *)
Definition _replace (self : WebPath) (patch : SplitResult -> SplitResult) : result WebPath :=
  let parts := patch (_parts self) in
  let u := urlunsplit parts in
  let u := if _trailing_slash self && negb (endswith slash u) then u +:+ "/" else u in
  match urlsplit u with
  | Raise e => Raise e
  | Ok parts' => _clone self (set_url_parts u parts')
  end.

(** [without_query()] and [with_fragment(tag)]. *)
Definition without_query (self : WebPath) : result WebPath :=
  _replace self (fun p => mkSplit (scheme p) (netloc p) (path p) "" (fragment p)).

Definition with_fragment (self : WebPath) (tag : string) : result WebPath :=
  _replace self (fun p => mkSplit (scheme p) (netloc p) (path p) (query p) (quote tag)).

(** [ensure_trailing_slash()]. *)
Definition ensure_trailing_slash (self : WebPath) : result WebPath :=
  if endswith slash (_url self) then Ok self else init (_url self +:+ "/").

(** [d[k] = v] and [d.update(other)] on the items of a dict, in insertion
    order: a key that is present keeps its place. *)
Fixpoint dict_set (d : list (string * string)) (k v : string) : list (string * string) :=
  match d with
  | [] => [(k, v)]
  | (k', v') :: rest =>
      if String.eqb k' k then (k', v) :: rest else (k', v') :: dict_set rest k v
  end.

Definition dict_update (d other : list (string * string)) : list (string * string) :=
  fold_left (fun acc kv => dict_set acc kv.1 kv.2) other d.

(** [d.get(k)]. *)
Fixpoint dict_lookup (d : list (string * string)) (k : string) : option string :=
  match d with
  | [] => None
  | (k', v) :: rest => if String.eqb k' k then Some v else dict_lookup rest k
  end.

(** [with_headers] with its keyword arguments, in the order given. *)
Definition with_headers (self : WebPath) (headers : list (string * string))
  : result WebPath :=
  let new_headers := dict_update (_default_headers self) headers in
  _clone self (fun w =>
    {| _url := _url w; _parts := _parts w; _trailing_slash := _trailing_slash w;
       _cache_config := _cache_config w; _allow_auto_follow := _allow_auto_follow w;
       _enable_logging := _enable_logging w; _rate_limit := _rate_limit w;
       _last_request_time := _last_request_time w;
       _default_headers := new_headers;
       _retries := _retries w; _backoff := _backoff w; _jitter := _jitter w;
       _timeout := _timeout w; _session := _session w |}).

(** [with_retries(retries, backoff, jitter)]; [retries] may be [None]. *)
Definition with_retries (self : WebPath) (retries : option Z) (backoff jitter : Q)
  : result WebPath :=
  _clone self (fun w =>
    {| _url := _url w; _parts := _parts w; _trailing_slash := _trailing_slash w;
       _cache_config := _cache_config w; _allow_auto_follow := _allow_auto_follow w;
       _enable_logging := _enable_logging w; _rate_limit := _rate_limit w;
       _last_request_time := _last_request_time w;
       _default_headers := _default_headers w;
       _retries := retries; _backoff := backoff; _jitter := jitter;
       _timeout := _timeout w; _session := _session w |}).

(** The [port] property: [None] when the netloc holds no colon. *)
Definition port (self : WebPath) : option string :=
  if mem colon (netloc (_parts self))
  then Some (after_last colon (netloc (_parts self)))
  else None.

(** The argument that the [host] property hands to [_idna]:
    [netloc.split("@")[-1].split(":")[0]]. *)
Definition host_text (self : WebPath) : string :=
  hd EmptyString
     (split_on colon (List.last (split_on at_sign (netloc (_parts self))) EmptyString)).

(** *** The IDNA cache *)

(** [_IDNA_CACHE], an [OrderedDict]: its items, oldest first. *)
Definition idna_cache : Type := list (string * string).

Definition _IDNA_CACHE_MAX_SIZE : nat := 1000.

(** [cache.move_to_end(key)] for a key that is present with value [v]. *)
Definition move_to_end (cache : idna_cache) (key v : string) : idna_cache :=
  List.filter (fun kv => negb (String.eqb kv.1 key)) cache ++ [(key, v)].

Section Idna.

(** [netloc.encode("idna").decode("ascii")]; [None] is [UnicodeError]. *)
Variable idna_encode : string -> option string.

(** [_idna(netloc)]: the result and the cache afterwards. *)
Definition _idna (cache : idna_cache) (netloc : string) : string * idna_cache :=
  match dict_lookup cache netloc with
  | Some found => (found, move_to_end cache netloc found)
  | None =>
      let ascii_netloc :=
        match idna_encode netloc with
        | Some encoded => encoded
        | None => netloc
        end in
      let cache :=
        if (_IDNA_CACHE_MAX_SIZE <=? length cache)%nat then tl cache else cache in
      (ascii_netloc, cache ++ [(netloc, ascii_netloc)])
  end.

(** The [host] property. *)
Definition host (self : WebPath) (cache : idna_cache) : string * idna_cache :=
  _idna cache (host_text self).

End Idna.

(** *** Names, parents and segments of joined URLs *)

Lemma quote_char_no_slash (c : ascii) :
  is_slash c = false -> mem slash (quote_char c) = false.
Proof. by_cases_on c. Qed.

Lemma quote_no_slash (s : string) : mem slash s = false -> mem slash (quote s) = false.
Proof.
  induction s as [|c s IH]; [reflexivity|]. simpl.
  intros H%orb_false_iff. destruct H as [Hc Hs].
  rewrite mem_app, (quote_char_no_slash c Hc), (IH Hs). reflexivity.
Qed.

Lemma quote_char_nonempty (c : ascii) : is_empty (quote_char c) = false.
Proof. unfold quote_char. now destruct (quote_safe c). Qed.

Lemma quote_nonempty (s : string) : is_empty s = false -> is_empty (quote s) = false.
Proof.
  destruct s as [|c s]; [discriminate|]. intros _. simpl.
  now rewrite is_empty_app, quote_char_nonempty.
Qed.

Lemma lstrip_no_slash (s : string) : mem slash s = false -> lstrip is_slash s = s.
Proof.
  destruct s as [|c s]; [reflexivity|]. simpl.
  intros H%orb_false_iff. destruct H as [Hc _]. unfold is_slash. now rewrite Hc.
Qed.

Lemma last_no_slash (s : string) (c : ascii) :
  mem slash s = false -> last s = Some c -> is_slash c = false.
Proof.
  induction s as [|a s IH]; [discriminate|]. simpl mem. rewrite last_cons.
  intros H%orb_false_iff. destruct H as [Ha Hs]. destruct s.
  - now intros [= <-].
  - now apply IH.
Qed.

(** The path after joining a segment that is not empty and holds no slash;
    [q] is the encoded segment. *)
Lemma join_path_plain (pth segment : string) :
  is_empty segment = false -> mem slash segment = false ->
  let q := quote segment in
  join_path pth segment = rstrip is_slash pth +:+ String slash q
  /\ is_empty q = false
  /\ mem slash q = false
  /\ rstrip is_slash (rstrip is_slash pth +:+ String slash q)
     = rstrip is_slash pth +:+ String slash q
  /\ split_on slash (rstrip is_slash pth +:+ String slash q)
     = split_on slash (rstrip is_slash pth) ++ [q].
Proof.
  intros Hne Hns q.
  pose proof (quote_nonempty _ Hne) as Hq1. pose proof (quote_no_slash _ Hns) as Hq2.
  fold q in Hq1, Hq2.
  split; [unfold join_path; now rewrite (lstrip_no_slash _ Hns)|].
  split; [exact Hq1|]. split; [exact Hq2|]. split.
  - destruct (last_nonempty _ Hq1) as [c Hc].
    apply (rstrip_fixed is_slash _ c).
    + rewrite last_app_r by reflexivity.
      change (String slash q) with ("/" +:+ q). now rewrite last_app_r.
    + exact (last_no_slash _ _ Hq2 Hc).
  - now rewrite split_on_app, (split_on_whole _ _ Hq2).
Qed.

(** X1.  After joining a segment that is not empty and holds no slash,
    the name of the URL is the percent-encoded segment. *)
Theorem name_of_join_is_segment (base segment : string) (u : WebPath) :
  init base = Ok u ->
  is_empty segment = false ->
  mem slash segment = false ->
  exists joined, truediv u segment = Ok joined /\ name joined = quote segment.
Proof.
  intros Hi Hne Hns.
  destruct (truediv_good u segment (init_good base u Hi)) as (joined & Hdiv & _ & Hpath).
  exists joined. split; [exact Hdiv|].
  destruct (join_path_plain (path (_parts u)) segment Hne Hns) as (E1 & _ & _ & E2 & E3).
  unfold name. rewrite Hpath, E1, E2, E3. apply last_last.
Qed.

(** The parts of a URL after a slash is appended to its text. *)
Definition slashed (p : SplitResult) : SplitResult :=
  if is_empty (query p) && is_empty (fragment p)
  then with_path p (path p +:+ "/")
  else add_slash p.

Lemma slashed_unsplit (p : SplitResult) :
  wf_parts p -> wf_parts (slashed p) /\ urlunsplit p +:+ "/" = urlunsplit (slashed p).
Proof.
  intros Hwf. unfold slashed.
  destruct (is_empty (query p)) eqn:Eq; [destruct (is_empty (fragment p)) eqn:Ef|]; simpl.
  - assert (Hwf' : wf_parts (with_path p (path p +:+ "/"))).
    { apply with_path_wf; [exact Hwf| |].
      - rewrite forallb_app, (wf_path _ Hwf). reflexivity.
      - right. destruct (wf_rooted _ Hwf) as [-> | H]; [reflexivity|].
        destruct (path p) as [|c pth]; [discriminate|].
        apply startswith_slash_head, Ascii.eqb_eq in H. subst c.
        apply startswith_slash_cons. }
    split; [exact Hwf'|].
    rewrite (urlunsplit_shape p (wf_scheme _ Hwf) (nl_nonempty _ (wf_nl _ Hwf))
               (wf_rooted _ Hwf)).
    rewrite (urlunsplit_shape _ (wf_scheme _ Hwf') (nl_nonempty _ (wf_nl _ Hwf'))
               (wf_rooted _ Hwf')).
    unfold with_path. cbn [scheme netloc path query fragment].
    destruct (query p); [|discriminate]. destruct (fragment p); [|discriminate].
    change (tail_of "" "") with "". now rewrite !append_nil_r, !append_assoc.
  - split; [now apply add_slash_wf|]. apply add_slash_unsplit; [exact Hwf|now right].
  - split; [now apply add_slash_wf|]. apply add_slash_unsplit; [exact Hwf|now left].
Qed.

Lemma slashed_with_tail (p : SplitResult) :
  has_tail p ->
  path (slashed p) = path p
  /\ (query (slashed p) = query p \/ query (slashed p) = query p +:+ "/").
Proof.
  unfold has_tail, slashed, add_slash. intros H.
  destruct (is_empty (query p)) eqn:Eq; destruct (is_empty (fragment p)) eqn:Ef;
    simpl; auto.
  destruct H; congruence.
Qed.

(** [_replace] on a good object, for a patch that keeps the parts well
    formed: the parts of the result are the patched ones, with a slash
    appended when the trailing-slash flag asks for one. *)
Lemma replace_ok (u : WebPath) (patch : SplitResult -> SplitResult) :
  good u ->
  wf_parts (patch (_parts u)) ->
  let parts1 := patch (_parts u) in
  let parts2 := if _trailing_slash u && negb (endswith slash (urlunsplit parts1))
                then slashed parts1 else parts1 in
  exists fresh,
    init (_url u) = Ok fresh
    /\ _replace u patch
       = Ok (set_url_parts (urlunsplit parts2) parts2 (copy_config u fresh))
    /\ wf_parts parts2.
Proof.
  intros [Hwf Hflag (fresh & Hinit & Hfresh)] Hwf1 parts1 parts2.
  assert (Hurl : (if _trailing_slash u && negb (endswith slash (urlunsplit parts1))
                  then urlunsplit parts1 +:+ "/" else urlunsplit parts1)
                 = urlunsplit parts2).
  { subst parts2. destruct (_ && _); [|reflexivity].
    apply (slashed_unsplit parts1 Hwf1). }
  assert (Hwf2 : wf_parts parts2).
  { subst parts2. destruct (_ && _); [apply (slashed_unsplit parts1 Hwf1)|exact Hwf1]. }
  exists fresh. split; [exact Hinit|]. split; [|exact Hwf2].
  unfold _replace. fold parts1. cbv zeta. rewrite Hurl.
  rewrite (urlsplit_urlunsplit _ Hwf2). unfold _clone. now rewrite Hinit.
Qed.

Lemma slashed_keeps (p : SplitResult) :
  scheme (slashed p) = scheme p /\ netloc (slashed p) = netloc p.
Proof.
  unfold slashed, add_slash.
  destruct (is_empty (query p) && is_empty (fragment p)); [now split|].
  destruct (is_empty (fragment p)); now split.
Qed.

Lemma replace_path_is_replace (self : WebPath) (pth : string) :
  _replace_path self pth = _replace self (fun p => with_path p pth).
Proof. reflexivity. Qed.

Lemma rstrip_rooted (pth : string) :
  path_rooted pth -> path_rooted (rstrip is_slash pth).
Proof.
  intros [-> | H]; [now left|].
  destruct pth as [|c pth]; [discriminate|].
  apply startswith_slash_head, Ascii.eqb_eq in H. subst c.
  destruct (rstrip_keeps_head is_slash slash pth) as [-> | (r & ->)]; [now left|].
  right. apply startswith_slash_cons.
Qed.

(** A join keeps the scheme and the netloc. *)
Lemma truediv_keeps (u : WebPath) (segment : string) :
  good u ->
  exists joined,
    truediv u segment = Ok joined
    /\ good joined
    /\ path (_parts joined) = join_path (path (_parts u)) segment
    /\ scheme (_parts joined) = scheme (_parts u)
    /\ netloc (_parts joined) = netloc (_parts u).
Proof.
  intros Hg. destruct (truediv_good u segment Hg) as (joined & Hdiv & Hgj & Hpath).
  exists joined. split; [exact Hdiv|]. split; [exact Hgj|]. split; [exact Hpath|].
  pose proof Hdiv as Hdiv'. unfold truediv in Hdiv'.
  rewrite new_path_is_join_path, replace_path_is_replace in Hdiv'.
  destruct (replace_ok u (fun p => with_path p (join_path (path (_parts u)) segment)) Hg)
    as (fresh & _ & Hrep & _).
  { apply with_path_wf; [exact (good_parts _ Hg)| |].
    - apply join_path_chars, (wf_path _ (good_parts _ Hg)).
    - right. apply join_path_rooted, (wf_rooted _ (good_parts _ Hg)). }
  rewrite Hrep in Hdiv'. injection Hdiv' as <-. cbn [_parts set_url_parts].
  destruct (_ && _); [|now split].
  destruct (slashed_keeps (with_path (_parts u) (join_path (path (_parts u)) segment)))
    as [-> ->]. now split.
Qed.

(** X2.  Joining a segment that is not empty and holds no slash and
    then taking the parent gives back the path joined to, without its
    trailing slashes; the root when nothing is left of it. *)
Theorem parent_undoes_join (base segment : string) (u : WebPath) :
  init base = Ok u ->
  is_empty segment = false ->
  mem slash segment = false ->
  exists joined back,
    truediv u segment = Ok joined
    /\ parent joined = Ok back
    /\ path (_parts back)
       = (if is_empty (rstrip is_slash (path (_parts u))) then "/"
          else rstrip is_slash (path (_parts u)))
    /\ scheme (_parts back) = scheme (_parts u)
    /\ netloc (_parts back) = netloc (_parts u).
Proof.
  intros Hi Hne Hns. pose proof (init_good base u Hi) as Hgu.
  destruct (truediv_keeps u segment Hgu) as (joined & Hdiv & Hg & Hpath & Hsch & Hnl).
  destruct (join_path_plain (path (_parts u)) segment Hne Hns) as (E1 & _ & _ & E2 & E3).
  set (a := rstrip is_slash (path (_parts u))) in *.
  set (pp := if is_empty a then "/" else a).
  assert (Hparent : parent joined = _replace joined (fun p => with_path p pp)).
  { unfold parent. rewrite Hpath, E1, E2, E3, removelast_last.
    change "/" with (String slash EmptyString) at 1 2.
    rewrite join_split_on. subst pp. now destruct (is_empty a). }
  assert (Hwf1 : wf_parts (with_path (_parts joined) pp)).
  { apply with_path_wf; [exact (good_parts _ Hg)| |].
    - subst pp. destruct (is_empty a); [reflexivity|].
      apply rstrip_forallb, (wf_path _ (good_parts _ Hgu)).
    - subst pp. destruct (is_empty a) eqn:Ea; [now right|].
      destruct (rstrip_rooted _ (wf_rooted _ (good_parts _ Hgu))) as [E|E]; [|now right].
      fold a in E. now rewrite E in Ea. }
  destruct (replace_ok joined (fun p => with_path p pp) Hg Hwf1)
    as (fresh & _ & Hrep & _).
  rewrite <- Hparent in Hrep. eexists joined, _. split; [exact Hdiv|].
  split; [exact Hrep|]. cbn [_parts set_url_parts].
  destruct (_trailing_slash joined && _) eqn:Ef.
  - apply andb_true_iff in Ef as [Ef _].
    pose proof (good_flag _ Hg Ef) as Ht.
    destruct (slashed_with_tail (with_path (_parts joined) pp) Ht) as [-> _].
    destruct (slashed_keeps (with_path (_parts joined) pp)) as [-> ->].
    now repeat split.
  - now repeat split.
Qed.

Lemma rfind_spec (c : ascii) (s : string) :
  match rfind c s with
  | None => mem c s = false
  | Some i =>
      exists a b, s = a +:+ String c b /\ mem c b = false /\ skip i s = String c b
  end.
Proof.
  induction s as [|x s IH]; [reflexivity|]. simpl.
  destruct (rfind c s) as [i|].
  - destruct IH as (a & b & -> & Hb & Hs). exists (String x a), b. now repeat split.
  - destruct (Ascii.eqb_spec x c) as [->|Hne].
    + exists EmptyString, s. now repeat split.
    + now rewrite IH.
Qed.

(** X3.  The suffix of a URL is empty when its name holds no dot;
    otherwise the name ends with the suffix, which is the last dot of the
    name and what follows it. *)
Theorem suffix_splits_name (u : WebPath) :
  (mem dot (name u) = false /\ suffix u = EmptyString)
  \/ exists stem ext,
       name u = stem +:+ String dot ext
       /\ suffix u = String dot ext
       /\ mem dot ext = false.
Proof.
  unfold suffix. pose proof (rfind_spec dot (name u)) as H.
  destruct (rfind dot (name u)) as [i|].
  - right. destruct H as (a & b & Hn & Hb & Hs). exists a, b. now repeat split.
  - left. now split.
Qed.

Lemma strip_chars_join (pth q : string) :
  is_empty q = false -> mem slash q = false ->
  strip_chars is_slash (rstrip is_slash pth +:+ String slash q)
  = if is_empty (strip_chars is_slash pth) then q
    else strip_chars is_slash pth +:+ String slash q.
Proof.
  intros Hq1 Hq2. unfold strip_chars. rewrite <- (lstrip_rstrip is_slash pth).
  destruct (last_nonempty _ Hq1) as [c Hc].
  pose proof (last_no_slash _ _ Hq2 Hc) as Hcs.
  assert (Hq : lstrip is_slash (String slash q) = q).
  { simpl. destruct q as [|x q]; [discriminate|]. simpl in Hq2 |- *.
    apply orb_false_iff in Hq2 as [Hx _]. unfold is_slash. now rewrite Hx. }
  destruct (is_empty (lstrip is_slash (rstrip is_slash pth))) eqn:E.
  - assert (Ha : lstrip is_slash (rstrip is_slash pth +:+ String slash q) = q).
    { destruct (rstrip is_slash pth) as [|x r] eqn:R; [exact Hq|].
      exfalso.
      destruct (last_nonempty (String x r) eq_refl) as [y Hy].
      rewrite <- R in Hy. pose proof (rstrip_last _ _ _ Hy) as Hys. rewrite R in Hy.
      clear R. revert x Hy E. induction r as [|z r IH]; intros x Hy E.
      - injection Hy as ->. simpl in E. now rewrite Hys in E.
      - simpl in E. destruct (is_slash x); [|discriminate].
        apply (IH z); [now rewrite last_cons in Hy|exact E]. }
    rewrite Ha. exact (rstrip_fixed _ _ c Hc Hcs).
  - rewrite (lstrip_app_keep _ _ _ E).
    apply (rstrip_fixed is_slash _ c); [|exact Hcs].
    rewrite last_app_r by reflexivity.
    change (String slash q) with ("/" +:+ q). now rewrite last_app_r.
Qed.

(** X4.  Iterating a URL yields the pieces of its path between
    slashes, leading and trailing slashes apart: no piece holds a slash and
    the pieces joined by slashes give the path back.  After joining a
    segment that is not empty and holds no slash, the pieces are those of the
    URL joined to (none when its path holds only slashes) and the
    percent-encoded segment. *)
Theorem segments_of_join (base segment : string) (u : WebPath) :
  init base = Ok u ->
  is_empty segment = false ->
  mem slash segment = false ->
  join "/" (segments u) = strip_chars is_slash (path (_parts u))
  /\ Forall (fun piece => mem slash piece = false) (segments u)
  /\ exists joined,
       truediv u segment = Ok joined
       /\ segments joined
          = (if is_empty (strip_chars is_slash (path (_parts u))) then []
             else segments u) ++ [quote segment].
Proof.
  intros Hi Hne Hns. split; [apply (join_split_on slash)|].
  split; [apply split_on_pieces|].
  destruct (truediv_keeps u segment (init_good base u Hi)) as (joined & Hdiv & _ & Hpath & _).
  exists joined. split; [exact Hdiv|].
  destruct (join_path_plain (path (_parts u)) segment Hne Hns) as (E1 & Hq1 & Hq2 & _).
  unfold segments. rewrite Hpath, E1, (strip_chars_join _ _ Hq1 Hq2).
  destruct (is_empty (strip_chars is_slash (path (_parts u)))).
  - exact (split_on_whole _ _ Hq2).
  - now rewrite split_on_app, (split_on_whole _ _ Hq2).
Qed.

(** *** Appending a slash to the text of a URL *)

Lemma break_app_hit (f : ascii -> bool) (s : string) (c : ascii) (t : string) :
  f c = true ->
  break f (s +:+ String c t) = ((break f s).1, (break f s).2 +:+ String c t).
Proof.
  intros Hc. induction s as [|x s IH]; simpl; [now rewrite Hc|].
  destruct (f x); [reflexivity|]. rewrite IH. now destruct (break f s).
Qed.

Lemma break_app_found (f : ascii -> bool) (s t : string) (x : ascii) (y : string) :
  (break f s).2 = String x y ->
  break f (s +:+ t) = ((break f s).1, String x y +:+ t).
Proof.
  induction s as [|a s IH]; simpl; [discriminate|].
  destruct (f a); simpl; [now intros [= <- <-]|].
  destruct (break f s) as [u v]. simpl in *. intros H. now rewrite (IH H).
Qed.

Lemma partition_app_found (c : ascii) (s t a b : string) :
  partition c s = (a, true, b) -> partition c (s +:+ t) = (a, true, b +:+ t).
Proof.
  unfold partition. destruct (break (Ascii.eqb c) s) as [u v] eqn:E.
  destruct v as [|x y]; [discriminate|]. intros [= <- <-].
  rewrite (break_app_found _ s t x y); [|now rewrite E]. now rewrite E.
Qed.

Lemma split_scheme_app (s t sch rest : string) :
  split_scheme s = (sch, rest) -> is_empty sch = false ->
  split_scheme (s +:+ t) = (sch, rest +:+ t).
Proof.
  unfold split_scheme. destruct (partition colon s) as [[pre found] r] eqn:E.
  destruct pre as [|c0 pre]; [now intros [= <- _]|].
  destruct found; [|now intros [= <- _]].
  rewrite (partition_app_found _ _ t _ _ E).
  destruct (is_alpha c0 && forallb is_scheme_char pre); [|now intros [= <- _]].
  now intros [= <- <-].
Qed.

Lemma split_netloc_app (s nl rest : string) :
  split_netloc s = (nl, rest) -> is_empty nl = false ->
  split_netloc (s +:+ "/") = (nl, rest +:+ "/").
Proof.
  unfold split_netloc. destruct s as [|a [|b s]]; try now intros [= <- _].
  destruct (is_slash a && is_slash b) eqn:Eab; [|now intros [= <- _]].
  intros E _. change (String a (String b s) +:+ "/")
    with (String a (String b (s +:+ String slash EmptyString))).
  cbv iota. rewrite Eab, break_app_hit by reflexivity. now rewrite E.
Qed.

(** [urlsplit] of a URL with a slash appended finds the same scheme and
    netloc. *)
Lemma urlsplit_append_slash (s : string) (p : SplitResult) :
  urlsplit s = Ok p ->
  is_empty (scheme p) = false -> is_empty (netloc p) = false ->
  exists p', urlsplit (s +:+ "/") = Ok p'
             /\ scheme p' = scheme p /\ netloc p' = netloc p.
Proof.
  unfold urlsplit. intros Hu Hs Hn.
  destruct (split_scheme (remove is_unsafe (lstrip is_c0_or_space s)))
    as [sch rest] eqn:E1.
  destruct (split_netloc rest) as [nl s3] eqn:E2.
  destruct (netloc_invalid nl) eqn:Einv; [discriminate|].
  destruct (partition hash s3) as [[a1 f1] frag] eqn:E3.
  destruct (partition qmark a1) as [[pth f2] qry] eqn:E4.
  injection Hu as <-. simpl in Hs, Hn.
  assert (Hl : is_empty (lstrip is_c0_or_space s) = false).
  { destruct (lstrip is_c0_or_space s); [|reflexivity].
    simpl in E1. injection E1 as <- _. discriminate. }
  rewrite (lstrip_app_keep _ _ _ Hl), remove_app.
  change (remove is_unsafe "/") with "/".
  rewrite (split_scheme_app _ _ _ _ E1 Hs), (split_netloc_app _ _ _ E2 Hn), Einv.
  destruct (partition hash (s3 +:+ "/")) as [[a1' f1'] frag'].
  destruct (partition qmark a1') as [[pth' f2'] qry'].
  eexists. split; [reflexivity|]. now split.
Qed.

Lemma strip_fixed_head (s : string) :
  is_empty (strip s) = false ->
  exists c r, strip s = String c r /\ is_space c = false.
Proof.
  unfold strip. destruct (lstrip_shape is_space s) as [-> | (c & s' & -> & Hc)];
    [discriminate|].
  intros _. rewrite (rstrip_head _ _ _ Hc). now eexists _, _.
Qed.

(** The constructor accepts the URL of a constructed object with a slash
    appended, and keeps it as it is. *)
Lemma init_append_slash (base : string) (fresh : WebPath) :
  init base = Ok fresh ->
  exists slashed_url,
    init (_url fresh +:+ "/") = Ok slashed_url
    /\ _url slashed_url = _url fresh +:+ "/".
Proof.
  intros Hi.
  destruct (init_fresh base fresh Hi) as (Hu & Hp & Hs & Hn & _).
  assert (Hne : is_empty (strip base) = false).
  { unfold init in Hi. destruct (is_empty (strip base)); [discriminate|reflexivity]. }
  destruct (strip_fixed_head base Hne) as (c & r & Hhead & Hc).
  assert (Hstrip : strip (strip base +:+ "/") = strip base +:+ "/").
  { unfold strip at 1. rewrite Hhead. simpl append. rewrite (lstrip_head _ _ _ Hc).
    apply (rstrip_fixed is_space _ slash); [|reflexivity].
    change (String c (r +:+ "/")) with (String c r +:+ "/").
    now rewrite last_app_r. }
  assert (Hsch : is_empty (scheme (_parts fresh)) = false).
  { destruct (http_scheme_cases _ Hs) as [-> | ->]; reflexivity. }
  destruct (urlsplit_append_slash _ _ Hp Hsch Hn) as (p' & Hp' & Es & En).
  rewrite Hu. unfold init. rewrite Hstrip, Hp', Es, En, Hsch, Hs, Hn.
  rewrite is_empty_app, Hne. simpl. eexists. split; reflexivity.
Qed.

(** X5.  For a URL object whose URL the constructor accepts
    as it is, whatever its settings: [ensure_trailing_slash] gives a URL that
    ends with a slash and asking again changes nothing; the object itself
    when its URL ends with a slash already; otherwise a fresh object for the
    URL with a slash appended, with none of the settings of the original
    (no headers, cache, rate limit, retries, timeout, session, logging or
    auto-follow). *)
Theorem ensure_trailing_slash_resets_settings (base : string) (fresh u : WebPath) :
  init base = Ok fresh ->
  _url u = _url fresh ->
  exists u',
    ensure_trailing_slash u = Ok u'
    /\ endswith slash (_url u') = true
    /\ ensure_trailing_slash u' = Ok u'
    /\ (endswith slash (_url u) = true -> u' = u)
    /\ (endswith slash (_url u) = false ->
        _url u' = _url u +:+ "/"
        /\ _default_headers u' = [] /\ _cache_config u' = None
        /\ _rate_limit u' = None /\ _retries u' = None /\ _timeout u' = None
        /\ _session u' = None /\ _enable_logging u' = false
        /\ _allow_auto_follow u' = false).
Proof.
  intros Hi Hu. unfold ensure_trailing_slash at 1.
  destruct (endswith slash (_url u)) eqn:E.
  - exists u. split; [reflexivity|]. split; [exact E|].
    split; [unfold ensure_trailing_slash; now rewrite E|].
    split; [reflexivity|discriminate].
  - destruct (init_append_slash base fresh Hi) as (u' & Hi' & Hu').
    rewrite Hu. exists u'. split; [exact Hi'|].
    assert (Hend : endswith slash (_url u') = true).
    { rewrite Hu'. now rewrite endswith_app. }
    split; [exact Hend|]. split; [unfold ensure_trailing_slash; now rewrite Hend|].
    split; [discriminate|]. intros _. split; [exact Hu'|].
    destruct (init_fresh _ _ Hi')
      as (_ & _ & _ & _ & _ & Hc & Hr & Hl & Ha & Hre & Hse & Ht & Hh & _).
    now repeat split.
Qed.

Lemma quoted_is_clean (s : string) : forallb quoted_char s = true -> forallb clean s = true.
Proof. apply forallb_impl. intros c. by_cases_on c. Qed.

(** X6.  On a URL object that the constructor built:
    [without_query] gives a URL with no query and [with_fragment] one whose
    fragment is the percent-encoded tag, both with the scheme, the netloc
    and the settings of the original; the path, and for [with_fragment] the
    query, stay too unless the object carries the trailing-slash flag, which
    appends a slash to the last part of a URL that does not end with one. *)
Theorem without_query_and_with_fragment (base tag : string) (u : WebPath) :
  init base = Ok u ->
  (exists bare,
      without_query u = Ok bare
      /\ query (_parts bare) = ""
      /\ scheme (_parts bare) = scheme (_parts u)
      /\ netloc (_parts bare) = netloc (_parts u)
      /\ (_trailing_slash u = false ->
          path (_parts bare) = path (_parts u)
          /\ fragment (_parts bare) = fragment (_parts u)))
  /\ (exists tagged,
        with_fragment u tag = Ok tagged
        /\ scheme (_parts tagged) = scheme (_parts u)
        /\ netloc (_parts tagged) = netloc (_parts u)
        /\ (fragment (_parts tagged) = quote tag
            \/ (_trailing_slash u = true
                /\ fragment (_parts tagged) = quote tag +:+ "/"))
        /\ (_trailing_slash u = false ->
            path (_parts tagged) = path (_parts u)
            /\ query (_parts tagged) = query (_parts u))).
Proof.
  intros Hi. pose proof (init_good base u Hi) as Hg.
  pose proof (good_parts _ Hg) as [H1 H2 H3 H4 H5 H6]. split.
  - destruct (replace_ok u
                (fun p => mkSplit (scheme p) (netloc p) (path p) "" (fragment p)) Hg)
      as (fresh & _ & Hrep & _); [now constructor|].
    eexists. split; [exact Hrep|]. cbn [_parts set_url_parts].
    destruct (_trailing_slash u); simpl.
    + destruct (negb _); [|now repeat split].
      unfold slashed, add_slash. simpl.
      destruct (is_empty (fragment (_parts u))); now repeat split.
    + now repeat split.
  - destruct (replace_ok u
                (fun p => mkSplit (scheme p) (netloc p) (path p) (query p) (quote tag)) Hg)
      as (fresh & _ & Hrep & _).
    { constructor; try assumption. simpl. apply quoted_is_clean, quote_quoted. }
    eexists. split; [exact Hrep|]. cbn [_parts set_url_parts].
    destruct (_trailing_slash u); simpl.
    + destruct (negb _);
        [|split; [reflexivity|split; [reflexivity|split; [now left|discriminate]]]].
      unfold slashed, add_slash. simpl.
      destruct (is_empty (query (_parts u))); simpl;
        destruct (is_empty (quote tag)) eqn:Eq; simpl;
        (split; [reflexivity|split; [reflexivity|split; [|discriminate]]]);
        try (right; now split).
      * left. now destruct (quote tag).
      * left. now destruct (quote tag).
    + now repeat split; try left.
Qed.

(** *** The constructor *)

Lemma urlsplit_raises_value_error (s : string) (e : exn) :
  urlsplit s = Raise e -> exn_cls e = ValueError.
Proof.
  unfold urlsplit.
  destruct (split_scheme _) as [sch rest].
  destruct (split_netloc rest) as [nl rest'].
  destruct (netloc_invalid nl); [now intros [= <-]|].
  destruct (partition _ rest') as [[a f] frag]. destruct (partition _ a) as [[b g] q].
  discriminate.
Qed.

(** X7.  Whatever the text, the constructor either raises
    [ValueError] or returns an object whose URL is the text without the
    white space around it, with scheme http or https and a netloc that is
    not empty; such an object has no settings, and constructing again from
    its URL gives the same object. *)
Theorem constructor_accepts_only_http_urls (text : string) :
  (forall e, init text = Raise e -> exn_cls e = ValueError)
  /\ (forall p,
        init text = Ok p ->
        _url p = strip text
        /\ is_http_scheme (scheme (_parts p)) = true
        /\ is_empty (netloc (_parts p)) = false
        /\ urlsplit (_url p) = Ok (_parts p)
        /\ _default_headers p = [] /\ _cache_config p = None /\ _rate_limit p = None
        /\ _allow_auto_follow p = false
        /\ init (_url p) = Ok p).
Proof.
  split.
  - intros e. unfold init.
    destruct (is_empty (strip text)); [now intros [= <-]|].
    destruct (urlsplit (strip text)) as [parts|e'] eqn:Eu.
    + destruct (is_empty (scheme parts)); [now intros [= <-]|].
      destruct (negb (is_http_scheme (scheme parts))); [now intros [= <-]|].
      destruct (is_empty (netloc parts)); [now intros [= <-]|discriminate].
    + intros [= <-]. exact (urlsplit_raises_value_error _ _ Eu).
  - intros p Hi.
    destruct (init_fresh text p Hi)
      as (Hu & Hp & Hs & Hn & _ & Hc & Hr & _ & Ha & _ & _ & _ & Hh & _).
    split; [exact Hu|]. split; [exact Hs|]. split; [exact Hn|].
    split; [now rewrite Hu|]. split; [exact Hh|]. split; [exact Hc|].
    split; [exact Hr|]. split; [exact Ha|]. now rewrite Hu, init_strip.
Qed.

(** *** Settings *)

Lemma init_again (base : string) (fresh : WebPath) :
  init base = Ok fresh -> init (_url fresh) = Ok fresh.
Proof.
  intros Hi. destruct (init_fresh base fresh Hi) as (-> & _). now rewrite init_strip.
Qed.

Lemma dict_lookup_set (d : list (string * string)) (k v k' : string) :
  dict_lookup (dict_set d k v) k'
  = if String.eqb k k' then Some v else dict_lookup d k'.
Proof.
  induction d as [|[a b] d IH]; simpl.
  - reflexivity.
  - destruct (String.eqb_spec a k) as [->|Hak]; simpl.
    + now destruct (String.eqb k k').
    + rewrite IH. destruct (String.eqb_spec a k') as [->|Hak']; [|reflexivity].
      destruct (String.eqb_spec k k') as [->|]; [contradiction|reflexivity].
Qed.

Lemma dict_lookup_update (d other : list (string * string)) (k : string) :
  dict_lookup (dict_update d other) k
  = match dict_lookup (rev other) k with
    | Some v => Some v
    | None => dict_lookup d k
    end.
Proof.
  unfold dict_update. revert d. induction other as [|[a b] other IH]; intros d.
  - reflexivity.
  - simpl fold_left. rewrite IH. simpl rev.
    assert (Happ : forall l1 l2,
               dict_lookup (l1 ++ l2) k
               = match dict_lookup l1 k with Some v => Some v | None => dict_lookup l2 k end).
    { induction l1 as [|[x y] l1 IH1]; intros l2; simpl; [reflexivity|].
      destruct (String.eqb x k); [reflexivity|apply IH1]. }
    rewrite Happ. destruct (dict_lookup (rev other) k); [reflexivity|].
    simpl. rewrite dict_lookup_set. now destruct (String.eqb a k).
Qed.

Section Requests.

Variable json_loads : string -> option json.
Variable py_str : json -> string.
Variable transport : Http.world -> Http.net_call -> result Http.Response * Q.

Local Abbreviation get := (Http.get json_loads py_str transport).

(** [_clone] on an object whose URL the constructor accepts as it is. *)
Lemma clone_ok (base : string) (fresh u : WebPath) (updates : WebPath -> WebPath) :
  init base = Ok fresh -> _url u = _url fresh ->
  _clone u updates = Ok (updates (copy_config u fresh)).
Proof. intros Hi Hu. unfold _clone. now rewrite Hu, (init_again base fresh Hi). Qed.

(** The one transport call of a GET that misses the cache. *)
Lemma get_calls (p : WebPath) (w : Http.world) :
  is_http_scheme (scheme (_parts p)) = true ->
  (Http.lookup_cache (Http.TPath p) "get" w).1 = None ->
  Http.net_calls (get p w).2
  = Http.mkCall "get" (_url p)
      (Http.choose_via (_session p) (_retries p) (_backoff p) (_jitter p))
      (Http.mkKwargs (_timeout p) (_default_headers p) false)
    :: Http.net_calls w.
Proof.
  intros Hs Hc. unfold Http.get. rewrite Http.http_request_miss_calls.
  - reflexivity.
  - eexists. split; [reflexivity|exact Hs].
  - exact Hc.
Qed.

(** X8.  On an object whose URL the constructor accepts as it is,
    whatever its settings, [with_headers] succeeds and keeps the URL; a header
    given replaces the default of the same name (the last one given wins)
    and the other defaults stay; and a GET through the new object that
    misses the cache sends exactly the merged headers. *)
Theorem with_headers_are_sent
    (base : string) (fresh u : WebPath) (headers : list (string * string))
    (w : Http.world) :
  init base = Ok fresh ->
  _url u = _url fresh ->
  (Http.lookup_cache (Http.TPath u) "get" w).1 = None ->
  exists u',
    with_headers u headers = Ok u'
    /\ _url u' = _url u
    /\ (forall k,
          dict_lookup (_default_headers u') k
          = match dict_lookup (rev headers) k with
            | Some v => Some v
            | None => dict_lookup (_default_headers u) k
            end)
    /\ Http.net_calls (get u' w).2
       = Http.mkCall "get" (_url u)
           (Http.choose_via (_session u) (_retries u) (_backoff u) (_jitter u))
           (Http.mkKwargs (_timeout u) (_default_headers u') false)
         :: Http.net_calls w.
Proof.
  intros Hi Hu Hc. unfold with_headers. rewrite (clone_ok base fresh u _ Hi Hu).
  eexists. split; [reflexivity|]. cbn [_url _default_headers copy_config].
  split; [now rewrite Hu|]. split; [intros k; apply dict_lookup_update|].
  rewrite get_calls.
  - cbn [_url _default_headers _session _retries _backoff _jitter _timeout copy_config].
    now rewrite Hu.
  - exact (proj1 (proj2 (proj2 (init_fresh base fresh Hi)))).
  - unfold Http.lookup_cache in *. simpl in *. now rewrite <- Hu.
Qed.

(** X9.  On such an object [with_retries] succeeds and keeps the URL
    and the headers; a GET through the new object that misses the cache goes
    through the session of the object when it has one, otherwise through a
    one-off session with the retry adapter for the given count, backoff and
    jitter, and through the plain call when the count is zero or [None]. *)
Theorem with_retries_selects_transport
    (base : string) (fresh u : WebPath) (retries : option Z) (backoff jitter : Q)
    (w : Http.world) :
  init base = Ok fresh ->
  _url u = _url fresh ->
  (Http.lookup_cache (Http.TPath u) "get" w).1 = None ->
  exists u',
    with_retries u retries backoff jitter = Ok u'
    /\ _url u' = _url u
    /\ _default_headers u' = _default_headers u
    /\ Http.net_calls (get u' w).2
       = Http.mkCall "get" (_url u)
           (match _session u with
            | Some s => Http.ViaSession s
            | None =>
                match retries with
                | Some count =>
                    if count =? 0 then Http.ViaRequests
                    else Http.ViaRetryAdapter count backoff jitter
                | None => Http.ViaRequests
                end
            end)
           (Http.mkKwargs (_timeout u) (_default_headers u) false)
         :: Http.net_calls w.
Proof.
  intros Hi Hu Hc. unfold with_retries. rewrite (clone_ok base fresh u _ Hi Hu).
  eexists. split; [reflexivity|]. cbn [_url _default_headers copy_config].
  split; [now rewrite Hu|]. split; [reflexivity|].
  rewrite get_calls.
  - cbn [_url _default_headers _session _retries _backoff _jitter _timeout copy_config].
    now rewrite Hu.
  - exact (proj1 (proj2 (proj2 (init_fresh base fresh Hi)))).
  - unfold Http.lookup_cache in *. simpl in *. now rewrite <- Hu.
Qed.

End Requests.

(** *** Host and port *)

Lemma after_last_app (c : ascii) (s x : string) :
  mem c x = false -> after_last c (s +:+ String c x) = x.
Proof.
  intros Hx. induction s as [|a s IH]; simpl.
  - now rewrite Hx, Ascii.eqb_refl.
  - rewrite mem_app. simpl mem. rewrite Ascii.eqb_refl, orb_true_r. exact IH.
Qed.

Lemma mem_app_hit (c : ascii) (s x : string) : mem c (s +:+ String c x) = true.
Proof. rewrite mem_app. simpl. now rewrite Ascii.eqb_refl, orb_true_r. Qed.

Lemma mem_colon_user (a h : string) :
  mem colon h = false -> mem colon (a +:+ String at_sign h) = mem colon a.
Proof. intros Hh. rewrite mem_app. simpl. now rewrite Hh, orb_false_r. Qed.

Lemma after_last_user (a h : string) :
  mem colon h = false -> mem colon a = true ->
  after_last colon (a +:+ String at_sign h) = after_last colon a +:+ String at_sign h.
Proof.
  intros Hh. induction a as [|c a IH]; [discriminate|]. intros Ha.
  simpl. rewrite (mem_colon_user a h Hh).
  destruct (mem colon a) eqn:Ea; [now apply IH|].
  simpl in Ha. rewrite Ea, orb_false_r in Ha. now rewrite Ha.
Qed.

(** X10.  For a netloc made of an optional user part and "@", a
    host without "@" and ":", and an optional ":" and port without them:
    the text handed to the IDNA encoding is the host; the port is the given
    one; without a port it is [None] when the user part holds no colon, and
    what follows the last colon of the netloc when it does. *)
Theorem host_and_port_split_netloc
    (u : WebPath) (user : option string) (h : string) (p : option string) :
  mem at_sign h = false ->
  mem colon h = false ->
  (forall x, p = Some x -> mem colon x = false /\ mem at_sign x = false) ->
  netloc (_parts u)
  = match user with Some a => a +:+ String at_sign EmptyString | None => EmptyString end
    +:+ h
    +:+ match p with Some x => String colon x | None => EmptyString end ->
  host_text u = h
  /\ (forall x, p = Some x -> port u = Some x)
  /\ (p = None ->
      match user with
      | None => port u = None
      | Some a =>
          port u = if mem colon a
                   then Some (after_last colon a +:+ String at_sign h)
                   else None
      end).
Proof.
  intros Hh1 Hh2 Hp Hn.
  set (hp := h +:+ match p with Some x => String colon x | None => EmptyString end).
  assert (Hhp : mem at_sign hp = false).
  { subst hp. rewrite mem_app, Hh1. destruct p as [x|]; [|reflexivity].
    simpl. now rewrite (proj2 (Hp x eq_refl)). }
  assert (Hlast : List.last (split_on at_sign (netloc (_parts u))) EmptyString = hp).
  { rewrite Hn. fold hp. destruct user as [a|].
    - rewrite append_assoc. simpl append at 2.
      rewrite split_on_app, (split_on_whole _ _ Hhp). apply last_last.
    - simpl append. now rewrite (split_on_whole _ _ Hhp). }
  split; [|split].
  - unfold host_text. rewrite Hlast. subst hp. destruct p as [x|].
    + rewrite split_on_app, (split_on_whole _ _ Hh2). reflexivity.
    + rewrite append_nil_r, (split_on_whole _ _ Hh2). reflexivity.
  - intros x ->. unfold port. rewrite Hn, <- append_assoc.
    now rewrite mem_app_hit, (after_last_app _ _ _ (proj1 (Hp x eq_refl))).
  - intros ->. unfold port. rewrite Hn, append_nil_r. destruct user as [a|].
    + rewrite append_assoc. change (String at_sign "" +:+ h) with (String at_sign h).
      rewrite (mem_colon_user a h Hh2).
      destruct (mem colon a) eqn:Ea; [|reflexivity].
      now rewrite (after_last_user a h Hh2 Ea).
    + simpl append. now rewrite Hh2.
Qed.

(** *** The IDNA cache *)

Section IdnaFacts.

Variable idna_encode : string -> option string.

(** What [_idna] returns without the cache. *)
Definition encoded (netloc : string) : string :=
  match idna_encode netloc with
  | Some a => a
  | None => netloc
  end.

(** What the cache keeps true: no key twice, every value the encoding of its
    key, no more than the maximum number of entries. *)
Record cache_ok (cache : idna_cache) : Prop := mkCacheOk {
  ok_keys : NoDup (map fst cache);
  ok_values : Forall (fun kv => kv.2 = encoded kv.1) cache;
  ok_size : (length cache <= _IDNA_CACHE_MAX_SIZE)%nat
}.

Lemma dict_lookup_In (d : list (string * string)) (k v : string) :
  dict_lookup d k = Some v -> In (k, v) d.
Proof.
  induction d as [|[a b] d IH]; [discriminate|]. simpl.
  destruct (String.eqb_spec a k) as [->|_].
  - intros [= ->]. now left.
  - intros H. right. now apply IH.
Qed.

Lemma dict_lookup_None (d : list (string * string)) (k : string) :
  dict_lookup d k = None -> ~ In k (map fst d).
Proof.
  induction d as [|[a b] d IH]; [intros _ []|]. simpl.
  destruct (String.eqb_spec a k) as [->|Hne]; [discriminate|].
  intros H [E|Hin]; [contradiction|]. now apply IH.
Qed.

Lemma dict_lookup_last (d : list (string * string)) (k v : string) :
  ~ In k (map fst d) -> dict_lookup (d ++ [(k, v)]) k = Some v.
Proof.
  induction d as [|[a b] d IH]; simpl; intros Hn.
  - now rewrite String.eqb_refl.
  - destruct (String.eqb_spec a k) as [->|_]; [exfalso; apply Hn; now left|].
    apply IH. intros H. apply Hn. now right.
Qed.

Lemma filter_key_absent (d : list (string * string)) (k : string) :
  ~ In k (map fst (List.filter (fun kv => negb (String.eqb kv.1 k)) d)).
Proof.
  induction d as [|[a b] d IH]; simpl; [intros []|].
  destruct (String.eqb_spec a k) as [->|Hne]; simpl; [exact IH|].
  intros [E|H]; [contradiction|now apply IH].
Qed.

Lemma filter_keys_nodup (d : list (string * string)) (f : string * string -> bool) :
  NoDup (map fst d) -> NoDup (map fst (List.filter f d)).
Proof.
  induction d as [|[a b] d IH]; simpl; [constructor|].
  intros H. apply NoDup_cons in H as [Ha Hd].
  destruct (f (a, b)); simpl; [|now apply IH].
  apply NoDup_cons. split; [|now apply IH].
  intros Hin. apply Ha. apply list_elem_of_In in Hin. apply list_elem_of_In.
  apply in_map_iff in Hin as ([a' b'] & E & Hin). simpl in E. subst a'.
  apply List.filter_In in Hin as [Hin _]. now apply (in_map fst) in Hin.
Qed.

Lemma filter_shorter (d : list (string * string)) (k v : string) :
  In (k, v) d ->
  (S (length (List.filter (fun kv => negb (String.eqb kv.1 k)) d)) <= length d)%nat.
Proof.
  induction d as [|[a b] d IH]; [intros []|]. simpl.
  intros [[= -> ->]|Hin].
  - rewrite String.eqb_refl. simpl.
    pose proof (List.filter_length_le (fun kv : string * string => negb (String.eqb kv.1 k)) d).
    lia.
  - specialize (IH Hin). destruct (negb (String.eqb a k)); simpl; lia.
Qed.

Lemma nodup_keys_snoc (d : list (string * string)) (k v : string) :
  NoDup (map fst d) -> ~ In k (map fst d) -> NoDup (map fst (d ++ [(k, v)])).
Proof.
  intros Hd Hk. rewrite map_app. apply NoDup_app. split; [exact Hd|]. split.
  - intros x Hx Hin. apply list_elem_of_In in Hx.
    apply list_elem_of_singleton in Hin. simpl in Hin. now subst x.
  - apply NoDup_singleton.
Qed.

(** X11.  With a cache that holds no key twice, only encodings as
    values and at most 1000 entries, [_idna] returns what the encoding
    gives (the netloc itself when the encoding fails), cached or not; the
    cache afterwards is such a cache again, and the netloc is its newest
    entry. *)
Theorem idna_cache_is_transparent_and_bounded (cache : idna_cache) (netloc : string) :
  cache_ok cache ->
  (_idna idna_encode cache netloc).1 = encoded netloc
  /\ cache_ok (_idna idna_encode cache netloc).2
  /\ dict_lookup (_idna idna_encode cache netloc).2 netloc = Some (encoded netloc)
  /\ List.last (_idna idna_encode cache netloc).2 (EmptyString, EmptyString)
     = (netloc, encoded netloc).
Proof.
  intros [Hk Hv Hs]. unfold _idna.
  destruct (dict_lookup cache netloc) as [found|] eqn:El; cbn [fst snd].
  - pose proof (dict_lookup_In _ _ _ El) as Hin.
    assert (Hf : found = encoded netloc).
    { rewrite List.Forall_forall in Hv. exact (Hv _ Hin). }
    subst found. unfold move_to_end.
    split; [reflexivity|]. split; [|split].
    + constructor.
      * apply nodup_keys_snoc; [now apply filter_keys_nodup|apply filter_key_absent].
      * apply Forall_app. split; [|now repeat constructor].
        rewrite List.Forall_forall in *. intros kv Hkv.
        apply List.filter_In in Hkv as [Hkv _]. now apply Hv.
      * rewrite length_app. simpl. pose proof (filter_shorter _ _ _ Hin). lia.
    + apply dict_lookup_last, filter_key_absent.
    + apply last_last.
  - fold (encoded netloc).
    pose proof (dict_lookup_None _ _ El) as Hnot.
    set (kept := if (_IDNA_CACHE_MAX_SIZE <=? length cache)%nat then tl cache else cache).
    assert (Hkept : NoDup (map fst kept) /\ ~ In netloc (map fst kept)
                    /\ Forall (fun kv => kv.2 = encoded kv.1) kept
                    /\ (S (length kept) <= _IDNA_CACHE_MAX_SIZE)%nat).
    { subst kept. destruct (Nat.leb_spec _IDNA_CACHE_MAX_SIZE (length cache)) as [Hfull|Hroom].
      - destruct cache as [|[a b] rest];
          [simpl in Hfull; unfold _IDNA_CACHE_MAX_SIZE in Hfull; lia|].
        simpl in *. apply NoDup_cons in Hk as [_ Hk]. inversion Hv; subst.
        repeat split; [exact Hk| |assumption|lia].
        intros H. apply Hnot. now right.
      - repeat split; [exact Hk|exact Hnot|exact Hv|lia]. }
    destruct Hkept as (K1 & K2 & K3 & K4).
    split; [reflexivity|]. split; [|split].
    + constructor.
      * now apply nodup_keys_snoc.
      * apply Forall_app. split; [exact K3|now repeat constructor].
      * rewrite length_app. simpl. lia.
    + now apply dict_lookup_last.
    + apply last_last.
Qed.

End IdnaFacts.

End Builder.

(** ** The rest of the response navigator ([webpath/_http.py]) *)

(** Induction on parsed JSON. *)

Section JsonInduction.

Variable P : json -> Prop.
Hypothesis Hnull : P JNull.
Hypothesis Hbool : forall b, P (JBool b).
Hypothesis Hint : forall z, P (JInt z).
Hypothesis Hfloat : forall f, P (JFloat f).
Hypothesis Hstr : forall s, P (JStr s).
Hypothesis Hlist : forall l, Forall P l -> P (JList l).
Hypothesis Hdict : forall d, Forall (fun kv => P kv.2) d -> P (JDict d).

Fixpoint json_induction (j : json) : P j :=
  match j with
  | JNull => Hnull
  | JBool b => Hbool b
  | JInt z => Hint z
  | JFloat f => Hfloat f
  | JStr s => Hstr s
  | JList l =>
      Hlist l ((fix each (l : list json) : Forall P l :=
                  match l with
                  | [] => @List.Forall_nil _ P
                  | item :: rest =>
                      @List.Forall_cons _ P item rest (json_induction item) (each rest)
                  end) l)
  | JDict d =>
      Hdict d ((fix items (d : list (string * json)) : Forall (fun kv => P kv.2) d :=
                  match d with
                  | [] => @List.Forall_nil _ (fun kv => P kv.2)
                  | (key, value) :: rest =>
                      @List.Forall_cons _ (fun kv => P kv.2) (key, value) rest
                        (json_induction value) (items rest)
                  end) d)
  end.

End JsonInduction.

Module Navigator.
Import Str StrFacts Py Http SplitFacts.

(** [isinstance(v, (dict, list))]. *)
Definition is_container (j : json) : bool :=
  match j with JDict _ | JList _ => true | _ => false end.

(** [_search_recursive(obj, search_key, case_sensitive)]. *)
Fixpoint _search_recursive (obj : json) (search_key : string) (case_sensitive : bool)
    {struct obj} : list json :=
  match obj with
  | JDict d =>
      flat_map
        (fun '(key, value) =>
           let key_to_check := if case_sensitive then key else lower key in
           (if infixb search_key key_to_check then [value] else [])
           ++ (if is_container value
               then _search_recursive value search_key case_sensitive else []))
        d
  | JList l =>
      flat_map
        (fun item =>
           if is_container item
           then _search_recursive item search_key case_sensitive else [])
        l
  | _ => []
  end.

(** A dictionary entry of a JSON value, at any depth: the key and the value
    of an item of the value itself, of a dictionary among its values or of a
    dictionary among its elements. *)
Inductive entry : json -> string -> json -> Prop :=
| entry_here d k v : In (k, v) d -> entry (JDict d) k v
| entry_dict d k' v' k v : In (k', v') d -> entry v' k v -> entry (JDict d) k v
| entry_list l item k v : In item l -> entry item k v -> entry (JList l) k v.

(** [s.isascii()]: on such text [lower] is all of [str.lower]. *)
Definition isascii (s : string) : bool := forallb (fun c => (code c <? 128)%nat) s.

(** [search_key in key_to_check]. *)
Definition key_matches (search_key : string) (case_sensitive : bool) (k : string) : bool :=
  infixb search_key (if case_sensitive then k else lower k).

Section Views.

Variable json_loads : string -> option json.
Variable jmespath_search : string -> json -> search_outcome.
Variable py_str : json -> string.
Variable transport : world -> net_call -> result Response * Q.

(** [repr(key)], as [KeyError] renders its argument. *)
Variable py_repr : string -> string.

Local Abbreviation json_data := (Http.json_data json_loads).
Local Abbreviation truediv := (Http.truediv json_loads py_str transport).
Local Abbreviation fetch := (Http.fetch json_loads py_str transport).
Local Abbreviation paginate := (Http.paginate json_loads py_str transport).
Local Abbreviation _find_next_url := (Http._find_next_url json_loads).

(** [search(key, case_sensitive)]. *)
Definition search (self : WebResponse) (key : string) (case_sensitive : bool) : list json :=
  if is_empty key then []
  else
    let data := json_data self in
    if negb (truthy data) then []
    else
      let search_key := if case_sensitive then key else lower key in
      _search_recursive data search_key case_sensitive.

(** [get_errors()] and [get_ids()]. *)
Definition get_errors (self : WebResponse) : list json :=
  search self "error" false ++ search self "message" false ++ search self "detail" false.

Definition get_ids (self : WebResponse) : list json := search self "id" false.

(** *** The dictionary views *)

(** [self[key]]. *)
Definition getitem (self : WebResponse) (k : key) : result json :=
  match json_data self with
  | JDict d =>
      match k with
      | KStr name =>
          match dict_get d name with
          | Some v => Ok v
          | None => Raise (Exn KeyError (py_repr name))
          end
      | KInt z => Raise (Exn KeyError (of_Z z))
      end
  | JList l =>
      match k with
      | KInt z =>
          match list_get l z with
          | Some v => Ok v
          | None => Raise (Exn IndexError "list index out of range")
          end
      | KStr _ => Raise (Exn TypeError "list indices must be integers or slices, not str")
      end
  | _ => Raise (Exn TypeError "Response data is not subscriptable")
  end.

(** [key in self]. *)
Definition contains (self : WebResponse) (k : key) : bool :=
  match json_data self, k with
  | JDict d, KStr name => bool_decide (is_Some (dict_get d name))
  | _, _ => false
  end.

(** [self.get(key, default)]. *)
Definition get (self : WebResponse) (k : key) (default : json) : json :=
  match json_data self, k with
  | JDict d, KStr name =>
      match dict_get d name with
      | Some v => v
      | None => default
      end
  | _, _ => default
  end.

(** [keys()], [values()] and [items()]. *)
Definition keys (self : WebResponse) : list string :=
  match json_data self with JDict d => map fst d | _ => [] end.

Definition values (self : WebResponse) : list json :=
  match json_data self with JDict d => map snd d | _ => [] end.

Definition items (self : WebResponse) : list (string * json) :=
  match json_data self with JDict d => d | _ => [] end.

(** A string that [response / key] would follow. *)
Definition is_link (v : json) : bool :=
  match v with JStr s => is_http_url s | _ => false end.

(** *** Extracting several paths at once *)

(** An element of the result of [extract]: a value, or the list that
    [find_all] returned. *)
Inductive extracted : Type :=
| One (v : value)
| Many (vs : list value).

(** What [extract] returns: [None], the only element, or the tuple of the
    elements. *)
Inductive extraction : Type :=
| Nothing
| Single (e : extracted)
| Tuple (es : list extracted).

(** ['*' in expr or '[' in expr]. *)
Definition wildcard (expr : string) : bool := mem (ch 42) expr || mem (ch 91) expr.

(** [extract] with its expressions and its [flatten] flag. *)
Definition extract (self : WebResponse) (expressions : list string) (flatten : bool)
  : extraction :=
  let results :=
    foldl (fun results expr =>
             if wildcard expr then
               let values := Http.find_all json_loads jmespath_search self expr in
               if flatten then results ++ map One values
               else results ++ [Many values]
             else
               results ++ [One (Http.find json_loads jmespath_search self expr (J JNull))])
          [] expressions in
  match results with
  | [] => Nothing
  | [only] => Single only
  | _ => Tuple results
  end.

(** *** Collecting the items of all pages *)

Definition data_keys : list string := ["data"; "results"; "items"; "records"; "content"].

(** What one page adds to [all_results] in [paginate_all]. *)
Definition page_results (data_key : option string) (page_data : json) : list json :=
  match data_key with
  | Some k =>
      if negb (is_empty k) then
        match _extract_nested_value page_data k with
        | JList found => found
        | JNull => []
        | found => [found]
        end
      else
        match page_data with
        | JList l => l
        | JDict d =>
            match List.find
                    (fun key => match dict_get d key with Some (JList _) => true | _ => false end)
                    data_keys with
            | Some key => match dict_get d key with Some (JList l) => l | _ => [] end
            | None => [page_data]
            end
        | _ => []
        end
  | None =>
      match page_data with
      | JList l => l
      | JDict d =>
          match List.find
                  (fun key => match dict_get d key with Some (JList _) => true | _ => false end)
                  data_keys with
          | Some key => match dict_get d key with Some (JList l) => l | _ => [] end
          | None => [page_data]
          end
      | _ => []
      end
  end.

(** [paginate_all(max_pages, next_key, data_key)]. *)
Definition paginate_all (self : WebResponse) (max_pages : Z)
    (next_key data_key : option string) (w : world) : list json * world :=
  let '(pages, w') := paginate self max_pages next_key w in
  (foldl (fun all_results page => all_results ++ page_results data_key (json_data page))
         [] pages, w').

(** What one page adds to [all_items] in [paginate_items]. *)
Definition page_items (item_key : string) (page_data : json) : list json :=
  match page_data with
  | JDict d =>
      match dict_get d item_key with
      | Some (JList found) => found
      | Some found => [found]
      | None => []
      end
  | _ => []
  end.

(** [paginate_items(item_key, max_pages)]. *)
Definition paginate_items (self : WebResponse) (item_key : string) (max_pages : Z)
    (w : world) : list json * world :=
  let '(pages, w') := paginate self max_pages None w in
  (foldl (fun all_items page => all_items ++ page_items item_key (json_data page))
         [] pages, w').

(** *** Properties of the search *)

Lemma entry_container (obj : json) (k : string) (v : json) :
  entry obj k v -> is_container obj = true.
Proof. now intros []. Qed.

Lemma search_recursive_entries (search_key : string) (case_sensitive : bool)
    (obj v : json) :
  In v (_search_recursive obj search_key case_sensitive)
  <-> exists k, entry obj k v /\ key_matches search_key case_sensitive k = true.
Proof.
  revert v. induction obj as [| | | | |l IH|d IH] using json_induction; intros v;
    try (simpl; split; [intros []|intros (k & He & _); inversion He]).
  - simpl. rewrite in_flat_map. split.
    + intros (item & Hin & Hv).
      destruct (is_container item); [|destruct Hv].
      rewrite List.Forall_forall in IH. apply (IH item Hin) in Hv as (k & He & Hm).
      exists k. split; [|exact Hm]. now apply (entry_list l item).
    + intros (k & He & Hm). inversion He as [| |l' item k' v' Hin Hitem]; subst.
      exists item. split; [exact Hin|].
      rewrite (entry_container _ _ _ Hitem).
      rewrite List.Forall_forall in IH. apply (IH item Hin). now exists k.
  - simpl. rewrite in_flat_map. split.
    + intros ([key value] & Hin & Hv). apply in_app_or in Hv as [Hv|Hv].
      * fold (key_matches search_key case_sensitive key) in Hv.
        destruct (key_matches search_key case_sensitive key) eqn:Hm; [|destruct Hv].
        destruct Hv as [<-|[]]. exists key. split; [now apply entry_here|exact Hm].
      * destruct (is_container value); [|destruct Hv].
        rewrite List.Forall_forall in IH. apply (IH _ Hin) in Hv as (k & He & Hm).
        exists k. split; [|exact Hm]. now apply (entry_dict d key value).
    + intros (k & He & Hm).
      inversion He as [d' k' v' Hin|d' key value k' v' Hin Hval|]; subst.
      * exists (k, v). split; [exact Hin|]. apply in_or_app. left.
        fold (key_matches search_key case_sensitive k). rewrite Hm. now left.
      * exists (key, value). split; [exact Hin|]. apply in_or_app. right.
        rewrite (entry_container _ _ _ Hval).
        rewrite List.Forall_forall in IH. apply (IH _ Hin). now exists k.
Qed.

Lemma falsy_has_no_entry (data : json) (k : string) (v : json) :
  truthy data = false -> ~ entry data k v.
Proof.
  intros Hf He. destruct He as [d k v Hin|d k' v' k v Hin _|l item k v Hin _];
    simpl in Hf; (destruct d || destruct l); try discriminate; destruct Hin.
Qed.

(** X12.  For a non-empty key, [search] returns exactly the values of
    the dictionary entries, at any depth of the parsed body, whose key holds
    the search key as a substring (after lower-casing both unless the search
    is case sensitive). *)
Theorem search_returns_matching_entries
    (self : WebResponse) (key : string) (case_sensitive : bool) (v : json) :
  is_empty key = false ->
  In v (search self key case_sensitive)
  <-> exists k,
        entry (json_data self) k v
        /\ infixb (if case_sensitive then key else lower key)
                  (if case_sensitive then k else lower k) = true.
Proof.
  intros Hk. unfold search. rewrite Hk.
  destruct (truthy (json_data self)) eqn:Ht; simpl.
  - apply search_recursive_entries.
  - split; [intros []|]. intros (k & He & _).
    exact (falsy_has_no_entry _ _ _ Ht He).
Qed.

Lemma prefix_lower (p s : string) :
  String.prefix p s = true -> String.prefix (lower p) (lower s) = true.
Proof.
  revert s. induction p as [|a p IH]; intros s; [now destruct s|].
  destruct s as [|b s]; [discriminate|]. simpl.
  destruct (ascii_dec a b) as [->|]; [|discriminate].
  intros H. destruct (ascii_dec (lower_ascii b) (lower_ascii b)); [|congruence].
  now apply IH.
Qed.

Lemma infixb_cons (p : string) (c : ascii) (s : string) :
  infixb p (String c s) = String.prefix p (String c s) || infixb p s.
Proof. reflexivity. Qed.

Lemma infixb_lower (p s : string) :
  infixb p s = true -> infixb (lower p) (lower s) = true.
Proof.
  induction s as [|c s IH].
  - change (String.prefix p "" || false = true
            -> String.prefix (lower p) (lower "") || false = true).
    rewrite !orb_false_r. apply (prefix_lower p "").
  - rewrite infixb_cons. change (lower (String c s)) with (String (lower_ascii c) (lower s)).
    rewrite infixb_cons. intros H%orb_true_iff. apply orb_true_iff.
    destruct H as [H|H]; [left; exact (prefix_lower p (String c s) H)|right; auto].
Qed.

Lemma flat_map_sublist {A B} (f g : A -> list B) (l : list A) :
  Forall (fun x => f x `sublist_of` g x) l -> flat_map f l `sublist_of` flat_map g l.
Proof.
  induction 1 as [|x l Hx _ IH]; simpl; [constructor|]. now apply sublist_app.
Qed.

Lemma search_recursive_sublist (key : string) (obj : json) :
  _search_recursive obj key true `sublist_of` _search_recursive obj (lower key) false.
Proof.
  induction obj as [| | | | |l IH|d IH] using json_induction;
    try (simpl; constructor).
  - simpl. apply flat_map_sublist. eapply Forall_impl; [exact IH|].
    intros item Hitem. simpl in Hitem. now destruct (is_container item).
  - simpl. apply flat_map_sublist. eapply Forall_impl; [exact IH|].
    intros [k v] Hv. simpl in Hv. apply sublist_app.
    + destruct (infixb key k) eqn:E.
      * now rewrite (infixb_lower _ _ E).
      * apply sublist_nil_l.
    + now destruct (is_container v).
Qed.

(** X13.  With a search key and dictionary keys within ASCII, what a
    case-sensitive search finds, the default case-insensitive search finds
    too, in the same order. *)
Theorem case_sensitive_search_finds_less
    (self : WebResponse) (key : string) :
  isascii key = true ->
  (forall k v, entry (json_data self) k v -> isascii k = true) ->
  search self key true `sublist_of` search self key false.
Proof.
  intros _ _. unfold search. destruct (is_empty key); [constructor|].
  destruct (negb (truthy (json_data self))); [constructor|].
  apply search_recursive_sublist.
Qed.

Lemma search_lower_entries (self : WebResponse) (key : string) (v : json) :
  is_empty key = false -> lower key = key ->
  In v (search self key false)
  <-> exists k, entry (json_data self) k v /\ infixb key (lower k) = true.
Proof.
  intros Hk Hl. unfold search. rewrite Hk, Hl.
  destruct (truthy (json_data self)) eqn:Ht; simpl.
  - apply search_recursive_entries.
  - split; [intros []|]. intros (k & He & _).
    exact (falsy_has_no_entry _ _ _ Ht He).
Qed.

(** X14.  [get_errors] lists exactly the values, at any depth of the
    body, whose key holds "error", "message" or "detail", whatever the case
    of the key. *)
Theorem get_errors_lists_error_fields (self : WebResponse) (v : json) :
  In v (get_errors self)
  <-> exists k,
        entry (json_data self) k v
        /\ infixb "error" (lower k) || infixb "message" (lower k)
           || infixb "detail" (lower k) = true.
Proof.
  unfold get_errors. rewrite !in_app_iff.
  rewrite !search_lower_entries by reflexivity. split.
  - intros [(k & He & Hm)|[(k & He & Hm)|(k & He & Hm)]]; exists k;
      (split; [exact He|]); rewrite Hm; now rewrite ?orb_true_r.
  - intros (k & He & Hm). apply orb_true_iff in Hm as [Hm|Hm];
      [apply orb_true_iff in Hm as [Hm|Hm]|]; eauto.
Qed.

(** *** Properties of the dictionary views *)

Lemma dict_get_In (d : list (string * json)) (name : string) (v : json) :
  dict_get d name = Some v -> In (name, v) d.
Proof.
  induction d as [|[k x] d IH]; [discriminate|]. simpl.
  destruct (String.eqb_spec k name) as [->|_].
  - intros [= ->]. now left.
  - intros H. right. now apply IH.
Qed.

(** X15.  For a string key: [key in response] holds exactly when
    [response[key]] returns a value; that value is what [get] returns, its
    key is among [keys()], the value among [values()] and the pair among
    [items()]; when the key is missing [get] returns the default.  A body
    that is no JSON object holds no key. *)
Theorem dict_views_agree (self : WebResponse) (name : string) (default : json) :
  contains self (KStr name) = is_ok (getitem self (KStr name))
  /\ (forall v,
        getitem self (KStr name) = Ok v ->
        get self (KStr name) default = v
        /\ In name (keys self) /\ In v (values self) /\ In (name, v) (items self))
  /\ (contains self (KStr name) = false -> get self (KStr name) default = default)
  /\ items self = combine (keys self) (values self)
  /\ ((forall d, json_data self <> JDict d) ->
      contains self (KStr name) = false /\ keys self = []).
Proof.
  unfold contains, getitem, get, keys, values, items.
  destruct (json_data self) as [| | | | | l | d].
  7:{ split; [destruct (dict_get d name); reflexivity|].
      split; [|split; [|split]].
      - intros v H. destruct (dict_get d name) as [x|] eqn:E; [|discriminate].
        injection H as ->. pose proof (dict_get_In _ _ _ E) as Hin.
        split; [reflexivity|]. split; [exact (in_map fst _ _ Hin)|].
        split; [exact (in_map snd _ _ Hin)|exact Hin].
      - destruct (dict_get d name); [|reflexivity].
        rewrite bool_decide_eq_true_2 by eauto. discriminate.
      - induction d as [|[k x] d IH]; [reflexivity|]. simpl. now rewrite <- IH.
      - intros H. now contradiction (H d). }
  all: split; [reflexivity|]; split; [discriminate|]; split; [reflexivity|];
    split; [reflexivity|]; now intros.
Qed.

(** X16.  Where [response[key]] returns a value that is no http(s)
    link, [response / key] returns the same value and does nothing else. *)
Theorem navigation_agrees_with_indexing
    (self : WebResponse) (k : key) (w : world) (v : json) :
  getitem self k = Ok v ->
  is_link v = false ->
  truediv self k w = (Ok (NavValue v), w).
Proof.
  unfold getitem, Http.truediv.
  destruct (json_data self) as [| | | | | l | d]; try discriminate.
  - destruct k as [name|z]; [discriminate|]. simpl.
    destruct (list_get l z) as [x|]; [|discriminate]. intros [= ->] Hl.
    destruct v; try reflexivity. simpl in Hl. now rewrite Hl.
  - destruct k as [name|z]; [|discriminate].
    destruct (dict_get d name) as [x|]; [|discriminate]. intros [= ->] Hl.
    destruct v; try reflexivity. simpl in Hl. now rewrite Hl.
Qed.

(** X17.  On a list body [response / key] never raises
    [ValueError] or [IndexError]: a key that is no integer, an index out of
    range and a followed link that the URL constructor or the transport
    rejects with one of the two all come out as [KeyError]; any other error
    is the one that following the link raised. *)
Theorem list_navigation_masks_index_errors
    (self : WebResponse) (k : key) (w w' : world) (l : list json) (e : exn) :
  json_data self = JList l ->
  truediv self k w = (Raise e, w') ->
  caught_by e [ValueError; IndexError] = false
  /\ (e = key_error k \/ exists s, In (JStr s) l /\ fetch s w = (Raise e, w')).
Proof.
  intros Hd. unfold Http.truediv. rewrite Hd.
  destruct (key_int k) as [idx|]; [|intros [= <- <-]; split; [reflexivity|now left]].
  destruct (list_get l idx) as [x|] eqn:Hg;
    [|intros [= <- <-]; split; [reflexivity|now left]].
  destruct x; try discriminate.
  destruct (is_http_url s); [|discriminate].
  destruct (fetch s w) as [[resp|e0] w0] eqn:Hf; [discriminate|].
  destruct (caught_by e0 [ValueError; IndexError]) eqn:Hc; intros [= <- <-].
  - split; [reflexivity|]. now left.
  - split; [exact Hc|]. right. exists s. split; [|exact Hf].
    unfold list_get in Hg. destruct (_ && _); [|discriminate].
    exact (nth_error_In _ _ Hg).
Qed.

(** *** Properties of the key paths *)

(** One step of the loop of [_extract_nested_value]; [None] once a step has
    raised. *)
Definition descend (cur : option json) (part : string) : option json :=
  match cur with
  | Some (JDict d) => dict_get d part
  | _ => None
  end.

Lemma descend_none (parts : list string) : foldl descend None parts = None.
Proof. induction parts; [reflexivity|assumption]. Qed.

Lemma descend_scalar (data : json) (parts : list string) :
  (forall d, data <> JDict d) -> parts <> [] -> foldl descend (Some data) parts = None.
Proof.
  intros Hd Hp. destruct parts as [|part parts]; [contradiction|].
  change (foldl descend (descend (Some data) part) parts = None).
  replace (descend (Some data) part) with (@None json); [apply descend_none|].
  destruct data; try reflexivity. now contradiction (Hd d).
Qed.


(** *** Properties of the pagination helpers *)

Lemma find_next_url_cases (page : WebResponse) :
  _find_next_url page = JNull
  \/ exists s pattern,
       _find_next_url page = JStr s
       /\ is_http_url s = true
       /\ In pattern next_patterns
       /\ _extract_nested_value (json_data page) pattern = JStr s.
Proof.
  unfold Http._find_next_url.
  destruct (json_data page) as [| | | | | l | d]; try now left.
  destruct (List.find _ _) as [v|] eqn:Hf; [|now left].
  apply find_some in Hf as [Hin Hv]. apply andb_true_iff in Hv as [_ Hv].
  destruct v; try discriminate. right.
  apply in_map_iff in Hin as (pattern & He & Hp).
  exists s, pattern. now repeat split.
Qed.

(** X19.  The conventional next-page link of a page is [None] or
    a string that starts with http:// or https://, found under one of the
    seven conventional key paths; a body that is no JSON object has none. *)
Theorem find_next_url_is_absolute (page : WebResponse) :
  (_find_next_url page = JNull
   \/ exists s pattern,
        _find_next_url page = JStr s
        /\ is_http_url s = true
        /\ In pattern next_patterns
        /\ _extract_nested_value (json_data page) pattern = JStr s)
  /\ ((forall d, json_data page <> JDict d) -> _find_next_url page = JNull).
Proof.
  split; [apply find_next_url_cases|].
  intros Hd. unfold Http._find_next_url.
  destruct (json_data page) as [| | | | | l | d]; try reflexivity.
  now contradiction (Hd d).
Qed.

Lemma fetch_calls_cases (value : string) (w : world) :
  net_calls (fetch value w).2 = net_calls w
  \/ (is_ok (Core.init value) = true
      /\ net_calls (fetch value w).2 = follow_call value :: net_calls w).
Proof.
  destruct (Core.init value) as [p|e] eqn:Hi.
  - right. split; [reflexivity|]. exact (fetch_calls _ _ _ value p w Hi).
  - left. unfold Http.fetch. now rewrite Hi.
Qed.

(** What the requests of a walk are: plain GETs of URLs that the URL
    constructor accepts, no more of them than pages yielded. *)
Definition follows (w0 : world) (s : walk) : Prop :=
  exists links,
    net_calls (wld s) = map follow_call links ++ net_calls w0
    /\ Forall (fun u => is_ok (Core.init u) = true) links
    /\ (length links <= length (yielded s))%nat.

Lemma step_follows (max_pages : Z) (next_key : option string) (w0 : world) (s : walk) :
  follows w0 s ->
  follows w0 (paginate_step json_loads py_str transport max_pages next_key s).
Proof.
  intros (links & Hc & Hl & Hn).
  destruct (running s) eqn:Hrun; [|now rewrite step_stopped; [exists links|]].
  destruct (step_cases json_loads py_str transport max_pages next_key s Hrun)
    as [(_ & ->) | [(_ & _ & ->) | (_ & _ & E)]];
    try (exists links; now repeat split).
  assert (Hstop : follows w0 (stop (yield_current s))).
  { exists links. simpl. repeat split; [exact Hc|exact Hl|lia]. }
  destruct (next_url_of json_loads next_key (current_page s));
    try (rewrite E; exact Hstop).
  destruct (is_empty s0); [rewrite E; exact Hstop|].
  destruct (fetch_calls_cases s0 (wld s)) as [Hsame | (Hok & Hnew)];
    destruct (Http.fetch json_loads py_str transport s0 (wld s)) as [[page|e] w'];
    rewrite E; simpl in *.
  - exists links. simpl. repeat split; [congruence|exact Hl|lia].
  - exists links. simpl. repeat split; [congruence|exact Hl|lia].
  - exists (s0 :: links). simpl. repeat split; [congruence|now constructor|lia].
  - exists (s0 :: links). simpl. repeat split; [congruence|now constructor|lia].
Qed.

Lemma run_follows (max_pages : Z) (next_key : option string) (w0 : world)
    (turns : nat) (s : walk) :
  follows w0 s ->
  follows w0 (paginate_run json_loads py_str transport max_pages next_key turns s).
Proof.
  revert s. induction turns as [|n IH]; intros s H; [exact H|].
  simpl. apply IH, step_follows, H.
Qed.

(** X20.  Whatever the pages hold, the requests that
    [paginate] makes are plain GETs, without the headers, timeout, retries or
    session of the URL object the first page came from, of links that the URL
    constructor accepts; there are no more of them than pages yielded. *)
Theorem paginate_requests_are_plain_gets
    (self : WebResponse) (max_pages : Z) (next_key : option string) (w : world) :
  exists links,
    net_calls (paginate self max_pages next_key w).2
    = map (fun u => mkCall "get" (strip u) ViaRequests (mkKwargs None [] false)) links
      ++ net_calls w
    /\ Forall (fun u => is_ok (Core.init u) = true) links
    /\ (length links <= length (paginate self max_pages next_key w).1)%nat.
Proof.
  destruct (run_follows max_pages next_key w (S (Z.to_nat max_pages))
              (paginate_start self w)) as (links & Hc & Hl & Hn).
  { exists []. simpl. repeat split; [constructor|lia]. }
  exists links. unfold Http.paginate. simpl.
  rewrite length_reverse. repeat split; assumption.
Qed.

Lemma foldl_ext_in {A B} (f g : A -> B -> A) (l : list B) (a : A) :
  (forall acc x, In x l -> f acc x = g acc x) -> foldl f a l = foldl g a l.
Proof.
  revert a. induction l as [|x l IH]; intros a H; [reflexivity|]. simpl.
  rewrite (H a x) by now left. apply IH. intros acc y Hy. apply H. now right.
Qed.

Lemma page_results_items (item_key : string) (page_data : json) :
  is_empty item_key = false ->
  mem (ch 46) item_key = false ->
  (forall d, page_data = JDict d -> dict_get d item_key <> Some JNull) ->
  page_results (Some item_key) page_data = page_items item_key page_data.
Proof.
  intros Hk Hdot Hnull. unfold page_results, page_items, _extract_nested_value.
  rewrite Hk, (split_on_whole _ _ Hdot). simpl.
  destruct page_data as [| | | | | l | d]; try reflexivity.
  specialize (Hnull d eq_refl).
  destruct (dict_get d item_key) as [[| | | | | |]|]; try reflexivity.
  now contradiction Hnull.
Qed.

(** X21.  For a key without dots, [paginate_all] with that key as
    [data_key] and [paginate_items] with it as [item_key] walk the same pages
    and collect the same items, provided no page holds [null] under the key
    (which [paginate_items] keeps and [paginate_all] drops). *)
Theorem paginate_items_agrees_with_paginate_all
    (self : WebResponse) (item_key : string) (max_pages : Z) (w : world) :
  is_empty item_key = false ->
  mem (ch 46) item_key = false ->
  (forall page d,
      In page (paginate self max_pages None w).1 ->
      json_data page = JDict d -> dict_get d item_key <> Some JNull) ->
  paginate_items self item_key max_pages w
  = paginate_all self max_pages None (Some item_key) w.
Proof.
  intros Hk Hdot Hnull. unfold paginate_items, paginate_all.
  destruct (paginate self max_pages None w) as [pages w'] eqn:Hp. f_equal.
  apply foldl_ext_in. intros acc page Hin. f_equal. symmetry.
  apply page_results_items; [exact Hk|exact Hdot|].
  intros d Hd. exact (Hnull page d Hin Hd).
Qed.

(** *** Properties of [extract] *)

(** What one expression contributes when [flatten] is off. *)
Definition piece (self : WebResponse) (expr : string) : extracted :=
  if wildcard expr then Many (Http.find_all json_loads jmespath_search self expr)
  else One (Http.find json_loads jmespath_search self expr (J JNull)).

Lemma foldl_snoc {A B} (f : B -> list A) (l : list B) (acc : list A) :
  foldl (fun results x => results ++ f x) acc l = acc ++ flat_map f l.
Proof.
  revert acc. induction l as [|x l IH]; intros acc; simpl.
  - now rewrite app_nil_r.
  - now rewrite IH, app_assoc.
Qed.

(** X22.  Without [flatten], [extract] returns one element for each
    expression, in order: the list of [find_all] for an expression with a
    star or a bracket, the value of [find] ([None] when nothing is found) for
    any other.  So no expression gives [None], one gives its element bare,
    and two or more give a tuple of as many elements as expressions. *)
Theorem extract_gives_one_element_per_expression
    (self : WebResponse) (expressions : list string) :
  extract self expressions false
  = match expressions with
    | [] => Nothing
    | [expr] => Single (piece self expr)
    | _ => Tuple (map (piece self) expressions)
    end
  /\ match extract self expressions false with
     | Nothing => expressions = []
     | Single _ => length expressions = 1%nat
     | Tuple es => length es = length expressions /\ (2 <= length expressions)%nat
     end.
Proof.
  assert (Hres :
    foldl (fun results expr =>
             if wildcard expr
             then results ++ [Many (Http.find_all json_loads jmespath_search self expr)]
             else results
                  ++ [One (Http.find json_loads jmespath_search self expr (J JNull))])
          [] expressions
    = map (piece self) expressions).
  { rewrite (foldl_ext_in _ (fun results expr => results ++ [piece self expr])).
    - rewrite foldl_snoc. simpl. induction expressions as [|e l IH]; [reflexivity|].
      simpl. now rewrite IH.
    - intros results expr _. unfold piece. now destruct (wildcard expr). }
  unfold extract. cbv zeta. simpl. rewrite Hres.
  destruct expressions as [|e1 [|e2 rest]]; simpl; split; try reflexivity.
  split; [now rewrite length_map|lia].
Qed.

(** *** A body that is not JSON *)

(** X23.  A response whose body does not parse behaves as the empty
    JSON object everywhere: [find] returns the default, [find_all] and
    [search] nothing, no key is in it, [get] returns its default, the views
    are empty, indexing by a string and [/] raise [KeyError] without a
    request, and [paginate], with or without a key for the next link, yields
    this one page and makes no request. *)
Theorem unparseable_body_is_empty_object
    (self : WebResponse) (name expression : string) (case_sensitive : bool)
    (otherwise : value) (fallback : json) (k : key) (max_pages : Z)
    (next_key : option string) (w : world) :
  json_loads (text (_response self)) = None ->
  json_data self = JDict []
  /\ Http.find json_loads jmespath_search self expression otherwise = otherwise
  /\ Http.find_all json_loads jmespath_search self expression = []
  /\ search self name case_sensitive = []
  /\ contains self k = false
  /\ get self k fallback = fallback
  /\ keys self = [] /\ values self = [] /\ items self = []
  /\ getitem self (KStr name) = Raise (Exn KeyError (py_repr name))
  /\ truediv self k w = (Raise (key_error k), w)
  /\ (1 <= max_pages -> paginate self max_pages next_key w = ([self], w)).
Proof.
  intros Hl.
  assert (Hd : json_data self = JDict []) by (unfold Http.json_data; now rewrite Hl).
  assert (Hfind : forall dflt,
             Http.find json_loads jmespath_search self expression dflt = dflt).
  { intros dflt. unfold Http.find. rewrite Hd. now destruct (is_empty expression). }
  split; [exact Hd|]. split; [apply Hfind|].
  split; [unfold Http.find_all; now rewrite Hfind|].
  split; [unfold search; rewrite Hd; now destruct (is_empty name)|].
  split; [unfold contains; rewrite Hd; now destruct k|].
  split; [unfold get; rewrite Hd; now destruct k|].
  split; [unfold keys; now rewrite Hd|]. split; [unfold values; now rewrite Hd|].
  split; [unfold items; now rewrite Hd|].
  split; [unfold getitem; now rewrite Hd|].
  split; [unfold Http.truediv; rewrite Hd; now destruct k|].
  intros Hmax. unfold Http.paginate.
  assert (Hnext : next_url_of json_loads next_key self = JNull).
  { assert (Hconv : Http._find_next_url json_loads self = JNull)
      by (unfold Http._find_next_url; now rewrite Hd).
    unfold next_url_of. destruct next_key as [path|]; [|exact Hconv].
    destruct (negb (is_empty path)); [|exact Hconv].
    rewrite Hd. unfold _extract_nested_value. fold descend.
    destruct (split_on (ch 46) path) as [|part parts] eqn:Hs;
      [now contradiction (split_on_nonempty (ch 46) path)|].
    change (default JNull (foldl descend None parts) = JNull).
    now rewrite descend_none. }
  assert (Hstep : paginate_step json_loads py_str transport max_pages next_key
                    (paginate_start self w)
                  = mkWalk self 1 ({[page_url self]} ∪ ∅) [self] false w).
  { unfold paginate_step, paginate_start. cbn [running page_count current_page
      visited_urls yielded wld negb].
    replace (0 <? max_pages) with true by (symmetry; apply Z.ltb_lt; lia).
    cbn [negb]. rewrite bool_decide_eq_false_2 by set_solver.
    cbn [current_page]. now rewrite Hnext. }
  cbn [paginate_run]. rewrite Hstep.
  rewrite run_stopped by reflexivity. reflexivity.
Qed.

End Views.
End Navigator.

(** ** More on the request executor *)

Module Requests.
Import Str StrFacts Py Http.

(** The log lines of a run, newest first. *)
Definition logs (w : world) : list (string * string * Z) :=
  omap (fun e => match e with ELog v u s => Some (v, u, s) | _ => None end) (trace w).

(** [getattr(url, '_enable_logging', False)]. *)
Definition logging_on (t : target) : bool :=
  match t with TPath p => Core._enable_logging p | TStr _ => false end.

(** [hasattr(url, '_rate_limit') and url._rate_limit]. *)
Definition rate_limited (t : target) : bool :=
  match t with
  | TPath p => match Core._rate_limit p with Some limit => nonzero limit | None => false end
  | TStr _ => false
  end.

Section Facts.

Variable json_loads : string -> option json.
Variable py_str : json -> string.
Variable transport : world -> net_call -> result Response * Q.

Local Abbreviation http_request := (Http.http_request json_loads py_str transport).

Lemma scheme_ok_or_not (t : target) :
  http_scheme_ok t
  \/ (exists e, scheme_of t = Raise e /\ exn_cls e = ValueError)
  \/ (exists sch, scheme_of t = Ok sch /\ Core.is_http_scheme sch = false).
Proof.
  destruct (scheme_of t) as [sch|e] eqn:E.
  - destruct (Core.is_http_scheme sch) eqn:Eh.
    + left. now exists sch.
    + right. right. now exists sch.
  - right. left. exists e. split; [reflexivity|].
    destruct t as [p|s]; [discriminate|]. simpl in E.
    destruct (Urllib.urlsplit s) eqn:Eu; [discriminate|]. injection E as <-.
    exact (Builder.urlsplit_raises_value_error _ _ Eu).
Qed.

Lemma after_lookup_no_config (t : target) (verb : string) (w : world) :
  cache_config_of t = None ->
  (lookup_cache t verb w).1 = None /\ after_lookup t verb w = w.
Proof.
  intros H. unfold after_lookup, lookup_cache. rewrite H. now destruct w.
Qed.

Lemma trace_after_lookup (t : target) (verb : string) (w : world) :
  trace (after_lookup t verb w) = trace w /\ clock (after_lookup t verb w) = clock w.
Proof. now split. Qed.

(** The transport calls of a request: none, or the one call. *)
Lemma request_calls
    (verb : string) (t : target) (retries : option Z) (backoff jitter : Q)
    (session : option nat) (kw : kwargs) (w : world) :
  net_calls (http_request verb t retries backoff jitter session kw w).2 = net_calls w
  \/ (http_scheme_ok t
      /\ net_calls (http_request verb t retries backoff jitter session kw w).2
         = call_of verb t retries backoff jitter session kw :: net_calls w).
Proof.
  destruct (scheme_ok_or_not t) as [Hok | [(e & He & _) | (sch & Hs & Hh)]].
  - destruct ((lookup_cache t verb w).1) as [entry|] eqn:El.
    + left. now rewrite (http_request_hit _ _ _ _ _ _ _ _ _ _ _ entry Hok El).
    + right. split; [exact Hok|].
      now rewrite (http_request_miss_calls _ _ _ _ _ _ _ _ _ _ _ Hok El).
  - left. unfold Http.http_request. now rewrite He.
  - left. unfold Http.http_request. now rewrite Hs, Hh.
Qed.

(** X24.  A request makes at most one transport call, and only
    for a URL whose scheme is http or https: the call carries the verb, the
    URL string and the keyword arguments as given, through the session when
    there is one, else through the retry adapter when the retry count is not
    zero, else plainly.  Any other scheme, or a string that does not parse,
    raises [ValueError] and leaves everything as it was; and a target without
    cache settings leaves the cache store as it was. *)
Theorem request_makes_at_most_one_call
    (verb : string) (t : target) (retries : option Z) (backoff jitter : Q)
    (session : option nat) (kw : kwargs) (w : world) :
  let out := http_request verb t retries backoff jitter session kw w in
  (net_calls out.2 = net_calls w
   \/ (http_scheme_ok t
       /\ net_calls out.2
          = mkCall verb (url_str t)
              (match session with
               | Some s => ViaSession s
               | None =>
                   match retries with
                   | Some r => if r =? 0 then ViaRequests
                               else ViaRetryAdapter r backoff jitter
                   | None => ViaRequests
                   end
               end) kw
            :: net_calls w))
  /\ ((forall sch, scheme_of t = Ok sch -> Core.is_http_scheme sch = false) ->
      exists msg, out = (Raise (Exn ValueError msg), w))
  /\ (cache_config_of t = None -> cache out.2 = cache w).
Proof.
  intros out. subst out. split; [|split].
  - exact (request_calls verb t retries backoff jitter session kw w).
  - intros Hno. unfold Http.http_request.
    destruct (scheme_of t) as [sch|e] eqn:E.
    + rewrite (Hno sch eq_refl). simpl. now eexists.
    + destruct t as [p|s]; [discriminate|]. simpl in E.
      destruct (Urllib.urlsplit s) eqn:Eu; [discriminate|]. injection E as <-.
      pose proof (Builder.urlsplit_raises_value_error _ _ Eu) as Hc.
      destruct e0 as [c m]. simpl in Hc. subst c. now eexists.
  - intros Hc. destruct (after_lookup_no_config t verb w Hc) as [Hl Ha].
    destruct (scheme_ok_or_not t) as [Hok | [(e & He & _) | (sch & Hs & Hh)]].
    + rewrite (http_request_miss _ _ _ _ _ _ _ _ _ _ _ Hok Hl). cbv zeta. rewrite Ha.
      destruct (transport _ _) as [[resp|e] latency]; [|reflexivity].
      destruct (_ && _); [reflexivity|]. simpl.
      rewrite cache_logging, cache_rate_limit. unfold after_call, cache_write_block.
      now rewrite Hc, Ha.
    + unfold Http.http_request. now rewrite He.
    + unfold Http.http_request. now rewrite Hs, Hh.
Qed.

Lemma logs_rate_limit (t : target) (w : world) :
  logs (rate_limit_block t w).2 = logs w
  /\ url_str (rate_limit_block t w).1 = url_str t
  /\ logging_on (rate_limit_block t w).1 = logging_on t.
Proof.
  unfold rate_limit_block. destruct t as [p|]; [|now repeat split].
  destruct (Core._rate_limit p) as [limit|]; [|now repeat split].
  destruct (nonzero limit); [|now repeat split].
  destruct (Qlt_le_dec _ _); now repeat split.
Qed.

Lemma logs_logging (verb : string) (t : target) (resp : Response) (w : world) :
  logs (logging_block verb t resp w)
  = (if logging_on t then [(upper verb, url_str t, resp_status resp)] else []) ++ logs w.
Proof.
  unfold logging_block, logging_on. destruct t as [p|]; [|reflexivity].
  now destruct (Core._enable_logging p).
Qed.

Lemma logs_after_call verb t call resp latency w :
  logs (after_call verb t call resp latency w) = logs w.
Proof.
  unfold after_call, logs. now rewrite (proj1 (trace_cache_write _ _ _ _)).
Qed.

(** X25.  A request writes a log line exactly when it returns a
    response that came from the transport and logging is enabled on the URL
    object: one line, with the verb in upper case, the URL string and the
    status.  A request that raises, a cache hit and a request for a plain
    string write none. *)
Theorem logging_records_transport_responses
    (verb : string) (t : target) (retries : option Z) (backoff jitter : Q)
    (session : option nat) (kw : kwargs) (w : world) :
  let out := http_request verb t retries backoff jitter session kw w in
  logs out.2
  = match out.1 with
    | Ok r =>
        match _response r with
        | Live resp =>
            if logging_on t then [(upper verb, url_str t, resp_status resp)] else []
        | Cached _ => []
        end
    | Raise _ => []
    end ++ logs w.
Proof.
  intros out. subst out.
  destruct (scheme_ok_or_not t) as [Hok | [(e & He & _) | (sch & Hs & Hh)]].
  - destruct ((lookup_cache t verb w).1) as [entry|] eqn:El.
    + now rewrite (http_request_hit _ _ _ _ _ _ _ _ _ _ _ entry Hok El).
    + rewrite (http_request_miss _ _ _ _ _ _ _ _ _ _ _ Hok El). cbv zeta.
      destruct (transport _ _) as [[resp|e] latency]; [|reflexivity].
      destruct (_ && _).
      * now destruct (_get_helpful_error_message _ _ _ _).
      * cbn [fst snd _response].
        destruct (logs_rate_limit t
                    (after_call verb t
                       (call_of verb t retries backoff jitter session kw) resp latency w))
          as (L1 & L2 & L3).
        now rewrite logs_logging, L1, L2, L3, logs_after_call.
  - unfold Http.http_request. now rewrite He.
  - unfold Http.http_request. now rewrite Hs, Hh.
Qed.

(** X26.  On a cache miss, when the transport raises:
    a connection error and a connect timeout (which is both a connection
    error and a timeout) come out as the built-in [ConnectionError]; any
    other timeout as the built-in [TimeoutError]; every other exception as it
    is.  The world holds the call and nothing else new: no wait, no log
    line, no cache entry. *)
Theorem transport_failures_by_class
    (verb : string) (t : target) (retries : option Z) (backoff jitter : Q)
    (session : option nat) (kw : kwargs) (w : world) (e : exn) (latency : Q) :
  http_scheme_ok t ->
  (lookup_cache t verb w).1 = None ->
  transport (after_lookup t verb w) (call_of verb t retries backoff jitter session kw)
  = (Raise e, latency) ->
  http_request verb t retries backoff jitter session kw w
  = (Raise (match exn_cls e with
            | RequestsConnectionError | RequestsConnectTimeout =>
                Exn ConnectionError ("Failed to connect to " +:+ url_str t)
            | RequestsTimeout =>
                Exn TimeoutError ("Request to " +:+ url_str t +:+ " timed out")
            | _ => e
            end),
     tick latency (ENet (call_of verb t retries backoff jitter session kw))
       (after_lookup t verb w)).
Proof.
  intros Hok Hl Htr. rewrite (http_request_miss _ _ _ _ _ _ _ _ _ _ _ Hok Hl).
  cbv zeta. rewrite Htr. now destruct (exn_cls e).
Qed.

Lemma sleeps_logging (verb : string) (t : target) (resp : Response) (w : world) :
  sleeps (logging_block verb t resp w) = sleeps w.
Proof.
  unfold logging_block. destruct t as [p|]; [|reflexivity].
  now destruct (Core._enable_logging p).
Qed.

Lemma sleeps_after_call verb t call resp latency w :
  sleeps (after_call verb t call resp latency w) = sleeps w.
Proof.
  unfold after_call, sleeps. now rewrite (proj1 (trace_cache_write _ _ _ _)).
Qed.

Lemma rate_limit_block_off (t : target) (w : world) :
  rate_limited t = false -> rate_limit_block t w = (t, w).
Proof.
  unfold rate_limited, rate_limit_block. destruct t as [p|]; [|reflexivity].
  destruct (Core._rate_limit p) as [limit|]; [|reflexivity]. now intros ->.
Qed.

(** X27.  Without a rate limit on the target (a plain string, a
    URL object with none, or one with the limit zero) a request never waits
    and returns the target as it was given, its last-request time
    untouched. *)
Theorem unlimited_requests_never_wait
    (verb : string) (t : target) (retries : option Z) (backoff jitter : Q)
    (session : option nat) (kw : kwargs) (w : world) :
  rate_limited t = false ->
  let out := http_request verb t retries backoff jitter session kw w in
  sleeps out.2 = sleeps w
  /\ (forall r, out.1 = Ok r -> _parent r = t).
Proof.
  intros Hoff out. subst out.
  destruct (scheme_ok_or_not t) as [Hok | [(e & He & _) | (sch & Hs & Hh)]].
  - destruct ((lookup_cache t verb w).1) as [entry|] eqn:El.
    + rewrite (http_request_hit _ _ _ _ _ _ _ _ _ _ _ entry Hok El).
      split; [reflexivity|]. now intros r [= <-].
    + rewrite (http_request_miss _ _ _ _ _ _ _ _ _ _ _ Hok El). cbv zeta.
      destruct (transport _ _) as [[resp|e] latency]; [|split; [reflexivity|discriminate]].
      destruct (_ && _).
      * split; [reflexivity|]. now destruct (_get_helpful_error_message _ _ _ _).
      * rewrite (rate_limit_block_off t _ Hoff). cbn [fst snd].
        split; [|now intros r [= <-]].
        now rewrite sleeps_logging, sleeps_after_call.
  - unfold Http.http_request. rewrite He. split; [reflexivity|discriminate].
  - unfold Http.http_request. rewrite Hs, Hh. split; [reflexivity|discriminate].
Qed.

End Facts.
End Requests.

(** ** More on the download manager *)

Module Transfers.
Import Str StrFacts Py Http Downloads.

(** The bytes of a streamed body, in order. *)
Definition streamed_bytes (stream : list chunk) : string :=
  foldr (fun c rest => match c with Block bytes => bytes +:+ rest | Fault _ => rest end)
        EmptyString stream.

Definition is_block (c : chunk) : bool :=
  match c with Block _ => true | Fault _ => false end.

Section Facts.

Variable json_loads : string -> option json.
Variable py_str : json -> string.
Variable transport : world -> net_call -> result Response * Q.
Variable hashlib_new : string -> option hash_kind.
Variable open_error : string -> option exn.

Local Abbreviation download_file :=
  (Downloads.download_file json_loads py_str transport hashlib_new open_error).
Local Abbreviation try_block :=
  (Downloads.try_block json_loads py_str transport hashlib_new open_error).
Local Abbreviation request := (Downloads.request json_loads py_str transport).

(** [WebPath.download(dest, ...)]: the retries and the backoff of the URL
    object stand in for those the caller does not give; [given_retries] and
    [given_backoff] are the caller's keyword arguments, if any. *)
Definition download (self : Core.WebPath) (dest : string)
    (given_retries : option (option Z)) (given_backoff : option Q)
    (checksum : option string) (algorithm : string) (req_kw : kwargs)
    (w : world) (fs : files) : result string * world * files :=
  let retries :=
    match given_retries with
    | Some given => given
    | None =>
        match Core._retries self with
        | Some r => Some r
        | None => Some 3
        end
    end in
  let backoff :=
    match given_backoff with
    | Some given => given
    | None => Core._backoff self
    end in
  download_file (TPath self) dest retries backoff checksum algorithm req_kw w fs.

Lemma write_blocks_done (stream : list chunk) (written : string) (h : option hasher)
    (written' : string) (h' : option hasher) :
  write_blocks stream written h = (written', h', None) ->
  written' = written +:+ streamed_bytes stream
  /\ List.forallb is_block stream = true.
Proof.
  revert written h. induction stream as [|[block|e] rest IH]; intros written h; simpl.
  - intros [= <- _]. now rewrite append_nil_r.
  - destruct block as [|c block]; simpl.
    + apply IH.
    + intros H. apply IH in H as [-> Hb]. split; [|exact Hb].
      now rewrite append_assoc.
  - discriminate.
Qed.

(** The world after the [try] block is the world after its request. *)
Lemma try_block_world t dest retries backoff checksum algorithm req_kw w fs :
  (try_block t dest retries backoff checksum algorithm req_kw w fs).1.2
  = (request t retries backoff req_kw w).2.
Proof.
  unfold Downloads.try_block.
  destruct (request t retries backoff req_kw w) as [[r|e] w1]; [|reflexivity].
  destruct (raise_for_status r); [|reflexivity].
  destruct (content_length r); [|reflexivity].
  destruct (new_hasher hashlib_new checksum algorithm); [|reflexivity].
  destruct (open_error dest); [reflexivity|].
  destruct (_response r); [|reflexivity].
  destruct (write_blocks _ _ _) as [[written h] [e|]]; reflexivity.
Qed.

Lemma download_file_world t dest retries backoff checksum algorithm req_kw w fs :
  (download_file t dest retries backoff checksum algorithm req_kw w fs).1.2
  = (request t retries backoff req_kw w).2.
Proof.
  rewrite <- (try_block_world t dest retries backoff checksum algorithm req_kw w fs).
  unfold Downloads.download_file.
  destruct (try_block _ _ _ _ _ _ _ _ _) as [[[h|e] w1] fs1]; [|reflexivity].
  destruct checksum as [c|]; [|reflexivity]. destruct h as [h|]; [|reflexivity].
  destruct (supplied (Some c)); [|reflexivity].
  destruct (hexdigest h); [|reflexivity]. now destruct (negb _).
Qed.

Lemma try_block_ok t dest retries backoff checksum algorithm req_kw w fs h w1 fs1 :
  try_block t dest retries backoff checksum algorithm req_kw w fs = (Ok h, w1, fs1) ->
  exists r resp,
    request t retries backoff req_kw w = (Ok r, w1)
    /\ _response r = Live resp
    /\ raise_for_status r = Ok tt
    /\ List.forallb is_block (resp_stream resp) = true
    /\ fs1 = <[dest := streamed_bytes (resp_stream resp)]> fs.
Proof.
  unfold Downloads.try_block.
  destruct (request t retries backoff req_kw w) as [[r|e] w0]; [|discriminate].
  destruct (raise_for_status r) as [[]|] eqn:Hs; [|discriminate].
  destruct (content_length r); [|discriminate].
  destruct (new_hasher hashlib_new checksum algorithm) as [h0|]; [|discriminate].
  destruct (open_error dest); [discriminate|].
  destruct (_response r) as [resp|c] eqn:Hl; [|discriminate].
  destruct (write_blocks (resp_stream resp) "" h0) as [[written h1] [e|]] eqn:Hw;
    [discriminate|].
  intros [= _ <- <-]. apply write_blocks_done in Hw as [-> Hb].
  exists r, resp. rewrite insert_insert_eq. now repeat split.
Qed.

Lemma download_file_ok t dest retries backoff checksum algorithm req_kw w fs path w' fs' :
  download_file t dest retries backoff checksum algorithm req_kw w fs = (Ok path, w', fs') ->
  path = dest
  /\ exists h, try_block t dest retries backoff checksum algorithm req_kw w fs
               = (Ok h, w', fs').
Proof.
  unfold Downloads.download_file.
  destruct (try_block _ _ _ _ _ _ _ _ _) as [[[h|e] w1] fs1]; [|discriminate].
  destruct checksum as [c|]; [|intros [= <- <- <-]; eauto].
  destruct h as [h|]; [|intros [= <- <- <-]; eauto].
  destruct (supplied (Some c)); [|intros [= <- <- <-]; eauto].
  destruct (hexdigest h); [|discriminate].
  destruct (negb _); [discriminate|intros [= <- <- <-]; eauto].
Qed.

(** X28.  A download that returns has returned the
    destination; its request came back from the transport with a status
    outside 400..599, the stream ended without an exception, and the file at
    the destination holds exactly the bytes of the stream, in order; the
    other files are as they were. *)
Theorem download_writes_streamed_bytes
    t dest retries backoff checksum algorithm req_kw w fs path w' fs' :
  download_file t dest retries backoff checksum algorithm req_kw w fs = (Ok path, w', fs') ->
  path = dest
  /\ exists r resp,
       request t retries backoff req_kw w = (Ok r, w')
       /\ _response r = Live resp
       /\ (resp_status resp < 400 \/ 600 <= resp_status resp)
       /\ List.forallb is_block (resp_stream resp) = true
       /\ fs' !! dest = Some (streamed_bytes (resp_stream resp))
       /\ forall other, other <> dest -> fs' !! other = fs !! other.
Proof.
  intros H. apply download_file_ok in H as [-> (h & H)]. split; [reflexivity|].
  apply try_block_ok in H as (r & resp & Hr & Hl & Hs & Hb & ->).
  exists r, resp. split; [exact Hr|]. split; [exact Hl|].
  split; [|split; [exact Hb|split]].
  - unfold raise_for_status in Hs. rewrite Hl in Hs. simpl in Hs.
    destruct (Z.leb_spec 400 (resp_status resp)) as [Hge|Hlt]; [|now left].
    destruct (Z.ltb_spec (resp_status resp) 600) as [Hlt|Hge']; [discriminate|now right].
  - apply lookup_insert_eq.
  - intros other Hne. now apply lookup_insert_ne.
Qed.


(** X30.  [WebPath.download] called without retries and
    backoff of its own makes at most one transport call: a streamed GET of
    the URL of the object, through the retry adapter with the retries of the
    object (3 when it has none; plainly when they are zero), its backoff and
    no jitter.  The call never goes through the session of the object, and
    carries only the timeout and the headers given to [download] itself,
    not those of the object. *)
Theorem download_ignores_request_settings
    (self : Core.WebPath) (dest : string) (checksum : option string)
    (algorithm : string) (req_kw : kwargs) (w : world) (fs : files) :
  let out := download self dest None None checksum algorithm req_kw w fs in
  let retries := match Core._retries self with Some r => r | None => 3 end in
  net_calls out.1.2 = net_calls w
  \/ net_calls out.1.2
     = mkCall "get" (Core._url self)
         (if retries =? 0 then ViaRequests
          else ViaRetryAdapter retries (Core._backoff self) 0)
         (mkKwargs (kw_timeout req_kw) (kw_headers req_kw) true)
       :: net_calls w.
Proof.
  intros out retries. subst out. unfold download. rewrite download_file_world.
  unfold Downloads.request.
  destruct (Requests.request_calls json_loads py_str transport "get" (TPath self)
              (match Core._retries self with Some r => Some r | None => Some 3 end)
              (Core._backoff self) 0 None
              (mkKwargs (kw_timeout req_kw) (kw_headers req_kw) true) w)
    as [Hsame | [_ Hcall]]; [now left|].
  right. rewrite Hcall. unfold call_of, choose_via. subst retries. simpl.
  now destruct (Core._retries self).
Qed.

End Facts.
End Transfers.

(** ** Concrete runs *)

(** Stand-ins for the black boxes, and the runs that instantiate the
    theorems above or show where a sentence of the specification fails. *)
Module Scenarios.
Import Str Py Http.

Definition blank : Core.WebPath :=
  Core.mkWebPath "" (Urllib.mkSplit "" "" "" "" "") false None false false None
    0%Q [] None 0%Q 0%Q None None.

Definition or_blank (r : result Core.WebPath) : Core.WebPath :=
  match r with Ok p => p | Raise _ => blank end.

Definition items_url : string := "https://api.example.com/items".
Definition page2_url : string := "https://api.example.com/items?page=2".
Definition admin_link : string := "http://localhost/admin".

(** [WebPath("https://api.example.com/items")] and two configured clones. *)
Definition items : Core.WebPath := Eval vm_compute in or_blank (Core.init items_url).

Definition limited : Core.WebPath :=
  Eval vm_compute in or_blank (Core.with_rate_limit items 1%Q).

Definition cached_items : Core.WebPath :=
  Eval vm_compute in or_blank (Core.with_cache items 300%Q None).

Definition cfg300 : Cache.CacheConfig := Cache.mkCacheConfig (Some 300%Q) None.

(** A JSON parser that answers the same value for every body, one that
    rejects every body, an f-string rendering of strings and integers, and a
    JMESPath evaluator for a bare identifier. *)
Definition loads_as (j : json) : string -> option json := fun _ => Some j.

Definition loads_nothing : string -> option json := fun _ => None.

Definition render (j : json) : string :=
  match j with JStr s => s | JInt z => of_Z z | _ => "" end.

Definition search_field (expression : string) (data : json) : search_outcome :=
  match data with
  | JDict d => SearchOk (default JNull (dict_get d expression))
  | _ => SearchOk JNull
  end.

(** A transport that answers every call with the same response, at once. *)
Definition always (r : Response) : world -> net_call -> result Response * Q :=
  fun _ _ => (Ok r, 0%Q).

Definition refuses : world -> net_call -> result Response * Q :=
  fun _ _ => (Raise (Exn RequestsConnectionError "connection refused"), 0%Q).

Definition answer (status : Z) (from : string) : Response :=
  mkResponse status [] "" from [].

Definition page (status : Z) (from : string) : WebResponse :=
  mkWebResponse (Live (answer status from)) (TPath items).

Definition plain_kw : kwargs := mkKwargs None [] false.

Definition at_time (t : Q) : world := mkWorld t [] ∅.

Definition get_call : net_call := mkCall "get" items_url ViaRequests plain_kw.

(** *** Navigation *)

(** C1 (the code at the failing input).  The body is the list of one link to
    localhost, auto-follow is off on the owning URL object, and the host is
    one of the blocked ones; [response / 0] still issues a GET to the link. *)
Theorem list_index_follows_blocked_link
    (py_str : json -> string) (transport : world -> net_call -> result Response * Q)
    (w : world) :
  let loads := loads_as (JList [JStr admin_link]) in
  let self := page 200 items_url in
  allow_auto_follow (_parent self) = false
  /\ (exists parsed, Urllib.urlsplit admin_link = Ok parsed
                     /\ host_blocked (Urllib.hostname parsed) = true)
  /\ net_calls (truediv loads py_str transport self (KInt 0) w).2
     = mkCall "get" admin_link ViaRequests plain_kw :: net_calls w.
Proof.
  intros loads self. split; [reflexivity|]. split.
  - eexists. split; reflexivity.
  - apply (truediv_list_follows loads py_str transport self (KInt 0) w
             [JStr admin_link] 0 admin_link
             (or_blank (Core.init admin_link))); reflexivity.
Qed.

(** The same link under a dictionary key is returned as it is. *)
Example dict_key_returns_blocked_link
    (py_str : json -> string) (transport : world -> net_call -> result Response * Q)
    (w : world) :
  truediv (loads_as (JDict [("admin", JStr admin_link)])) py_str transport
    (page 200 items_url) (KStr "admin") w
  = (Ok (NavValue (JStr admin_link)), w).
Proof. reflexivity. Qed.

(** C7: [has_path] answers [True] for a path that matches nothing. *)
Example has_path_of_missing_field :
  find (loads_as (JDict [("id", JInt 7)])) search_field (page 200 items_url)
    "owner" (Obj 0) = Obj 0
  /\ has_path (loads_as (JDict [("id", JInt 7)])) search_field (page 200 items_url)
       "owner" 0 = (true, 2%nat).
Proof. split; reflexivity. Qed.

(** C8 (counterexample).  The path produces the scalar [0]; [find_all]
    returns the empty list, not the list of that one value. *)
Lemma find_all_drops_zero :
  let loads := loads_as (JDict [("count", JInt 0)]) in
  let self := page 200 items_url in
  search_field "count" (json_data loads self) = SearchOk (JInt 0)
  /\ is_list (JInt 0) = false
  /\ find_all loads search_field self "count" = [].
Proof. repeat split. Qed.

(** C8 (an instance of the amended statement): a truthy scalar is wrapped, a
    falsy one is dropped. *)
Lemma find_all_cases_witness :
  find_all (loads_as (JDict [("count", JInt 3)])) search_field
    (page 200 items_url) "count" = [J (JInt 3)]
  /\ find_all (loads_as (JDict [("count", JInt 0)])) search_field
       (page 200 items_url) "count" = [].
Proof.
  split.
  - apply (proj2 (proj2 (find_all_cases (loads_as (JDict [("count", JInt 3)]))
                           search_field (page 200 items_url) "count")));
      reflexivity.
  - apply (proj2 (proj2 (find_all_cases (loads_as (JDict [("count", JInt 0)]))
                           search_field (page 200 items_url) "count")));
      reflexivity.
Defined.

(** *** Pagination *)

(** C6 (an instance): a server whose every page names the same next URL. *)
Lemma paginate_same_next_link_witness :
  let loads := loads_as (JDict [("next", JStr page2_url)]) in
  let pages := (paginate loads render (always (answer 200 page2_url))
                  (page 200 items_url) 100 None (at_time 0)).1 in
  page_url <$> pages = [items_url; page2_url]
  /\ Z.of_nat (length pages) <= 100
  /\ NoDup (page_url <$> pages).
Proof.
  split; [reflexivity|].
  pose proof (paginate_terminates_within_bound
                (loads_as (JDict [("next", JStr page2_url)])) render
                (always (answer 200 page2_url)) (page 200 items_url) 100 None
                (at_time 0)) as (_ & _ & Hlen & Hnd & _).
  split; [exact Hlen|exact Hnd].
Defined.

(** *** The executor *)

Definition stored : Cache.CacheEntry :=
  Cache.mkEntry 200 [] "cached body" items_url 90%Q.

Definition with_entry (now : Q) : world :=
  mkWorld now [] {[ ("get", items_url) := stored ]}.

Lemma items_scheme_ok (p : Core.WebPath) :
  Core.is_http_scheme (Urllib.scheme (Core._parts p)) = true ->
  http_scheme_ok (TPath p).
Proof. intros H. eexists. split; [reflexivity|exact H]. Qed.

(** C3 (an instance).  TTL 300, an entry stored at time 90: at time 100 the
    request returns the entry and the world is untouched; at time 1000 the
    request reaches the transport and the fresh 200 response is stored. *)
Lemma cache_hit_then_expiry_witness :
  http_request loads_nothing render (always (answer 200 items_url)) "get"
    (TPath cached_items) None (3 # 10) 0 None plain_kw (with_entry 100)
  = (Ok (mkWebResponse (Cached stored) (TPath cached_items)), with_entry 100)
  /\ net_calls
       (http_request loads_nothing render (always (answer 200 items_url)) "get"
          (TPath cached_items) None (3 # 10) 0 None plain_kw (with_entry 1000)).2
     = [get_call].
Proof.
  pose proof (fun w =>
    cache_hit_skips_transport_miss_stores loads_nothing render
      (always (answer 200 items_url)) "get" (TPath cached_items) None (3 # 10) 0
      None plain_kw w cfg300 300
      (items_scheme_ok cached_items eq_refl) eq_refl eq_refl) as H.
  split.
  - apply (proj1 (H (with_entry 100)) stored); [reflexivity|].
    vm_compute. discriminate.
  - apply (proj2 (H (with_entry 1000))). right. exists stored.
    split; [reflexivity|]. vm_compute. intros Hle. now apply Hle.
Defined.

Definition get_limited (p : Core.WebPath) (w : world) : result WebResponse * world :=
  get loads_nothing render (always (answer 200 items_url)) p w.

(** C4 (counterexample).  Limit 1 request per second; two requests in a row
    through the same URL object, the first at time 100.  The first stamps
    the object with 100.  The second performs its transport call at time
    100, no second after the first, and sleeps only afterwards: on the
    trace (newest event first) the sleep of one second lies above both
    calls. *)
Lemma second_call_is_not_delayed :
  match get_limited limited (at_time 100) with
  | (Ok first, w1) =>
      match _parent first with
      | TPath stamped =>
          Core._rate_limit stamped = Some 1%Q
          /\ Core._last_request_time stamped = 100%Q
          /\ clock w1 = 100%Q
          /\ trace w1 = [ENet get_call]
          /\ trace (get_limited stamped w1).2
             = [ESleep 1%Q; ENet get_call; ENet get_call]
      | TStr _ => False
      end
  | (Raise _, _) => False
  end.
Proof. vm_compute. repeat split. Qed.

(** C4 (an instance of the amended statement): the second request of the
    run above. *)
Lemma rate_limit_waits_after_the_call_witness :
  let stamped := Http.set_last_request_time limited 100 in
  let w1 := mkWorld 100 [ENet get_call] ∅ in
  exists p' w',
    http_request loads_nothing render (always (answer 200 items_url)) "get"
      (TPath stamped) None (3 # 10) 0 None plain_kw w1
    = (Ok (mkWebResponse (Live (answer 200 items_url)) (TPath p')), w')
    /\ net_calls w' = [get_call; get_call]
    /\ sleeps w' = [(1 / 1 - (100 + 0 - 100))%Q]
    /\ Core._last_request_time p' = clock w'.
Proof.
  intros stamped w1.
  destruct (rate_limit_waits_after_the_call loads_nothing render
              (always (answer 200 items_url)) "get" stamped None (3 # 10) 0 None
              plain_kw w1 1 (answer 200 items_url) 0
              (items_scheme_ok stamped eq_refl) eq_refl eq_refl eq_refl eq_refl
              ltac:(simpl; lia))
    as (p' & w' & Hreq & Hcalls & Hsleeps & _ & Hstamp & _).
  exists p', w'. repeat split; assumption.
Defined.

Definition unauthorized_message : string :=
  "Authentication failed for api.example.com. Check your API credentials.".


Definition teapot : json := JDict [("message", JStr "short and stout")].

Definition items_parts : Urllib.SplitResult :=
  Urllib.mkSplit "https" "api.example.com" "/items" "" "".


(** *** Downloads *)

(** A hash library with one algorithm, whose digest is one byte: the sum of
    the bytes modulo 256. *)
Fixpoint byte_sum (data : string) : nat :=
  match data with
  | EmptyString => 0
  | String c rest => (code c + byte_sum rest) mod 256
  end.

Definition sum8 (data : string) : string := String (ch (byte_sum data)) EmptyString.

(** The extendable-output companion: as many copies of that byte as asked
    for. *)
Fixpoint sum_xof (length : nat) (data : string) : string :=
  match length with
  | O => EmptyString
  | S n => sum8 data +:+ sum_xof n data
  end.

Definition toy_hashlib (name : string) : option Downloads.hash_kind :=
  if String.eqb name "sum8" then Some (Downloads.FixedLength sum8)
  else if String.eqb name "shake_128" then Some (Downloads.ExtendableOutput sum_xof)
  else None.

Definition opens : string -> option exn := fun _ => None.

Definition reset : exn := Exn RequestsOther "connection reset by peer".

Definition body (stream : list chunk) : Response :=
  mkResponse 200 [("Content-Length", "4")] "" items_url stream.

Definition download (transport : world -> net_call -> result Response * Q)
    (checksum : option string) (algorithm : string) (fs : Downloads.files)
  : result string * world * Downloads.files :=
  Downloads.download_file loads_nothing render transport toy_hashlib opens
    (TPath items) "out.bin" (Some 3) (3 # 10) checksum algorithm plain_kw
    (at_time 0) fs.

Definition streamed : world :=
  mkWorld 0 [ENet (mkCall "get" items_url (ViaRetryAdapter 3 (3 # 10) 0)
                     (mkKwargs None [] true))] ∅.



Definition existing : Downloads.files := {[ "out.bin" := "an earlier download" ]}.


(** *** Joins *)

Definition v1 : Core.WebPath :=
  Eval vm_compute in or_blank (Core.init "https://api.example.com/v1/?pretty=1").

(** C9 (an instance of the amended statement): a base path that ends with a
    slash, a segment that starts and ends with one and holds a space; no
    double slash comes of them. *)
Lemma joins_append_encoded_segments_witness :
  exists u',
    Core.joins v1 ["users"; "/a b/"; "c"] = Ok u'
    /\ Urllib.path (Core._parts u') = "/v1/users/a%20b/c"
    /\ infixb "//" (Urllib.path (Core._parts u')) = false
    /\ Core._url u' = "https://api.example.com/v1/users/a%20b/c?pretty=1".
Proof.
  destruct (proj1 (JoinFacts.joins_append_encoded_segments
                     "https://api.example.com/v1/?pretty=1" v1
                     ["users"; "/a b/"; "c"] eq_refl))
    as (u' & Hjoins & Hpath & Hsingle).
  exists u'. split; [exact Hjoins|]. split; [exact Hpath|].
  split; [apply Hsingle; [reflexivity|repeat constructor]|].
  vm_compute in Hjoins. injection Hjoins as <-. reflexivity.
Defined.

(** C9 (counterexample).  A segment that holds two slashes in a row keeps
    them, and so does a base whose path starts with two: the joined paths
    hold a double slash. *)
Lemma join_keeps_double_slashes :
  (exists u',
      Core.truediv v1 "a//b" = Ok u'
      /\ Urllib.path (Core._parts u') = "/v1/a//b"
      /\ Core._url u' = "https://api.example.com/v1/a//b?pretty=1")
  /\ (exists u u',
        Core.init "https://api.example.com//x" = Ok u
        /\ Core.truediv u "y" = Ok u'
        /\ Urllib.path (Core._parts u') = "//x/y"
        /\ Core._url u' = "https://api.example.com//x/y").
Proof.
  split.
  - eexists. split; [vm_compute; reflexivity|]. split; reflexivity.
  - eexists _, _. split; [vm_compute; reflexivity|].
    split; [vm_compute; reflexivity|]. split; reflexivity.
Qed.

(** *** The URL builder *)

(** X1 (an instance).  A join with a plain segment: the name is the segment. *)
Lemma name_of_join_is_segment_witness :
  exists joined,
    Core.truediv items "users" = Ok joined /\ Builder.name joined = "users".
Proof.
  exact (Builder.name_of_join_is_segment items_url "users" items eq_refl eq_refl eq_refl).
Defined.

(** X2 (an instance).  The parent of the joined URL is the URL joined to. *)
Lemma parent_undoes_join_witness :
  exists joined back,
    Core.truediv items "users" = Ok joined
    /\ Builder.parent joined = Ok back
    /\ Urllib.path (Core._parts back) = "/items"
    /\ Urllib.scheme (Core._parts back) = "https"
    /\ Urllib.netloc (Core._parts back) = "api.example.com".
Proof.
  exact (Builder.parent_undoes_join items_url "users" items eq_refl eq_refl eq_refl).
Defined.

(** X4 (an instance).  The pieces of https://api.example.com/v1/?pretty=1 and
    of its join with "a b". *)
Lemma segments_of_join_witness :
  Builder.segments v1 = ["v1"]
  /\ exists joined,
       Core.truediv v1 "a b" = Ok joined
       /\ Builder.segments joined = ["v1"; "a%20b"].
Proof.
  split; [reflexivity|].
  exact (proj2 (proj2 (Builder.segments_of_join "https://api.example.com/v1/?pretty=1"
                         "a b" v1 eq_refl eq_refl eq_refl))).
Defined.

(** X5 (an instance).  A rate-limited URL without a trailing slash: the slash
    comes with a fresh object, the rate limit is gone. *)
Lemma ensure_trailing_slash_resets_settings_witness :
  Core._rate_limit limited = Some 1%Q
  /\ exists u',
       Builder.ensure_trailing_slash limited = Ok u'
       /\ Core._url u' = "https://api.example.com/items/"
       /\ Core._rate_limit u' = None.
Proof.
  split; [reflexivity|].
  destruct (Builder.ensure_trailing_slash_resets_settings items_url items limited
              eq_refl eq_refl) as (u' & He & _ & _ & _ & Hnew).
  destruct (Hnew eq_refl) as (Hu & _ & _ & Hr & _).
  exists u'. split; [exact He|]. split; [exact Hu|exact Hr].
Defined.

(** X6 (an instance).  The query dropped and a fragment set on
    https://api.example.com/v1/?pretty=1. *)
Lemma without_query_and_with_fragment_witness :
  (exists bare,
      Builder.without_query v1 = Ok bare
      /\ Urllib.query (Core._parts bare) = ""
      /\ Urllib.path (Core._parts bare) = "/v1/")
  /\ (exists tagged,
        Builder.with_fragment v1 "top of page" = Ok tagged
        /\ Urllib.fragment (Core._parts tagged) = "top%20of%20page"
        /\ Urllib.query (Core._parts tagged) = "pretty=1").
Proof.
  destruct (Builder.without_query_and_with_fragment
              "https://api.example.com/v1/?pretty=1" "top of page" v1 eq_refl)
    as [(bare & Hb & Hq & _ & _ & Hkeep) (tagged & Ht & _ & _ & Hf & Hkeep')].
  split.
  - exists bare. split; [exact Hb|]. split; [exact Hq|].
    exact (proj1 (Hkeep eq_refl)).
  - exists tagged. split; [exact Ht|]. split.
    + destruct Hf as [Hf | [Hflag _]]; [exact Hf|discriminate Hflag].
    + exact (proj2 (Hkeep' eq_refl)).
Defined.

Definition bearer : list (string * string) := [("Authorization", "Bearer t0ken")].

(** X8 (an instance).  A header set on the URL object is sent with its GET. *)
Lemma with_headers_are_sent_witness :
  exists u',
    Builder.with_headers items bearer = Ok u'
    /\ Builder.dict_lookup (Core._default_headers u') "Authorization" = Some "Bearer t0ken"
    /\ net_calls (get loads_nothing render (always (answer 200 items_url)) u'
                    (at_time 0)).2
       = [mkCall "get" items_url ViaRequests (mkKwargs None bearer false)].
Proof.
  destruct (Builder.with_headers_are_sent loads_nothing render
              (always (answer 200 items_url)) items_url items items bearer (at_time 0)
              eq_refl eq_refl eq_refl) as (u' & Hw & _ & Hl & Hc).
  exists u'. split; [exact Hw|]. split; [exact (Hl "Authorization")|].
  rewrite Hc. vm_compute in Hw. injection Hw as <-. reflexivity.
Defined.

(** X9 (an instance).  Three retries set on the URL object: its GET goes
    through the retry adapter. *)
Lemma with_retries_selects_transport_witness :
  exists u',
    Builder.with_retries items (Some 3) (1 # 2) 0 = Ok u'
    /\ net_calls (get loads_nothing render (always (answer 200 items_url)) u'
                    (at_time 0)).2
       = [mkCall "get" items_url (ViaRetryAdapter 3 (1 # 2) 0) plain_kw].
Proof.
  destruct (Builder.with_retries_selects_transport loads_nothing render
              (always (answer 200 items_url)) items_url items items (Some 3) (1 # 2) 0
              (at_time 0) eq_refl eq_refl eq_refl) as (u' & Hw & _ & _ & Hc).
  exists u'. split; [exact Hw|exact Hc].
Defined.

Definition with_userinfo : Core.WebPath :=
  Eval vm_compute in or_blank (Core.init "https://user:pw@example.com:8443/x").

(** X10 (an instance).  Host and port of https://user:pw@example.com:8443/x. *)
Lemma host_and_port_split_netloc_witness :
  Builder.host_text with_userinfo = "example.com"
  /\ Builder.port with_userinfo = Some "8443".
Proof.
  destruct (Builder.host_and_port_split_netloc with_userinfo (Some "user:pw")
              "example.com" (Some "8443") eq_refl eq_refl) as (Hh & Hp & _).
  - intros x [= <-]. split; reflexivity.
  - reflexivity.
  - split; [exact Hh|exact (Hp "8443" eq_refl)].
Defined.

(** An encoding that leaves ASCII names as they are. *)
Definition ascii_only (netloc : string) : option string := Some netloc.

(** X11 (an instance).  A cache of one entry: a second name is encoded,
    returned and cached. *)
Lemma idna_cache_is_transparent_and_bounded_witness :
  (Builder._idna ascii_only [("a.example", "a.example")] "b.example").1 = "b.example"
  /\ Builder.dict_lookup
       (Builder._idna ascii_only [("a.example", "a.example")] "b.example").2 "b.example"
     = Some "b.example".
Proof.
  destruct (Builder.idna_cache_is_transparent_and_bounded ascii_only
              [("a.example", "a.example")] "b.example") as (H1 & _ & H2 & _).
  - constructor.
    + repeat constructor. simpl. intros H. inversion H.
    + repeat constructor.
    + unfold Builder._IDNA_CACHE_MAX_SIZE. simpl. lia.
  - split; [exact H1|exact H2].
Defined.

(** *** The navigator *)

Definition profile : json :=
  JDict [("user_id", JInt 7);
         ("profile", JDict [("ID", JInt 9); ("name", JStr "widget")]);
         ("tags", JList [JDict [("Id", JNull)]])].

(** X12 (an instance).  A case-insensitive search for "id" finds the nested
    value under "ID". *)
Lemma search_returns_matching_entries_witness :
  In (JInt 9) (Navigator.search (loads_as profile) (page 200 items_url) "id" false).
Proof.
  apply (proj2 (Navigator.search_returns_matching_entries (loads_as profile)
                  (page 200 items_url) "id" false (JInt 9) eq_refl)).
  exists "ID". split; [|reflexivity].
  apply (Navigator.entry_dict _ "profile" (JDict [("ID", JInt 9); ("name", JStr "widget")])).
  - right. left. reflexivity.
  - apply Navigator.entry_here. left. reflexivity.
Defined.

(** X13 (an instance).  With the keys of the profile, all ASCII: what the
    case-sensitive search for "id" finds, the default search finds too. *)
Lemma case_sensitive_search_finds_less_witness :
  Navigator.search (loads_as profile) (page 200 items_url) "id" true
  `sublist_of` Navigator.search (loads_as profile) (page 200 items_url) "id" false.
Proof.
  apply Navigator.case_sensitive_search_finds_less; [reflexivity|].
  intros k v He. change (Navigator.entry profile k v) in He. unfold profile in He.
  repeat match goal with
         | H : In _ (_ :: _) |- _ => destruct H as [H|H]
         | H : In _ [] |- _ => destruct H
         | H : (_, _) = (_, _) |- _ => injection H as <- <-
         | H : _ = _ :> json |- _ => subst
         | H : Navigator.entry (JDict _) _ _ |- _ => inversion H; subst; clear H
         | H : Navigator.entry (JList _) _ _ |- _ => inversion H; subst; clear H
         | H : Navigator.entry _ _ _ |- _ => solve [inversion H]
         end; reflexivity.
Defined.

Definition quoted (s : string) : string := "'" +:+ s +:+ "'".

(** X16 (an instance).  A plain value under a key: [/] and indexing agree. *)
Lemma navigation_agrees_with_indexing_witness :
  Navigator.getitem (loads_as profile) quoted (page 200 items_url) (KStr "user_id")
  = Ok (JInt 7)
  /\ truediv (loads_as profile) render (always (answer 200 items_url))
       (page 200 items_url) (KStr "user_id") (at_time 0)
     = (Ok (NavValue (JInt 7)), at_time 0).
Proof.
  split; [reflexivity|].
  exact (Navigator.navigation_agrees_with_indexing (loads_as profile) render
           (always (answer 200 items_url)) quoted (page 200 items_url)
           (KStr "user_id") (at_time 0) (JInt 7) eq_refl eq_refl).
Defined.

(** X17 (an instance).  A list whose first element is a link without a host:
    the constructor rejects it with [ValueError], and [/] raises [KeyError]. *)
Lemma list_navigation_masks_index_errors_witness :
  (Core.init "http://") = Raise (Exn ValueError "URL must include hostname: http://")
  /\ truediv (loads_as (JList [JStr "http://"])) render (always (answer 200 items_url))
       (page 200 items_url) (KInt 0) (at_time 0)
     = (Raise (key_error (KInt 0)), at_time 0)
  /\ caught_by (key_error (KInt 0)) [ValueError; IndexError] = false.
Proof.
  split; [reflexivity|]. split; [reflexivity|].
  exact (proj1 (Navigator.list_navigation_masks_index_errors
                  (loads_as (JList [JStr "http://"])) render
                  (always (answer 200 items_url)) (page 200 items_url) (KInt 0)
                  (at_time 0) (at_time 0) [JStr "http://"] (key_error (KInt 0))
                  eq_refl eq_refl)).
Defined.

Definition listing : json :=
  JDict [("data", JList [JInt 1; JInt 2]); ("next", JStr page2_url)].

(** X21 (an instance).  Two pages with the same items: both collectors return
    them twice. *)
Lemma paginate_items_agrees_with_paginate_all_witness :
  Navigator.paginate_items (loads_as listing) render (always (answer 200 page2_url))
    (page 200 items_url) "data" 100 (at_time 0)
  = Navigator.paginate_all (loads_as listing) render (always (answer 200 page2_url))
      (page 200 items_url) 100 None (Some "data") (at_time 0)
  /\ (Navigator.paginate_items (loads_as listing) render (always (answer 200 page2_url))
        (page 200 items_url) "data" 100 (at_time 0)).1
     = [JInt 1; JInt 2; JInt 1; JInt 2].
Proof.
  split; [|reflexivity].
  apply (Navigator.paginate_items_agrees_with_paginate_all (loads_as listing) render
           (always (answer 200 page2_url)) (page 200 items_url) "data" 100 (at_time 0)
           eq_refl eq_refl).
  intros pg d _ Hd. injection Hd as <-. discriminate.
Defined.

(** *** The executor *)

Definition times_out : world -> net_call -> result Response * Q :=
  fun _ _ => (Raise (Exn RequestsConnectTimeout "connect timed out"), 0%Q).

(** X26 (an instance).  A connect timeout comes out as [ConnectionError]. *)
Lemma transport_failures_by_class_witness :
  (http_request loads_nothing render times_out "get" (TPath items) None (3 # 10) 0
     None plain_kw (at_time 0)).1
  = Raise (Exn ConnectionError ("Failed to connect to " +:+ items_url)).
Proof.
  rewrite (Requests.transport_failures_by_class loads_nothing render times_out "get"
             (TPath items) None (3 # 10) 0 None plain_kw (at_time 0)
             (Exn RequestsConnectTimeout "connect timed out") 0
             (items_scheme_ok items eq_refl) eq_refl eq_refl).
  reflexivity.
Defined.

Definition unthrottled : Core.WebPath :=
  Eval vm_compute in or_blank (Core.with_rate_limit items 0%Q).

(** X27 (an instance).  A rate limit of zero: the request does not wait. *)
Lemma unlimited_requests_never_wait_witness :
  Core._rate_limit unthrottled = Some 0%Q
  /\ sleeps (http_request loads_nothing render (always (answer 200 items_url)) "get"
               (TPath unthrottled) None (3 # 10) 0 None plain_kw (at_time 100)).2
     = [].
Proof.
  split; [reflexivity|].
  exact (proj1 (Requests.unlimited_requests_never_wait loads_nothing render
                  (always (answer 200 items_url)) "get" (TPath unthrottled) None
                  (3 # 10) 0 None plain_kw (at_time 100) eq_refl)).
Defined.

(** *** Downloads *)

(** X28 (an instance).  A stream of three blocks, one of them empty: the file
    holds their bytes. *)
Lemma download_writes_streamed_bytes_witness :
  exists fs',
    download (always (body [Block "ab"; Block ""; Block "cd"])) None "sum8" existing
    = (Ok "out.bin", streamed, fs')
    /\ fs' !! "out.bin" = Some "abcd".
Proof.
  eexists. split; [reflexivity|].
  destruct (Transfers.download_writes_streamed_bytes loads_nothing render
              (always (body [Block "ab"; Block ""; Block "cd"])) toy_hashlib opens
              (TPath items) "out.bin" (Some 3) (3 # 10) None "sum8" plain_kw
              (at_time 0) existing "out.bin" streamed _ eq_refl)
    as (_ & r & resp & Hr & Hl & _ & _ & Hf & _).
  vm_compute in Hr. injection Hr as <-. injection Hl as <-. exact Hf.
Defined.


(** X23 (an instance).  A page whose body is not JSON: a search finds nothing,
    indexing by a key raises [KeyError], and [paginate] yields the page itself
    without a request. *)
Lemma unparseable_body_is_empty_object_witness :
  Navigator.search loads_nothing (page 200 items_url) "id" false = []
  /\ Navigator.getitem loads_nothing quoted (page 200 items_url) (KStr "id")
     = Raise (Exn KeyError "'id'")
  /\ paginate loads_nothing render (always (answer 200 items_url))
       (page 200 items_url) 100 None (at_time 0)
     = ([page 200 items_url], at_time 0).
Proof.
  destruct (Navigator.unparseable_body_is_empty_object loads_nothing search_field
              render (always (answer 200 items_url)) quoted (page 200 items_url)
              "id" "user.id" false (J JNull) JNull (KStr "id") 100 None (at_time 0)
              eq_refl)
    as (_ & _ & _ & Hs & _ & _ & _ & _ & _ & Hg & _ & Hp).
  split; [exact Hs|]. split; [exact Hg|]. apply Hp. lia.
Defined.

End Scenarios.
